(** * A verification model of the vendored yoyo migration engine

    The development follows the layout of the Python package
    [anki_fantasy/_vendor/yoyo]: one module per source file.

    - [topologicalsort]: [topologicalsort.py], the dependency sorter;
    - [utils]: [utils.py], the parameter-style translation;
    - [dbapi]: the DB-API connection the backend drives, reduced to the
      tables and statements the engine uses;
    - [backends]: the transaction layer of [backends/base.py];
    - [migrations]: [migrations.py], migration loading, the step executor
      and [MigrationList];
    - [bookkeeping]: the lock table and the bookkeeping tables of
      [backends/base.py].

    Python sets and dicts are stdpp's [gset] and [gmap]; Python exceptions
    are explicit result values. *)

From Stdlib Require Import Ascii.
From stdpp Require Import gmap strings list fin_maps sorting relations pretty.

(** Python's truth value of an object ([if bad:] in [raise_cycle_error]). *)
Class Truthy (T : Type) := truthy : T → bool.
#[global] Instance nat_truthy : Truthy nat := λ n, negb (Nat.eqb n 0).
#[global] Instance string_truthy : Truthy string := λ s, negb (String.eqb s EmptyString).

(** * Python values shared by the modules *)

(** The exceptions the modelled code raises or catches.  [DatabaseError]
    is the driver's [DatabaseError] with its subclasses; [BadMigration],
    [MigrationConflict] and [LockTimeout] are yoyo's own; the others are
    Python built-ins, and [PythonError] stands for any other class. *)
Inductive exn :=
  | DatabaseError (msg : string)
  | BadMigration (msg : string)
  | MigrationConflict (id : string)
  | LockTimeout (msg : string)
  | TypeError (msg : string)
  | IndexError (msg : string)
  | KeyError (key : string)
  | ValueError (msg : string)
  | AttributeError (msg : string)
  | AssertionError (msg : string)
  | PythonError (name msg : string).

#[global] Instance exn_eq_dec : EqDecision exn.
Proof. solve_decision. Defined.

(** A call that returns a value or raises. *)
Definition result (A : Type) : Type := exn + A.
Definition Ok {A} (a : A) : result A := inr a.
Definition Raise {A} (e : exn) : result A := inl e.

(** ** Python list indexing *)

(** [l[i]] for an integer [i]: a negative index counts from the end, an
    index out of range raises [IndexError]. *)
Definition list_getitem {A} (l : list A) (i : Z) : result A :=
  let n := Z.of_nat (length l) in
  let j := if decide (i < 0)%Z then (i + n)%Z else i in
  if decide (0 ≤ j < n)%Z then
    match l !! Z.to_nat j with
    | Some x => Ok x
    | None => Raise (IndexError "list index out of range")
    end
  else Raise (IndexError "list index out of range").

(** A [slice(start, stop, step)] object; [None] for a bound left out. *)
Record slice := Slice { slice_start : option Z; slice_stop : option Z; slice_step : option Z }.

(** [slice.indices(length)]: the bounds and step, brought into range. *)
Definition slice_indices (s : slice) (length : Z) : result (Z * Z * Z) :=
  let step := default 1%Z (slice_step s) in
  if decide (step = 0)%Z then Raise (ValueError "slice step cannot be zero")
  else
    let lower := if decide (step < 0)%Z then (-1)%Z else 0%Z in
    let upper := if decide (step < 0)%Z then (length - 1)%Z else length in
    let clamp (v : Z) :=
      if decide (v < 0)%Z then Z.max (v + length) lower else Z.min v upper in
    let start :=
      match slice_start s with
      | None => if decide (step < 0)%Z then upper else lower
      | Some v => clamp v
      end in
    let stop :=
      match slice_stop s with
      | None => if decide (step < 0)%Z then lower else upper
      | Some v => clamp v
      end in
    Ok (start, stop, step).

(** [len(range(start, stop, step))] for a non-zero [step]. *)
Definition range_length (start stop step : Z) : nat :=
  if decide (0 < step)%Z then
    if decide (start < stop)%Z then Z.to_nat (1 + (stop - 1 - start) / step) else 0
  else
    if decide (stop < start)%Z then Z.to_nat (1 + (start - 1 - stop) / (- step)) else 0.

(** [list(range(start, stop, step))] *)
Definition py_range (start stop step : Z) : list Z :=
  (λ k : nat, (start + Z.of_nat k * step)%Z) <$> seq 0 (range_length start stop step).

(** [l[s]] for a slice [s]. *)
Definition list_getslice {A} (l : list A) (s : slice) : result (list A) :=
  match slice_indices s (Z.of_nat (length l)) with
  | inl e => Raise e
  | inr (start, stop, step) =>
      Ok (omap (λ i : Z, l !! Z.to_nat i) (py_range start stop step))
  end.

(** [l[s] = values] for a slice [s]: a slice of step 1 is cut out and
    [values] put in its place; an extended slice needs as many values as it
    selects positions. *)
Definition list_setslice {A} (l : list A) (s : slice) (values : list A) : result (list A) :=
  match slice_indices s (Z.of_nat (length l)) with
  | inl e => Raise e
  | inr (start, stop, step) =>
      if decide (step = 1)%Z then
        let stop := Z.max start stop in
        Ok (take (Z.to_nat start) l ++ values ++ drop (Z.to_nat stop) l)
      else
        let positions := py_range start stop step in
        if decide (length values = length positions) then
          Ok (foldl (λ acc p, <[Z.to_nat p.1 := p.2]> acc) l (zip positions values))
        else Raise (ValueError "attempt to assign sequence to extended slice of wrong size")
  end.

(** [l.insert(i, x)]: the index is brought into [0 .. len(l)]. *)
Definition list_insert_at {A} (l : list A) (i : Z) (x : A) : list A :=
  let n := Z.of_nat (length l) in
  let j := if decide (i < 0)%Z then Z.max (i + n) 0 else Z.min i n in
  take (Z.to_nat j) l ++ x :: drop (Z.to_nat j) l.

(** [del l[i]] for an integer [i]. *)
Definition list_delitem {A} (l : list A) (i : Z) : result (list A) :=
  let n := Z.of_nat (length l) in
  let j := if decide (i < 0)%Z then (i + n)%Z else i in
  if decide (0 ≤ j < n)%Z then Ok (delete (Z.to_nat j) l)
  else Raise (IndexError "list assignment index out of range").


(** ** Facts about Python indexing *)

Lemma py_range_bounds (start stop step v : Z) :
  step ≠ 0%Z → v ∈ py_range start stop step →
  ((0 < step)%Z → (start ≤ v < stop)%Z) ∧ ((step < 0)%Z → (stop < v ≤ start)%Z).
Proof.
  intros Hstep Hv. unfold py_range in Hv.
  apply list_elem_of_fmap in Hv as (k & -> & Hk).
  apply elem_of_seq in Hk as [_ Hk]. simpl in Hk. unfold range_length in Hk.
  split; intros Hs.
  - rewrite decide_True in Hk by done. case_decide as Hlt; [|lia].
    assert (0 ≤ (stop - 1 - start) / step)%Z by (apply Z.div_pos; lia).
    assert (Z.of_nat k ≤ (stop - 1 - start) / step)%Z as Hk' by lia.
    pose proof (Z.mul_div_le (stop - 1 - start) step Hs). nia.
  - rewrite decide_False in Hk by lia. case_decide as Hlt; [|lia].
    assert (0 ≤ (start - 1 - stop) / (- step))%Z by (apply Z.div_pos; lia).
    assert (Z.of_nat k ≤ (start - 1 - stop) / (- step))%Z as Hk' by lia.
    pose proof (Z.mul_div_le (start - 1 - stop) (- step) ltac:(lia)). nia.
Qed.

Lemma py_range_NoDup (start stop step : Z) : step ≠ 0%Z → NoDup (py_range start stop step).
Proof.
  intros Hstep. unfold py_range. apply NoDup_fmap_2_strong; [|apply NoDup_seq].
  intros x y _ _ Heq. nia.
Qed.

Lemma slice_indices_bounds (s : slice) (len start stop step : Z) :
  (0 ≤ len)%Z → slice_indices s len = Ok (start, stop, step) →
  step ≠ 0%Z
  ∧ ((0 < step)%Z → (0 ≤ start ≤ len)%Z ∧ (0 ≤ stop ≤ len)%Z)
  ∧ ((step < 0)%Z → (-1 ≤ start ≤ len - 1)%Z ∧ (-1 ≤ stop ≤ len - 1)%Z).
Proof.
  intros Hlen. unfold slice_indices. case_decide as Hz; [done|].
  intros [= <- <- <-]. split; [done|].
  destruct (slice_start s) as [a|], (slice_stop s) as [b|];
    repeat case_decide; split; intros; lia.
Qed.

(** A slice selects items at distinct positions of the list. *)
Lemma list_getslice_positions {A} (l : list A) (s : slice) (l' : list A) :
  list_getslice l s = Ok l' →
  ∃ zs : list Z, NoDup zs ∧ Forall (λ z, 0 ≤ z < Z.of_nat (length l))%Z zs
    ∧ l' = omap (λ z : Z, l !! Z.to_nat z) zs.
Proof.
  unfold list_getslice.
  destruct (slice_indices s (Z.of_nat (length l))) as [e|[[start stop] step]] eqn:E; [done|].
  intros [= <-]. apply slice_indices_bounds in E as (Hstep & Hpos & Hneg); [|lia].
  exists (py_range start stop step). split_and!; [by apply py_range_NoDup| |done].
  apply Forall_forall. intros v Hv. apply py_range_bounds in Hv as [Hp Hn]; [|done].
  destruct (decide (0 < step)%Z); [specialize (Hp ltac:(done)); lia|].
  assert (step < 0)%Z as Hlt by lia. specialize (Hn Hlt). specialize (Hneg Hlt). lia.
Qed.

Lemma NoDup_omap_lookup {A} (l : list A) (zs : list Z) :
  NoDup l → NoDup zs → Forall (λ z, 0 ≤ z)%Z zs →
  NoDup (omap (λ z : Z, l !! Z.to_nat z) zs).
Proof.
  intros Hl. induction 1 as [|z zs Hz Hzs IH]; intros Hall; [constructor|].
  apply Forall_cons in Hall as [Hz0 Hall]. simpl.
  destruct (l !! Z.to_nat z) as [x|] eqn:E; [|by apply IH].
  constructor; [|by apply IH].
  intros Hin. apply list_elem_of_omap in Hin as (z' & Hz' & E').
  simpl in E'. assert (Z.to_nat z = Z.to_nat z') as Heq.
  { eapply NoDup_lookup; [exact Hl|exact E|exact E']. }
  rewrite Forall_forall in Hall. specialize (Hall z' Hz').
  assert (z = z') as -> by lia. done.
Qed.

Lemma list_getslice_NoDup {A B} (f : A → B) (l : list A) (s : slice) (l' : list A) :
  NoDup (f <$> l) → list_getslice l s = Ok l' → NoDup (f <$> l').
Proof.
  intros Hnd Hs. apply list_getslice_positions in Hs as (zs & Hzs & Hall & ->).
  rewrite list_fmap_omap.
  rewrite (list_omap_ext _ (λ z : Z, (f <$> l) !! Z.to_nat z) _ zs).
  2:{ apply Forall2_same_length_lookup_2; [done|]. intros i x y Hx Hy.
      rewrite list_lookup_fmap. congruence. }
  apply NoDup_omap_lookup; [done..|].
  eapply Forall_impl; [exact Hall|]. simpl. lia.
Qed.

(** A slice with a step other than 0 never raises. *)
Lemma list_getslice_Ok {A} (l : list A) (s : slice) :
  slice_step s ≠ Some 0%Z → ∃ l', list_getslice l s = Ok l'.
Proof.
  intros Hs. unfold list_getslice, slice_indices.
  rewrite decide_False; [by eexists|].
  destruct (slice_step s) as [z|]; simpl; [|done]. congruence.
Qed.

Module topologicalsort.
Section topologicalsort.
Context `{Countable T} `{Truthy T}.

(** How the generator [topological_sort] ends once its yields are consumed:
    [Exhausted] is the normal end of the iteration, the others are the
    exceptions the source can raise. *)
Inductive outcome :=
  | Exhausted
  | CycleError (nodes : list T)
  | ValueError (bad : T)
  | KeyError (key : T)
  | AssertionError.

(** The local variables of [topological_sort] that live across iterations
    of its [while] loop. *)
Record state := State {
  pqueue : list (nat * T);
  seen_since_last_change : nat;
  output : gset T;
  blocked_on : gmap T (gset T);
  blocked : gset T }.

(** One iteration of the loop either goes on with a new state or leaves the
    loop; in both cases it may have yielded an item first. *)
Inductive step_result :=
  | Go (y : option T) (st : state)
  | End (y : option T) (o : outcome).

(** [heapq] is a library min-heap over [(index, item)] pairs.  It is
    modelled by what the sorter can observe of it: the queue is kept in
    increasing order of index, [heappop] takes its first pair and
    [heappush] inserts a pair at its place.  Two pairs with the same index
    carry the same item, so the order among equal indices is immaterial. *)
Fixpoint heappush (pq : list (nat * T)) (e : nat * T) : list (nat * T) :=
  match pq with
  | [] => [e]
  | e' :: pq' => if decide (e.1 ≤ e'.1) then e :: e' :: pq' else e' :: heappush pq' e
  end.

(** [list(enumerate(items))] *)
Definition enumerate (items : list T) : list (nat * T) :=
  imap (λ ix item, (ix, item)) items.

(** [{item: ix for ix, item in pqueue}]: a later pair overwrites an earlier
    one with the same item. *)
Definition make_ordering (pq : list (nat * T)) : gmap T nat :=
  foldl (λ m e, <[e.2 := e.1]> m) ∅ pq.

(** [blocked_on.values()] *)
Definition values (m : gmap T (gset T)) : list (gset T) := (map_to_list m).*2.

(** [key=ordering.get].  Every node that is sorted was popped from, or sits
    in, the queue, so it has an index; the default stands for [None]. *)
Definition sort_key (ordering : gmap T nat) (n : T) : nat := default 0 (ordering !! n).

Definition key_le (ordering : gmap T nat) (a b : T) : Prop :=
  sort_key ordering a ≤ sort_key ordering b.

#[global] Instance key_le_dec ordering a b : Decision (key_le ordering a b).
Proof. unfold key_le. apply _. Defined.

(** [raise_cycle_error(ordering, pqueue, blocked_on)]: always raises; the
    result is the exception. *)
Definition raise_cycle_error (ordering : gmap T nat) (pq : list (nat * T))
    (blocked_on : gmap T (gset T)) : outcome :=
  let bad := head (filter (λ item, ordering !! item = None) (map_to_list blocked_on).*1) in
  let unresolved : gset T := list_to_set pq.*2 ∪ ⋃ values blocked_on in
  let report :=
    if decide (unresolved = ∅) then AssertionError
    else CycleError (merge_sort (key_le ordering) (elements unresolved)) in
  match bad with
  | Some b => if truthy b then ValueError b else report
  | None => report
  end.

(** [dependency_graph.get(n, [])] *)
Definition deps (g : gmap T (list T)) (n : T) : list T := default [] (g !! n).

(** [{d for d in dependency_graph.get(n, []) if d not in output and d in ordering}] *)
Definition blockers_of (ordering : gmap T nat) (g : gmap T (list T)) (out : gset T)
    (n : T) : gset T :=
  list_to_set (filter (λ d, (d ∉ out) ∧ is_Some (ordering !! d)) (deps g n)).

(** The [for b in blocked_on.pop(n, [])] loop: [b] goes back to the queue
    when no other entry of [blocked_on] holds it.  [ordering[b]] raises
    [KeyError] for an unknown [b]. *)
Definition push_unblocked (ordering : gmap T nat) (blocked_on' : gmap T (gset T))
    (acc : list (nat * T) + T) (b : T) : list (nat * T) + T :=
  match acc with
  | inr k => inr k
  | inl q =>
      if existsb (λ other, bool_decide (b ∈ other)) (values blocked_on') then inl q
      else match ordering !! b with
           | Some ix => inl (heappush q (ix, b))
           | None => inr b
           end
  end.

(** [for b in blockers: blocked_on[b].add(n)] on a [defaultdict(set)]. *)
Definition add_blocked (n : T) (m : gmap T (gset T)) (b : T) : gmap T (gset T) :=
  <[b := default ∅ (m !! b) ∪ {[n]}]> m.

(** One pass through the body of [while pqueue:], and what follows the loop
    when the queue is empty. *)
Definition step (ordering : gmap T nat) (g : gmap T (list T)) (st : state) : step_result :=
  match pqueue st with
  | [] =>
      if decide (blocked_on st = ∅) then End None Exhausted
      else End None (raise_cycle_error ordering [] (blocked_on st))
  | (_, n) :: pq =>
      if decide (seen_since_last_change st = length (pqueue st) + size (blocked st))
      then End None (raise_cycle_error ordering (pqueue st) (blocked_on st))
      else
        let blockers := blockers_of ordering g (output st) n in
        if decide (blockers = ∅) then
          let blocked_on' := delete n (blocked_on st) in
          match foldl (push_unblocked ordering blocked_on') (inl pq)
                  (elements (default ∅ (blocked_on st !! n))) with
          | inl pq' =>
              Go (Some n) (State pq' 0 (output st ∪ {[n]}) blocked_on' (blocked st ∖ {[n]}))
          | inr k => End (Some n) (KeyError k)
          end
        else if decide (n ∈ blocked st) then
          Go None (State pq (S (seen_since_last_change st)) (output st)
                     (blocked_on st) (blocked st))
        else
          Go None (State pq 0 (output st)
                     (foldl (add_blocked n) (blocked_on st) (elements blockers))
                     (blocked st ∪ {[n]}))
  end.

Definition yield (y : option T) (ys : list T) : list T :=
  match y with Some n => n :: ys | None => ys end.

(** The loop, run for at most [fuel] iterations: the yielded items in
    order, and how the generator ended. *)
Fixpoint loop (fuel : nat) (ordering : gmap T nat) (g : gmap T (list T)) (st : state)
    : option (list T * outcome) :=
  match fuel with
  | 0 => None
  | S fuel =>
      match step ordering g st with
      | End y o => Some (yield y [], o)
      | Go y st' => prod_map (yield y) id <$> loop fuel ordering g st'
      end
  end.

(** [topological_sort(items, dependency_graph)].  Every iteration pops one
    pair and a node is pushed back at most once, so [2 * len(items)]
    iterations and the final test of the loop condition are enough. *)
Definition topological_sort (items : list T) (g : gmap T (list T))
    : option (list T * outcome) :=
  let pq := enumerate items in
  let ordering := make_ordering pq in
  loop (2 * length items + 1) ordering g (State pq 0 ∅ ∅ ∅).

Implicit Types (items : list T) (g : gmap T (list T)) (pq : list (nat * T)) (n : T).

Definition idx_le : relation (nat * T) := λ x y, x.1 ≤ y.1.

Lemma heappush_perm pq e : heappush pq e ≡ₚ e :: pq.
Proof.
  induction pq as [|e' pq IH]; simpl; [done|].
  case_decide; [done|]. rewrite IH. apply Permutation_swap.
Qed.

Lemma heappush_sorted pq e :
  StronglySorted idx_le pq → StronglySorted idx_le (heappush pq e).
Proof.
  induction 1 as [|e' pq Hs IH Hall]; simpl.
  - repeat constructor.
  - case_decide as Hle.
    + constructor; [by constructor|].
      constructor; [done|].
      eapply Forall_impl; [exact Hall|]. intros x Hx. unfold idx_le in *. lia.
    + constructor; [done|].
      rewrite heappush_perm. constructor; [unfold idx_le; lia | done].
Qed.

Lemma elem_of_enumerate items i n : (i, n) ∈ enumerate items ↔ items !! i = Some n.
Proof.
  unfold enumerate. rewrite elem_of_lookup_imap. split.
  - intros (j & y & [= -> ->] & Hy). done.
  - intros Hi. by exists i, n.
Qed.

Lemma enumerate_sorted items : StronglySorted idx_le (enumerate items).
Proof.
  unfold enumerate.
  assert (∀ k, StronglySorted idx_le (imap (λ ix item, (k + ix, item)) items)
             ∧ Forall (λ e, k ≤ e.1) (imap (λ ix item, (k + ix, item)) items)) as Hgen.
  { induction items as [|x items IH]; intros k; simpl.
    - split; constructor.
    - destruct (IH (S k)) as [IH1 IH2].
      assert (imap ((λ ix item, (k + ix, item)) ∘ S) items
              = imap (λ ix item, (S k + ix, item)) items) as ->.
      { apply imap_ext. intros. simpl. f_equal. lia. }
      split.
      + constructor; [done|]. eapply Forall_impl; [exact IH2|].
        intros e He. unfold idx_le. simpl in *. lia.
      + constructor; [simpl; lia|].
        eapply Forall_impl; [exact IH2|]. intros e He. simpl in He. lia. }
  destruct (Hgen 0) as [Hs _]. done.
Qed.

Lemma enumerate_snd items : (enumerate items).*2 = items.
Proof.
  unfold enumerate. rewrite fmap_imap. 
  induction items as [|x l IH]; simpl; [done|]. f_equal.
  rewrite <- IH at 2. by apply imap_ext.
Qed.

Lemma make_ordering_lookup items n i :
  NoDup items → make_ordering (enumerate items) !! n = Some i ↔ items !! i = Some n.
Proof.
  intros Hnd. unfold make_ordering.
  assert (∀ pq (m0 : gmap T nat), NoDup pq.*2 →
    foldl (λ m e, <[e.2 := e.1]> m) m0 pq !! n = Some i ↔
    (i, n) ∈ pq ∨ (n ∉ pq.*2 ∧ m0 !! n = Some i)) as Hgen.
  { induction pq as [|[j x] pq IH]; intros m0 Hpq; simpl.
    - rewrite elem_of_nil. set_solver.
    - simpl in Hpq. apply NoDup_cons in Hpq as [Hx Hpq].
      rewrite IH by done. rewrite elem_of_cons, not_elem_of_cons.
      destruct (decide (x = n)) as [->|Hne].
      + rewrite lookup_insert_eq. split.
        * intros [Hin|[Hni [= ->]]]; [|by left; left].
          exfalso. apply Hx. apply list_elem_of_fmap. by exists (i, n).
        * intros [[[= -> ]|Hin]|[[Hn _] _]]; [|by left|done].
          right. done.
      + rewrite lookup_insert_ne by done. split.
        * intros [Hin|[Hni Hm]]; [by left; right|]. right. done.
        * intros [[[= -> ->]|Hin]|[[_ Hn] Hm]]; [done|by left|by right]. }
  rewrite Hgen by (by rewrite enumerate_snd).
  rewrite elem_of_enumerate, lookup_empty. naive_solver.
Qed.

(** ** Specification vocabulary *)
Definition ready items g (E : gset T) n : Prop :=
  ∀ d, d ∈ deps g n → d ∈ items → d ∈ E.

Definition holds (bo : gmap T (gset T)) (k b : T) : Prop :=
  ∃ V, bo !! k = Some V ∧ b ∈ V.

Definition heldb (bo : gmap T (gset T)) (b : T) : bool :=
  existsb (λ other, bool_decide (b ∈ other)) (values bo).

Lemma heldb_true bo b : heldb bo b = true ↔ ∃ k, holds bo k b.
Proof.
  unfold heldb, values, holds. rewrite existsb_exists. split.
  - intros (V & HV & Hb). apply bool_decide_eq_true in Hb.
    apply list_elem_of_In, list_elem_of_fmap in HV as ([k V'] & -> & Hkv).
    apply elem_of_map_to_list in Hkv. by exists k, V'.
  - intros (k & V & Hk & Hb). exists V. split; [|by apply bool_decide_eq_true].
    apply list_elem_of_In, list_elem_of_fmap. exists (k, V). split; [done|].
    by apply elem_of_map_to_list.
Qed.

Lemma heldb_false bo b : heldb bo b = false ↔ ∀ k, ¬ holds bo k b.
Proof.
  rewrite <- not_true_iff_false, heldb_true. naive_solver.
Qed.

Lemma blockers_empty items g (E : gset T) n :
  NoDup items →
  blockers_of (make_ordering (enumerate items)) g E n = ∅ ↔ ready items g E n.
Proof.
  intros Hnd. unfold blockers_of, ready. split.
  - intros He d Hd Hin. destruct (decide (d ∈ E)) as [|Hn]; [done|]. exfalso.
    assert (d ∈ (∅ : gset T)) as Hx; [|set_solver].
    rewrite <- He. apply elem_of_list_to_set, list_elem_of_filter. split; [|done].
    split; [done|]. apply list_elem_of_lookup in Hin as [i Hi].
    exists i. by apply make_ordering_lookup.
  - intros Hr. apply set_eq. intros d. rewrite elem_of_list_to_set, list_elem_of_filter.
    split; [|set_solver]. intros [[Hn [i Hi]] Hd]. exfalso. apply Hn, Hr; [done|].
    apply make_ordering_lookup in Hi; [|done]. by eapply list_elem_of_lookup_2.
Qed.

Lemma elem_of_blockers items g (E : gset T) n d :
  NoDup items →
  d ∈ blockers_of (make_ordering (enumerate items)) g E n ↔
  d ∈ deps g n ∧ d ∈ items ∧ d ∉ E.
Proof.
  intros Hnd. unfold blockers_of. rewrite elem_of_list_to_set, list_elem_of_filter.
  split.
  - intros [[Hn [i Hi]] Hd]. split_and!; [done| |done].
    apply make_ordering_lookup in Hi; [|done]. by eapply list_elem_of_lookup_2.
  - intros (Hd & Hin & Hn). split; [|done]. split; [done|].
    apply list_elem_of_lookup in Hin as [i Hi]. exists i. by apply make_ordering_lookup.
Qed.

Lemma add_blocked_holds n (l : list T) (m : gmap T (gset T)) k b :
  holds (foldl (add_blocked n) m l) k b ↔ holds m k b ∨ (k ∈ l ∧ b = n).
Proof.
  revert m. induction l as [|x l IH]; intros m; simpl.
  - rewrite elem_of_nil. naive_solver.
  - rewrite IH. rewrite elem_of_cons. unfold holds, add_blocked.
    destruct (decide (x = k)) as [->|Hne].
    + rewrite lookup_insert_eq. split.
      * intros [(V & [= <-] & Hb)|[Hk ->]]; [|by right; split; [right|]].
        apply elem_of_union in Hb as [Hb|Hb].
        -- left. destruct (m !! k) as [V|]; [by exists V|set_solver].
        -- right. split; [by left|set_solver].
      * intros [(V & Hm & Hb)|[[_|Hk] ->]].
        -- left. eexists. split; [done|]. rewrite Hm. set_solver.
        -- left. eexists. split; [done|]. set_solver.
        -- by right.
    + rewrite lookup_insert_ne by done. naive_solver.
Qed.

Lemma add_blocked_nonempty n (l : list T) (m : gmap T (gset T)) :
  (∀ k V, m !! k = Some V → V ≠ ∅) →
  ∀ k V, foldl (add_blocked n) m l !! k = Some V → V ≠ ∅.
Proof.
  revert m. induction l as [|x l IH]; intros m Hm; simpl; [done|].
  apply IH. intros k V. unfold add_blocked.
  destruct (decide (x = k)) as [->|Hne].
  - rewrite lookup_insert_eq. intros [= <-]. set_solver.
  - rewrite lookup_insert_ne by done. apply Hm.
Qed.

Lemma push_unblocked_inl (ord : gmap T nat) (bo : gmap T (gset T)) pq b :
  push_unblocked ord bo (inl pq) b =
  if heldb bo b then inl pq
  else match ord !! b with Some ix => inl (heappush pq (ix, b)) | None => inr b end.
Proof. reflexivity. Qed.

Lemma push_unblocked_fold (ord : gmap T nat) (bo : gmap T (gset T)) (l : list T) pq :
  (∀ b, b ∈ l → is_Some (ord !! b)) →
  ∃ pq', foldl (push_unblocked ord bo) (inl pq) l = inl pq'
    ∧ pq' ≡ₚ ((λ b, (sort_key ord b, b)) <$> filter (λ b, heldb bo b = false) l) ++ pq
    ∧ (StronglySorted idx_le pq → StronglySorted idx_le pq').
Proof.
  revert pq. induction l as [|x l IH]; intros pq Hl; cbn [foldl].
  - exists pq. done.
  - rewrite push_unblocked_inl.
    destruct (heldb bo x) eqn:Hx.
    + destruct (IH pq) as (pq' & Hf & Hp & Hs); [set_solver|].
      exists pq'. split; [done|]. split; [|done].
      rewrite filter_cons_False; [done|]. by rewrite Hx.
    + destruct (Hl x) as [ix Hix]; [set_solver|]. rewrite Hix.
      destruct (IH (heappush pq (ix, x))) as (pq' & Hf & Hp & Hs); [set_solver|].
      exists pq'. split; [done|]. split.
      * rewrite filter_cons_True by done. rewrite Hp, heappush_perm. simpl.
        unfold sort_key. rewrite Hix. simpl. by rewrite Permutation_middle.
      * intros Hsorted. by apply Hs, heappush_sorted.
Qed.

Lemma holds_delete (bo : gmap T (gset T)) n k b :
  holds (delete n bo) k b ↔ k ≠ n ∧ holds bo k b.
Proof.
  unfold holds. destruct (decide (k = n)) as [->|Hne].
  - rewrite lookup_delete_eq. naive_solver.
  - rewrite lookup_delete_ne by done. naive_solver.
Qed.

Lemma holds_popped (bo : gmap T (gset T)) n b :
  b ∈ default ∅ (bo !! n) ↔ holds bo n b.
Proof.
  unfold holds. destruct (bo !! n) as [V|]; simpl; [naive_solver|].
  split; [set_solver|naive_solver].
Qed.

Lemma sorted_head_le pq (e e' : nat * T) :
  StronglySorted idx_le (e :: pq) → e' ∈ e :: pq → e.1 ≤ e'.1.
Proof.
  intros Hs Hin. apply StronglySorted_inv in Hs as [_ Hall].
  apply elem_of_cons in Hin as [->|Hin]; [done|].
  rewrite Forall_forall in Hall. by apply Hall.
Qed.

Lemma StronglySorted_filter_list {A} (R : relation A) (P : A → Prop)
    `{∀ x, Decision (P x)} (l : list A) :
  StronglySorted R l → StronglySorted R (filter P l).
Proof.
  induction 1 as [|x l Hs IH Hall]; [constructor|].
  rewrite filter_cons. case_decide; [|done]. constructor; [done|].
  apply Forall_forall. intros y [_ Hy]%list_elem_of_filter.
  rewrite Forall_forall in Hall. by apply Hall.
Qed.

Lemma filter_none {A} (P : A → Prop) `{∀ x, Decision (P x)} (l : list A) :
  (∀ x, x ∈ l → ¬ P x) → filter P l = [].
Proof.
  induction l as [|x l IH]; intros Hl; [done|].
  rewrite filter_cons_False by (apply Hl; left). apply IH. intros y Hy. apply Hl. by right.
Qed.

Lemma elem_of_values (bo : gmap T (gset T)) b : b ∈ ⋃ values bo ↔ ∃ k, holds bo k b.
Proof.
  rewrite elem_of_union_list. unfold values, holds. split.
  - intros (V & HV & Hb). apply list_elem_of_fmap in HV as ([k V'] & -> & Hkv).
    apply elem_of_map_to_list in Hkv. by exists k, V'.
  - intros (k & V & Hk & Hb). exists V. split; [|done].
    apply list_elem_of_fmap. exists (k, V). split; [done|]. by apply elem_of_map_to_list.
Qed.

Lemma filter_ext_elem {A} (P Q : A → Prop) `{∀ x, Decision (P x)} `{∀ x, Decision (Q x)}
    (l : list A) :
  (∀ x, x ∈ l → P x ↔ Q x) → filter P l = filter Q l.
Proof.
  induction l as [|x l IH]; intros Hl; [done|].
  rewrite !filter_cons. rewrite IH by (intros y Hy; apply Hl; by right).
  destruct (Hl x) as [HPQ HQP]; [left|]. repeat case_decide; tauto.
Qed.

Lemma fmap_snd_keyed (f : T → nat) (l : list T) : ((λ b, (f b, b)) <$> l).*2 = l.
Proof. induction l as [|x l IH]; csimpl; [done|]. by f_equal. Qed.

Section run.
Variables (items : list T) (g : gmap T (list T)).
Hypothesis Hnd : NoDup items.
Abbreviation ord := (make_ordering (enumerate items)).

Record Inv (st : state) : Prop := {
  inv_seen : seen_since_last_change st = 0;
  inv_sorted : StronglySorted idx_le (pqueue st);
  inv_nodup : NoDup (pqueue st).*2;
  inv_idx : ∀ i n, (i, n) ∈ pqueue st → items !! i = Some n;
  inv_fresh : ∀ n, n ∈ (pqueue st).*2 → n ∉ output st;
  inv_out : ∀ n, n ∈ output st → n ∈ items ∧ ready items g (output st) n;
  inv_blocked : ∀ n, n ∈ blocked st → n ∈ items ∧ n ∉ output st;
  inv_cover : ∀ n, n ∈ items → n ∈ output st ∨ n ∈ (pqueue st).*2 ∨ n ∈ blocked st;
  inv_holds : ∀ k b, holds (blocked_on st) k b ↔
      b ∈ blocked st ∧ k ∈ deps g b ∧ k ∈ items ∧ k ∉ output st;
  inv_nonempty : ∀ k V, blocked_on st !! k = Some V → V ≠ ∅;
  inv_repushed : ∀ n, n ∈ (pqueue st).*2 → n ∈ blocked st → ready items g (output st) n;
  inv_waiting : ∀ n, n ∈ blocked st → n ∉ (pqueue st).*2 →
      ∃ k, k ∈ deps g n ∧ k ∈ items ∧ k ∉ output st }.

Lemma ready_mono (E E' : gset T) n : E ⊆ E' → ready items g E n → ready items g E' n.
Proof. unfold ready. set_solver. Qed.

Lemma ord_is_Some n : n ∈ items → is_Some (ord !! n).
Proof.
  intros Hin. apply list_elem_of_lookup in Hin as [i Hi]. exists i.
  by apply make_ordering_lookup.
Qed.

Lemma sort_key_index i n : items !! i = Some n → sort_key ord n = i.
Proof.
  intros Hi. unfold sort_key. apply (make_ordering_lookup _ _ _ Hnd) in Hi. by rewrite Hi.
Qed.

Definition potential (st : state) : nat := 2 * size (output st) + size (blocked st).

Definition least_ready (E : gset T) (n : T) : Prop :=
  n ∈ items ∧ n ∉ E ∧ ready items g E n ∧
  ∀ m i j, items !! i = Some n → items !! j = Some m → m ∉ E → ready items g E m → i ≤ j.

Lemma init_inv : Inv (State (enumerate items) 0 ∅ ∅ ∅).
Proof.
  constructor; simpl.
  - done.
  - apply enumerate_sorted.
  - by rewrite enumerate_snd.
  - intros i n. by rewrite elem_of_enumerate.
  - set_solver.
  - set_solver.
  - set_solver.
  - intros n Hn. right; left. by rewrite enumerate_snd.
  - intros k b. unfold holds. rewrite lookup_empty. split; [naive_solver|set_solver].
  - intros k V. by rewrite lookup_empty.
  - set_solver.
  - set_solver.
Qed.

Lemma step_emit st i0 n pq pq' :
  Inv st → pqueue st = (i0, n) :: pq →
  ready items g (output st) n →
  pq' ≡ₚ ((λ b, (sort_key ord b, b)) <$>
            filter (λ b, heldb (delete n (blocked_on st)) b = false)
              (elements (default ∅ (blocked_on st !! n)))) ++ pq →
  StronglySorted idx_le pq' →
  Inv (State pq' 0 (output st ∪ {[n]}) (delete n (blocked_on st)) (blocked st ∖ {[n]})).
Proof.
  intros Hinv Hpq Hready Hperm Hsorted.
  destruct Hinv as [Hseen Hs Hnodup Hidx Hfresh Hout Hblk Hcover Hholds Hne Hrep Hwait].
  rewrite Hpq in *. simpl in Hnodup. apply NoDup_cons in Hnodup as [Hn_pq Hnodup].
  assert (items !! i0 = Some n) as Hn_idx by (apply Hidx; left).
  assert (n ∉ output st) as Hn_out by (apply Hfresh; simpl; left).
  assert (∀ m, m ∈ pq'.*2 ↔ m ∈ pq.*2 ∨
            (holds (blocked_on st) n m ∧ ∀ k, k ≠ n → ¬ holds (blocked_on st) k m)) as Hpq'.
  { intros m. rewrite Hperm, fmap_app, elem_of_app, fmap_snd_keyed.
    rewrite list_elem_of_filter, elem_of_elements, holds_popped, heldb_false.
    setoid_rewrite holds_delete. naive_solver. }
  assert (∀ b, holds (blocked_on st) n b → b ≠ n) as Hself.
  { intros b Hb ->. apply Hholds in Hb as (_ & Hd & Hin & Hno). apply Hno. by apply Hready. }
  constructor; simpl.
  - done.
  - done.
  - rewrite Hperm, fmap_app, fmap_snd_keyed.
    apply NoDup_app. split_and!; [|intros m Hm Hm'|done].
    + apply NoDup_filter, NoDup_elements.
    + apply list_elem_of_filter in Hm as [_ Hm]. apply elem_of_elements, holds_popped in Hm.
      pose proof (proj1 (Hholds _ _) Hm) as (Hb & Hd & Hin & Hno).
      apply Hno. apply (Hrep m); [by right|done| |]; [done|by eapply list_elem_of_lookup_2].
  - intros i m. rewrite Hperm, elem_of_app, list_elem_of_fmap. intros [(b & [= -> ->] & Hb)|Hin].
    + apply list_elem_of_filter in Hb as [_ Hb]. apply elem_of_elements, holds_popped in Hb.
      apply Hholds in Hb as (Hb & _). apply Hblk in Hb as [Hb _].
      apply list_elem_of_lookup in Hb as [j Hj]. by rewrite (sort_key_index _ _ Hj).
    + apply Hidx. by right.
  - intros m Hm. apply Hpq' in Hm as [Hm|[Hm _]].
    + assert (m ≠ n) by (by intros ->).
      assert (m ∉ output st) by (apply Hfresh; by right). set_solver.
    + pose proof (Hself _ Hm). apply Hholds in Hm as (Hm & _). apply Hblk in Hm. set_solver.
  - intros m Hm. apply elem_of_union in Hm as [Hm|Hm].
    + destruct (Hout m Hm) as [? ?]. split; [done|].
      eapply ready_mono; [|done]. set_solver.
    + apply elem_of_singleton in Hm as ->. split; [by eapply list_elem_of_lookup_2|].
      eapply ready_mono; [|done]. set_solver.
  - intros m Hm. apply elem_of_difference in Hm as [Hm Hmn].
    destruct (Hblk m Hm). set_solver.
  - intros m Hm. destruct (decide (m = n)) as [->|Hmn]; [left; set_solver|].
    destruct (Hcover m Hm) as [?|[Hin|?]]; [left; set_solver| |right; right; set_solver].
    right; left. apply Hpq'. left. simpl in Hin. apply elem_of_cons in Hin as [?|?]; done.
  - intros k b. rewrite holds_delete, Hholds. split.
    + intros (Hkn & Hb & Hd & Hin & Hno). split_and!; [|done|done|set_solver].
      apply elem_of_difference. split; [done|]. intros ->%elem_of_singleton.
      apply Hno. by apply Hready.
    + set_solver.
  - intros k V HV. apply lookup_delete_Some in HV as [_ HV]. by eapply Hne.
  - intros m Hm Hmb. apply elem_of_difference in Hmb as [Hmb Hmn].
    apply Hpq' in Hm as [Hm|[Hm Hothers]].
    + eapply ready_mono; [|apply Hrep; [by right|done]]. set_solver.
    + intros d Hd Hin. destruct (decide (d = n)) as [->|Hdn]; [set_solver|].
      destruct (decide (d ∈ output st)) as [|Hno]; [set_solver|]. exfalso.
      apply (Hothers d Hdn). apply Hholds. done.
  - intros m Hmb Hm. apply elem_of_difference in Hmb as [Hmb Hmn].
    assert (m ∉ ((i0, n) :: pq).*2) as Hm_old.
    { simpl. rewrite not_elem_of_cons. split; [set_solver|]. intros Hin. apply Hm, Hpq'. by left. }
    destruct (Hwait m Hmb Hm_old) as (k & Hkd & Hkin & Hko).
    destruct (decide (k = n)) as [->|Hkn].
    + destruct (heldb (delete n (blocked_on st)) m) eqn:Hheld.
      * apply heldb_true in Hheld as (k' & Hk'). apply holds_delete in Hk' as [Hk'n Hk'].
        apply Hholds in Hk' as (_ & ? & ? & ?). exists k'. set_solver.
      * exfalso. apply Hm, Hpq'. right. split; [by apply Hholds|].
        intros k' Hk'n Hk'. rewrite heldb_false in Hheld. apply (Hheld k').
        by apply holds_delete.
    + exists k. set_solver.
Qed.

Lemma step_block st i0 n pq :
  Inv st → pqueue st = (i0, n) :: pq →
  ¬ ready items g (output st) n → n ∉ blocked st →
  Inv (State pq 0 (output st)
         (foldl (add_blocked n) (blocked_on st)
            (elements (blockers_of ord g (output st) n)))
         (blocked st ∪ {[n]})).
Proof.
  intros Hinv Hpq Hnready Hnb.
  destruct Hinv as [Hseen Hs Hnodup Hidx Hfresh Hout Hblk Hcover Hholds Hne Hrep Hwait].
  rewrite Hpq in *. simpl in Hnodup. apply NoDup_cons in Hnodup as [Hn_pq Hnodup].
  assert (items !! i0 = Some n) as Hn_idx by (apply Hidx; left).
  assert (n ∉ output st) as Hn_out by (apply Hfresh; simpl; left).
  constructor; simpl.
  - done.
  - by apply StronglySorted_inv in Hs as [? _].
  - done.
  - intros i m Hm. apply Hidx. by right.
  - intros m Hm. apply Hfresh. by right.
  - done.
  - intros m Hm. apply elem_of_union in Hm as [Hm| ->%elem_of_singleton]; [by apply Hblk|].
    split; [by eapply list_elem_of_lookup_2|done].
  - intros m Hm. destruct (Hcover m Hm) as [?|[Hin|?]]; [by left| |right; right; set_solver].
    simpl in Hin. apply elem_of_cons in Hin as [-> | ?]; [right; right; set_solver|by right; left].
  - intros k b. rewrite add_blocked_holds, Hholds, elem_of_elements, (elem_of_blockers _ _ _ _ _ Hnd).
    split.
    + intros [(Hb & ?)|[(? & ? & ?) ->]]; set_solver.
    + intros (Hb & Hd & Hin & Hno). apply elem_of_union in Hb as [Hb| ->%elem_of_singleton];
        [by left|by right].
  - apply add_blocked_nonempty. done.
  - intros m Hm Hmb. apply elem_of_union in Hmb as [Hmb| ->%elem_of_singleton]; [|done].
    apply Hrep; [by right|done].
  - intros m Hmb Hm. apply elem_of_union in Hmb as [Hmb| ->%elem_of_singleton].
    + apply Hwait; [done|]. simpl. rewrite not_elem_of_cons. split; [by intros ->|done].
    + destruct (decide (blockers_of ord g (output st) n = ∅)) as [He|He].
      * exfalso. by apply Hnready, blockers_empty.
      * apply set_choose_L in He as [k Hk]. exists k.
        by apply (elem_of_blockers _ _ _ _ _ Hnd).
Qed.

(** What one iteration that goes on establishes. *)
Lemma step_go st y st' :
  Inv st → step ord g st = Go y st' →
  Inv st' ∧ potential st < potential st' ∧
  match y with
  | None => output st' = output st
  | Some n => output st' = output st ∪ {[n]} ∧ least_ready (output st) n
  end.
Proof.
  intros Hinv Hstep. unfold step in Hstep.
  destruct (pqueue st) as [|[i0 n] pq] eqn:Hpq; [by case_decide|].
  case_decide as Hseen; [done|]. clear Hseen.
  assert (items !! i0 = Some n) as Hn_idx.
  { apply (inv_idx _ Hinv). rewrite Hpq. left. }
  assert (n ∉ output st) as Hn_out.
  { apply (inv_fresh _ Hinv). rewrite Hpq. simpl. left. }
  case_decide as Hblockers.
  - apply blockers_empty in Hblockers; [|done].
    destruct (push_unblocked_fold ord (delete n (blocked_on st))
                (elements (default ∅ (blocked_on st !! n))) pq) as (pq' & Hf & Hperm & Hsort).
    { intros b Hb. apply elem_of_elements, holds_popped in Hb.
      apply (inv_holds _ Hinv) in Hb as (Hb & _).
      apply (inv_blocked _ Hinv) in Hb as [Hb _]. by apply ord_is_Some. }
    rewrite Hf in Hstep. injection Hstep as <- <-.
    split; [|split].
    + eapply step_emit; [done..|]. apply Hsort.
      pose proof (inv_sorted _ Hinv) as Hs. rewrite Hpq in Hs.
      by apply StronglySorted_inv in Hs as [? _].
    + unfold potential. simpl.
      rewrite size_union by set_solver. rewrite size_singleton.
      destruct (decide (n ∈ blocked st)) as [Hb|Hb].
      * rewrite size_difference by set_solver. rewrite size_singleton.
        assert (size (blocked st) ≠ 0); [|lia].
        intros Hz. apply size_empty_inv in Hz. set_solver.
      * assert (blocked st ∖ {[n]} = blocked st) as -> by set_solver. lia.
    + simpl. split; [done|]. split_and!; [by eapply list_elem_of_lookup_2|done|done|].
      intros m i j Hi Hj Hm_out Hm_ready.
      assert (i = i0) as -> by (by eapply NoDup_lookup).
      assert (m ∈ items) as Hm_in by (by eapply list_elem_of_lookup_2).
      destruct (inv_cover _ Hinv m Hm_in) as [?|[Hm_pq|Hm_b]]; [done| |].
      * apply list_elem_of_fmap in Hm_pq as ([j' m'] & -> & Hin). simpl in *.
        pose proof (inv_idx _ Hinv _ _ Hin) as Hj'.
        assert (j' = j) as -> by (by eapply NoDup_lookup).
        pose proof (inv_sorted _ Hinv) as Hs. rewrite Hpq in Hs, Hin.
        apply (sorted_head_le _ _ _ Hs Hin).
      * destruct (decide (m ∈ (pqueue st).*2)) as [Hm_pq|Hm_pq].
        -- apply list_elem_of_fmap in Hm_pq as ([j' m'] & -> & Hin). simpl in *.
           pose proof (inv_idx _ Hinv _ _ Hin) as Hj'.
           assert (j' = j) as -> by (by eapply NoDup_lookup).
           pose proof (inv_sorted _ Hinv) as Hs. rewrite Hpq in Hs, Hin.
           apply (sorted_head_le _ _ _ Hs Hin).
        -- destruct (inv_waiting _ Hinv m Hm_b Hm_pq) as (k & Hkd & Hkin & Hko).
           exfalso. apply Hko. by apply Hm_ready.
  - assert (¬ ready items g (output st) n) as Hnready.
    { intros Hr. by apply Hblockers, blockers_empty. }
    case_decide as Hnb.
    + exfalso. apply Hnready. apply (inv_repushed _ Hinv); [|done]. rewrite Hpq. simpl. left.
    + injection Hstep as <- <-. split; [|split].
      * by eapply step_block.
      * unfold potential. simpl. rewrite size_union by set_solver.
        rewrite size_singleton. lia.
      * done.
Qed.

Lemma potential_bound st : Inv st → potential st ≤ 2 * length items.
Proof.
  intros Hinv. unfold potential.
  assert (size (output st ∪ blocked st) ≤ length items) as Hsz.
  { rewrite <- (size_list_to_set (C:=gset T) items) by done.
    apply subseteq_size. intros n [Hn|Hn]%elem_of_union; apply elem_of_list_to_set.
    - by apply (inv_out _ Hinv).
    - by apply (inv_blocked _ Hinv). }
  rewrite size_union in Hsz; [lia|].
  intros n Hn Hb. by apply (inv_blocked _ Hinv) in Hb as [_ ?].
Qed.

Lemma ordering_sorted : StronglySorted (key_le ord) items.
Proof.
  assert (∀ l1 l2, items = l1 ++ l2 → StronglySorted (key_le ord) l2) as Hgen.
  { intros l1 l2. revert l1. induction l2 as [|x l2 IH]; intros l1 Heq; [constructor|].
    constructor.
    - apply (IH (l1 ++ [x])). by rewrite <- app_assoc.
    - apply Forall_forall. intros y Hy. apply list_elem_of_lookup in Hy as [j Hj].
      unfold key_le.
      rewrite (sort_key_index (length l1) x), (sort_key_index (length l1 + S j) y); [lia| |].
      + rewrite Heq. rewrite lookup_app_r by lia.
        replace (length l1 + S j - length l1) with (S j) by lia. done.
      + rewrite Heq. rewrite lookup_app_r by lia.
        replace (length l1 - length l1) with 0 by lia. done. }
  by apply (Hgen []).
Qed.

Lemma sorted_unresolved (B : gset T) :
  (∀ n, n ∈ B → n ∈ items) →
  merge_sort (key_le ord) (elements B) = filter (λ n, n ∈ B) items.
Proof.
  intros HB.
  assert (Transitive (key_le ord)) by (intros x y z; unfold key_le; lia).
  assert (Total (key_le ord)) by (intros x y; unfold key_le; lia).
  apply (StronglySorted_unique_strong (key_le ord)).
  - intros x y Hx Hy Hxy Hyx. unfold key_le in *.
    rewrite merge_sort_Permutation in Hx. apply elem_of_elements, HB in Hx.
    apply list_elem_of_filter in Hy as [_ Hy].
    apply list_elem_of_lookup in Hx as [i Hi]. apply list_elem_of_lookup in Hy as [j Hj].
    rewrite (sort_key_index _ _ Hi), (sort_key_index _ _ Hj) in *.
    assert (i = j) as -> by lia. congruence.
  - by apply StronglySorted_merge_sort.
  - apply StronglySorted_filter_list, ordering_sorted.
  - rewrite merge_sort_Permutation. apply NoDup_Permutation.
    + apply NoDup_elements.
    + by apply NoDup_filter.
    + intros n. rewrite elem_of_elements, list_elem_of_filter. naive_solver.
Qed.

(** What leaving the loop establishes. *)
Lemma step_end st y o :
  Inv st → step ord g st = End y o →
  y = None ∧
  ((o = Exhausted ∧ ∀ n, n ∈ items → n ∈ output st)
   ∨ (o = CycleError (filter (λ n, n ∉ output st) items)
      ∧ (∃ n, n ∈ items ∧ n ∉ output st)
      ∧ ∀ b, b ∈ items → b ∉ output st → ∃ k, k ∈ deps g b ∧ k ∈ items ∧ k ∉ output st)).
Proof.
  intros Hinv Hstep. unfold step in Hstep.
  destruct (pqueue st) as [|[i0 n] pq] eqn:Hpq.
  - assert (∀ b, b ∈ items → b ∉ output st →
            b ∈ blocked st ∧ ∃ k, k ∈ deps g b ∧ k ∈ items ∧ k ∉ output st) as Hstuck.
    { intros b Hb Hbo. destruct (inv_cover _ Hinv b Hb) as [?|[Hin|Hbb]]; [done| |].
      - rewrite Hpq in Hin. by apply elem_of_nil in Hin.
      - split; [done|]. apply (inv_waiting _ Hinv); [done|]. rewrite Hpq. apply not_elem_of_nil. }
    case_decide as Hbo.
    + injection Hstep as <- <-. split; [done|]. left. split; [done|].
      intros b Hb. destruct (decide (b ∈ output st)) as [|Hno]; [done|]. exfalso.
      destruct (Hstuck b Hb Hno) as (Hbb & k & Hkd & Hkin & Hko).
      assert (holds (blocked_on st) k b) as (V & HV & _) by (by apply (inv_holds _ Hinv)).
      by rewrite Hbo, lookup_empty in HV.
    + injection Hstep as <- <-. split; [done|]. right.
      assert (∀ b, b ∈ blocked st ↔ b ∈ items ∧ b ∉ output st) as Hblocked.
      { intros b. split; [by apply (inv_blocked _ Hinv)|]. intros [? ?]. by apply Hstuck. }
      assert (∃ n, n ∈ items ∧ n ∉ output st) as Hex.
      { apply map_choose in Hbo as (k & V & HkV).
        pose proof (inv_nonempty _ Hinv _ _ HkV) as HV. apply set_choose_L in HV as [b Hb].
        exists b. apply Hblocked. apply (inv_holds _ Hinv k b). by exists V. }
      split_and!; [|done|intros b ? ?; by apply Hstuck].
      unfold raise_cycle_error.
      assert (filter (λ item, ord !! item = None) (map_to_list (blocked_on st)).*1 = []) as ->.
      { apply filter_none. intros k Hk. apply list_elem_of_fmap in Hk as ([k' V] & -> & HkV).
        apply elem_of_map_to_list in HkV. simpl.
        pose proof (inv_nonempty _ Hinv _ _ HkV) as HV. apply set_choose_L in HV as [b Hb].
        assert (holds (blocked_on st) k' b) as Hh by (by exists V).
        apply (inv_holds _ Hinv) in Hh as (_ & _ & Hin & _).
        destruct (ord_is_Some _ Hin) as [i Hi]. by rewrite Hi. }
      cbn [head]. rewrite fmap_nil.
      assert (list_to_set [] ∪ ⋃ values (blocked_on st) = blocked st) as ->.
      { apply set_eq. intros b. rewrite elem_of_union, elem_of_values. split.
        - intros [Hb|[k Hk]]; [set_solver|]. by apply (inv_holds _ Hinv) in Hk as [? _].
        - intros Hb. right. pose proof (proj1 (Hblocked b) Hb) as [Hbi Hbo'].
          destruct (Hstuck b Hbi Hbo') as (_ & k & ? & ? & ?). exists k.
          by apply (inv_holds _ Hinv). }
      case_decide as Hempty.
      { destruct Hex as (b & Hb). apply Hblocked in Hb. set_solver. }
      f_equal. rewrite sorted_unresolved by (intros b Hb; by apply Hblocked).
      apply filter_ext_elem. intros b Hb. rewrite Hblocked. tauto.
  - case_decide as Hseen.
    { exfalso. rewrite (inv_seen _ Hinv) in Hseen. simpl in Hseen. lia. }
    case_decide as Hblockers.
    + destruct (push_unblocked_fold ord (delete n (blocked_on st))
                (elements (default ∅ (blocked_on st !! n))) pq) as (pq' & Hf & _).
      { intros b Hb. apply elem_of_elements, holds_popped in Hb.
        apply (inv_holds _ Hinv) in Hb as (Hb & _).
        apply (inv_blocked _ Hinv) in Hb as [Hb _]. by apply ord_is_Some. }
      by rewrite Hf in Hstep.
    + by case_decide.
Qed.

(** The loop as a relation between sets of emitted items: one item at a
    time, each the least ready one. *)
Inductive emits : gset T → list T → gset T → Prop :=
  | emits_nil E : emits E [] E
  | emits_cons E n ys E' :
      least_ready E n → emits (E ∪ {[n]}) ys E' → emits E (n :: ys) E'.

Lemma loop_run fuel st :
  Inv st → 2 * length items + 1 ≤ fuel + potential st →
  ∃ ys o st', loop fuel ord g st = Some (ys, o)
    ∧ emits (output st) ys (output st') ∧ Inv st' ∧ step ord g st' = End None o.
Proof.
  revert st. induction fuel as [|fuel IH]; intros st Hinv Hfuel.
  - pose proof (potential_bound _ Hinv). lia.
  - simpl. destruct (step ord g st) as [y st'|y o] eqn:Hstep.
    + destruct (step_go _ _ _ Hinv Hstep) as (Hinv' & Hpot & Hy).
      destruct (IH st' Hinv') as (ys & o & st'' & Hloop & Hemits & Hinv'' & Hend); [lia|].
      rewrite Hloop. simpl. exists (yield y ys), o, st''. split_and!; [done| |done|done].
      destruct y as [n|]; simpl.
      * destruct Hy as [Ho Hl]. rewrite Ho in Hemits. by constructor.
      * by rewrite <- Hy.
    + destruct (step_end _ _ _ Hinv Hstep) as [-> _].
      exists [], o, st. split_and!; [done|constructor|done|done].
Qed.

(** ** The dependency graph restricted to the input *)

(** [n] depends on [d], and both are input items. *)
Definition edge (n d : T) : Prop := n ∈ items ∧ d ∈ items ∧ d ∈ deps g n.

Definition acyclic : Prop := ∀ n, ¬ tc edge n n.

(** [n] lies on a dependency cycle or depends, through any number of
    steps, on an item that does. *)
Definition depends_on_cycle (n : T) : Prop := ∃ c, rtc edge n c ∧ tc edge c c.

(** A set whose every member has a dependency inside it leads each member
    to a cycle: walk along the dependencies until an item repeats. *)
Lemma stuck_walk (S V : gset T) (b : T) (fuel : nat) :
  (∀ x, x ∈ S → ∃ k, k ∈ S ∧ edge x k) →
  size (S ∖ V) ≤ fuel → b ∈ S → b ∉ V → (∀ v, v ∈ V → tc edge v b) →
  depends_on_cycle b.
Proof.
  intros Hclosed. revert V b. induction fuel as [|fuel IH]; intros V b Hsz Hb HbV Hreach.
  - exfalso. assert (size (S ∖ V) = 0) as Hz by lia.
    apply size_empty_inv in Hz. set_solver.
  - destruct (Hclosed b Hb) as (k & Hk & Hbk).
    destruct (decide (k = b)) as [->|Hkb].
    { exists b. split; [done|by apply tc_once]. }
    destruct (decide (k ∈ V)) as [HkV|HkV].
    { exists b. split; [done|]. eapply tc_l; [exact Hbk|by apply Hreach]. }
    destruct (IH (V ∪ {[b]}) k) as (c & Hkc & Hc).
    + assert (size (S ∖ V) = size (S ∖ (V ∪ {[b]})) + 1) as Heq; [|lia].
      rewrite <- (size_singleton (C:=gset T) b), <- size_union by set_solver.
      f_equal. apply set_eq. intros x. rewrite elem_of_union, !elem_of_difference,
        elem_of_union, elem_of_singleton.
      destruct (decide (x = b)) as [->|]; naive_solver.
    + done.
    + set_solver.
    + intros v [Hv| ->%elem_of_singleton]%elem_of_union.
      * eapply tc_r; [by apply Hreach|done].
      * by apply tc_once.
    + exists c. split; [|done]. by eapply rtc_l.
Qed.

Lemma stuck_depends_on_cycle (S : gset T) (b : T) :
  (∀ x, x ∈ S → ∃ k, k ∈ S ∧ edge x k) → b ∈ S → depends_on_cycle b.
Proof.
  intros Hclosed Hb. apply (stuck_walk S ∅ b (size S)); [done| |done|set_solver|set_solver].
  apply subseteq_size. set_solver.
Qed.

(** Sets of emitted items are closed under dependencies and hold no cycle. *)
Definition sound (E : gset T) : Prop :=
  (∀ n d, n ∈ E → edge n d → d ∈ E) ∧ (∀ n, n ∈ E → ¬ tc edge n n).

Lemma sound_rtc (E : gset T) n m : sound E → n ∈ E → rtc edge n m → m ∈ E.
Proof. intros [Hc _] Hn Hnm. induction Hnm as [|x y z Hxy _ IH]; [done|]. eauto. Qed.

Lemma sound_emit (E : gset T) n : sound E → least_ready E n → sound (E ∪ {[n]}).
Proof.
  intros HE (Hin & Hno & Hready & _). pose proof HE as [Hc Ha].
  assert (∀ d, edge n d → d ∈ E) as Hn_deps.
  { intros d (_ & Hd & Hdep). by apply Hready. }
  split.
  - intros x d [Hx| ->%elem_of_singleton]%elem_of_union Hxd; [set_solver|].
    apply elem_of_union. left. by apply Hn_deps.
  - intros x [Hx| ->%elem_of_singleton]%elem_of_union; [by apply Ha|].
    intros Hcyc. apply Hno. inversion Hcyc as [? ? Hnn|? y ? Hny Hyn]; subst.
    + by apply Hn_deps.
    + apply (sound_rtc E y n HE); [by apply Hn_deps|by apply tc_rtc].
Qed.

Lemma emits_sound (E E' : gset T) ys : emits E ys E' → sound E → sound E'.
Proof. induction 1 as [|E n ys E' Hn _ IH]; [done|]. intros HE. by apply IH, sound_emit. Qed.

Lemma sound_empty : sound ∅.
Proof. split; set_solver. Qed.

(** [emits], read prefix by prefix. *)
Lemma emits_prefix (E E' : gset T) ys :
  emits E ys E' →
  E' = E ∪ list_to_set ys ∧
  ∀ pre n post, ys = pre ++ n :: post → least_ready (E ∪ list_to_set pre) n.
Proof.
  induction 1 as [|E n ys E' Hn _ [IH1 IH2]].
  - split; [set_solver|]. intros [|??] ???; discriminate.
  - split; [set_solver|]. intros [|x pre] m post Heq; simplify_eq/=.
    + by rewrite (right_id_L ∅ (∪)).
    + rewrite (assoc_L (∪)). by eapply IH2.
Qed.

(** The order the spec describes: every item is, when it is emitted, the
    ready item of least index among those not emitted before it. *)
Definition kahn_order (ys : list T) : Prop :=
  ∀ pre n post, ys = pre ++ n :: post → least_ready (list_to_set pre) n.

Lemma least_ready_unique (E : gset T) n m : least_ready E n → least_ready E m → n = m.
Proof.
  intros (Hn & Hno & Hnr & Hnmin) (Hm & Hmo & Hmr & Hmmin).
  apply list_elem_of_lookup in Hn as [i Hi]. apply list_elem_of_lookup in Hm as [j Hj].
  pose proof (Hnmin m i j Hi Hj Hmo Hmr). pose proof (Hmmin n j i Hj Hi Hno Hnr).
  assert (i = j) as -> by lia. congruence.
Qed.

Lemma kahn_order_unique_from (pre ys zs : list T) :
  kahn_order (pre ++ ys) → kahn_order (pre ++ zs) → length ys = length zs → ys = zs.
Proof.
  revert pre zs. induction ys as [|a ys IH]; intros pre [|b zs] Hys Hzs Hlen;
    simplify_eq/=; [done|].
  assert (a = b) as ->.
  { eapply least_ready_unique; [by eapply Hys|by eapply Hzs]. }
  f_equal. apply (IH (pre ++ [b])); [by rewrite <- app_assoc..|done].
Qed.

Lemma kahn_order_NoDup ys : kahn_order ys → NoDup ys.
Proof.
  intros Hk. induction ys as [|a ys IH] using rev_ind; [constructor|].
  apply NoDup_app. split_and!.
  - apply IH. intros pre n post ->. apply (Hk pre n (post ++ [a])). by rewrite <- app_assoc.
  - intros x Hx [->|[]%elem_of_nil]%elem_of_cons.
    destruct (Hk ys a []) as (_ & Hno & _); [done|]. set_solver.
  - apply NoDup_singleton.
Qed.

(** The run of the sorter from its initial state. *)
Lemma topological_sort_run :
  ∃ ys o st, topological_sort items g = Some (ys, o)
    ∧ kahn_order ys ∧ output st = list_to_set ys ∧ sound (output st) ∧ Inv st
    ∧ step ord g st = End None o.
Proof.
  unfold topological_sort.
  destruct (loop_run (2 * length items + 1) _ init_inv) as (ys & o & st & Hloop & Hem & Hinv & Hend).
  { unfold potential. simpl. lia. }
  exists ys, o, st. simpl in Hem. apply emits_sound in Hem as Hsound; [|apply sound_empty].
  apply emits_prefix in Hem as [Hout Hpre].
  split_and!; [done| |set_solver|done|done|done].
  intros pre n post Heq. specialize (Hpre pre n post Heq).
  by rewrite (left_id_L ∅ (∪)) in Hpre.
Qed.
End run.

(** A graph whose dependencies all go down some rank has no cycle. *)
Lemma acyclic_by_rank items g (rank : T → nat) :
  (∀ n d, edge items g n d → rank d < rank n) → acyclic items g.
Proof.
  intros Hrank n Hn.
  assert (∀ x y, tc (edge items g) x y → rank y < rank x) as Htc.
  { induction 1 as [x y Hxy|x y z Hxy _ IH]; [by apply Hrank|].
    apply Hrank in Hxy. lia. }
  apply Htc in Hn. lia.
Qed.

Lemma run_exhausted_or_cycle items g :
  NoDup items →
  ∃ ys, kahn_order items g ys ∧ NoDup ys ∧ (∀ n, n ∈ ys → n ∈ items) ∧
    ((topological_sort items g = Some (ys, Exhausted)
      ∧ acyclic items g ∧ ∀ n, n ∈ items → n ∈ ys)
     ∨ (topological_sort items g = Some (ys, CycleError (filter (λ n, n ∉ ys) items))
        ∧ (∃ c, tc (edge items g) c c)
        ∧ ∀ n, n ∈ items → n ∉ ys ↔ depends_on_cycle items g n)).
Proof.
  intros Hnd.
  destruct (topological_sort_run items g Hnd) as (ys & o & st & Hts & Hk & Hout & Hsound & Hinv & Hend).
  exists ys.
  assert (∀ n, n ∈ output st ↔ n ∈ ys) as Hout' by (intros n; rewrite Hout; set_solver).
  assert (∀ n, n ∈ ys → ¬ depends_on_cycle items g n) as Hys_ok.
  { intros n Hn (c & Hnc & Hc). apply Hout' in Hn.
    destruct Hsound as [Hcl Hac]. apply (Hac c); [|done].
    by apply (sound_rtc items g (output st) n c). }
  split_and!; [done|by eapply kahn_order_NoDup| |].
  { intros n Hn. apply Hout' in Hn. by apply (inv_out _ _ _ Hinv). }
  destruct (step_end items g Hnd st None o Hinv Hend) as [_ [[-> Hall]|(-> & Hex & Hstuck)]].
  - left. split_and!; [done| |intros n Hn; by apply Hout', Hall].
    intros c Hc. assert (c ∈ items) as Hci.
    { inversion Hc as [?? [? _]|??? [? _] _]; by subst. }
    apply (Hys_ok c); [by apply Hout', Hall|]. by exists c.
  - right.
    assert (∀ n, n ∈ items → n ∉ ys → depends_on_cycle items g n) as Hdep.
    { intros n Hn Hno.
      eapply stuck_depends_on_cycle with (S := list_to_set items ∖ output st); [done| |].
      - intros x [Hx Hxo]%elem_of_difference. apply elem_of_list_to_set in Hx.
        destruct (Hstuck x Hx Hxo) as (k & Hkd & Hki & Hko). exists k.
        split; [set_solver|]. done.
      - apply elem_of_difference. rewrite elem_of_list_to_set, Hout'. done. }
    split_and!.
    + rewrite Hts. do 3 f_equal. apply filter_ext_elem. intros n _. by rewrite Hout'.
    + destruct Hex as (n & Hn & Hno). rewrite Hout' in Hno.
      destruct (Hdep n Hn Hno) as (c & _ & Hc). by exists c.
    + intros n Hn. split; [by apply Hdep|]. intros Hd Hin. by apply (Hys_ok n).
Qed.

(** C1: for distinct items and an acyclic dependency graph the sorter
    yields the items in a valid topological order (all in-set dependencies
    of an item are yielded before it), each time yielding the item of
    least input index among those whose in-set dependencies were all
    yielded; and this is the only ordering of the items with that
    property. *)
Theorem topological_sort_order items g :
  NoDup items → acyclic items g →
  ∃ ys, topological_sort items g = Some (ys, Exhausted) ∧
    (∀ pre n post, ys = pre ++ n :: post →
       (∀ d, d ∈ deps g n → d ∈ items → d ∈ pre) ∧
       (∀ m i j, items !! i = Some n → items !! j = Some m → m ∉ pre →
          (∀ d, d ∈ deps g m → d ∈ items → d ∈ pre) → i ≤ j)) ∧
    (∀ zs, zs ≡ₚ items → kahn_order items g zs → zs = ys).
Proof.
  intros Hnd Hacyc.
  destruct (run_exhausted_or_cycle items g Hnd)
    as (ys & Hk & Hnodup & Hsub & [(Hts & _ & Hall)|(_ & [c Hc] & _)]);
    [|by destruct (Hacyc c)].
  exists ys. split_and!; [done| |].
  - intros pre n post Heq. destruct (Hk pre n post Heq) as (_ & _ & Hr & Hmin). split.
    + intros d Hd Hin. specialize (Hr d Hd Hin). set_solver.
    + intros m i j Hi Hj Hm Hmr. apply (Hmin m i j Hi Hj); [set_solver|].
      intros d Hd Hin. specialize (Hmr d Hd Hin). set_solver.
  - intros zs Hzs Hkz. symmetry.
    apply (kahn_order_unique_from items g [] ys zs); [done..|].
    rewrite Hzs. apply Permutation_length, NoDup_Permutation; [done..|]. naive_solver.
Qed.

(** C9: for distinct items and an acyclic dependency graph the sorter
    yields every input item exactly once. *)
Theorem topological_sort_permutation items g :
  NoDup items → acyclic items g →
  ∃ ys, topological_sort items g = Some (ys, Exhausted) ∧ ys ≡ₚ items.
Proof.
  intros Hnd Hacyc.
  destruct (run_exhausted_or_cycle items g Hnd)
    as (ys & Hk & Hnodup & Hsub & [(Hts & _ & Hall)|(_ & [c Hc] & _)]);
    [|by destruct (Hacyc c)].
  exists ys. split; [done|]. apply NoDup_Permutation; [done..|]. naive_solver.
Qed.

(** C3, as the code has it: for distinct items whose graph holds a
    dependency cycle, the sorter raises [CycleError] after yielding the
    items that do not depend on a cycle; the error lists, in input order,
    exactly the items not yielded, which are the items on a cycle together
    with the items that depend, directly or through other items, on one. *)
Theorem topological_sort_cycle_report items g :
  NoDup items → (∃ c, tc (edge items g) c c) →
  ∃ ys, topological_sort items g = Some (ys, CycleError (filter (λ n, n ∉ ys) items)) ∧
    ∀ n, n ∈ filter (λ n, n ∉ ys) items ↔ n ∈ items ∧ depends_on_cycle items g n.
Proof.
  intros Hnd [c Hc].
  destruct (run_exhausted_or_cycle items g Hnd)
    as (ys & Hk & Hnodup & Hsub & [(_ & Hacyc & _)|(Hts & _ & Hdep)]);
    [by destruct (Hacyc c)|].
  exists ys. split; [done|]. intros n. rewrite list_elem_of_filter. split.
  - intros [Hno Hin]. split; [done|]. by apply Hdep.
  - intros [Hin Hd]. split; [|done]. by apply Hdep.
Qed.


(** ** Further properties of the sorter *)

(** The sorter fails exactly on cyclic graphs.  For distinct items it ends
    within its bound of iterations, normally if and only if the in-set
    dependency graph has no cycle, and otherwise with [CycleError]: it
    never raises [ValueError], [KeyError] or [AssertionError]. *)
Theorem topological_sort_ends items g :
  NoDup items →
  ∃ ys o, topological_sort items g = Some (ys, o)
    ∧ (o = Exhausted ↔ acyclic items g)
    ∧ (o = Exhausted ∨ o = CycleError (filter (λ n, n ∉ ys) items)).
Proof.
  intros Hnd.
  destruct (run_exhausted_or_cycle items g Hnd)
    as (ys & _ & _ & _ & [(Hts & Hac & _)|(Hts & [c Hc] & _)]).
  - exists ys, Exhausted. split_and!; [done|done|by left].
  - exists ys, (CycleError (filter (λ n, n ∉ ys) items)).
    split_and!; [done| |by right].
    split; [done|]. intros Hac. by destruct (Hac c).
Qed.

Lemma kahn_order_sorted items g :
  NoDup items →
  (∀ i j n d, items !! i = Some n → items !! j = Some d → d ∈ deps g n → j < i) →
  kahn_order items g items.
Proof.
  intros Hnd Hsorted pre n post Heq.
  assert (items !! length pre = Some n) as Hn.
  { rewrite Heq. by rewrite list_lookup_middle. }
  assert (∀ j m, items !! j = Some m → m ∈ pre ↔ j < length pre) as Hpre.
  { intros j m Hj. split.
    - intros [k Hk]%list_elem_of_lookup.
      assert (items !! k = Some m) as Hk'.
      { rewrite Heq. rewrite lookup_app_l; [done|]. by eapply lookup_lt_Some. }
      rewrite <- (NoDup_lookup _ _ _ _ Hnd Hk' Hj). by eapply lookup_lt_Some.
    - intros Hlt. rewrite Heq, lookup_app_l in Hj by done.
      by eapply list_elem_of_lookup_2. }
  split_and!.
  - by eapply list_elem_of_lookup_2.
  - rewrite elem_of_list_to_set, (Hpre _ _ Hn). lia.
  - intros d Hd [j Hj]%list_elem_of_lookup. rewrite elem_of_list_to_set.
    apply (Hpre j d Hj). by eapply Hsorted.
  - intros m i j Hi Hj Hm _. rewrite elem_of_list_to_set, (Hpre _ _ Hj) in Hm.
    rewrite (NoDup_lookup _ _ _ _ Hnd Hi Hn). lia.
Qed.

(** A list that is already in dependency order is returned as it is:
    when every in-set dependency of an item stands before the item, the
    sorter yields the items in their input order. *)
Theorem topological_sort_of_sorted items g :
  NoDup items →
  (∀ i j n d, items !! i = Some n → items !! j = Some d → d ∈ deps g n → j < i) →
  topological_sort items g = Some (items, Exhausted).
Proof.
  intros Hnd Hsorted.
  assert (acyclic items g) as Hac.
  { apply (acyclic_by_rank items g (sort_key (make_ordering (enumerate items)))).
    intros n d ([i Hi]%list_elem_of_lookup & [j Hj]%list_elem_of_lookup & Hd).
    rewrite (sort_key_index items Hnd i n Hi), (sort_key_index items Hnd j d Hj).
    by eapply Hsorted. }
  destruct (run_exhausted_or_cycle items g Hnd)
    as (ys & Hk & Hnodup & Hsub & [(Hts & _ & Hall)|(_ & [c Hc] & _)]);
    [|by destruct (Hac c)].
  rewrite Hts. do 2 f_equal.
  apply (kahn_order_unique_from items g [] ys items); [done| |].
  - by apply kahn_order_sorted.
  - apply Permutation_length, NoDup_Permutation; [done..|]. naive_solver.
Qed.

Lemma tc_subrel {A} (R1 R2 : relation A) (x y : A) :
  (∀ x y, R1 x y → R2 x y) → tc R1 x y → tc R2 x y.
Proof.
  intros Hsub. induction 1 as [x y Hxy|x y z Hxy _ IH].
  - by apply tc_once, Hsub.
  - eapply tc_l; [by apply Hsub|done].
Qed.

Section in_set_edges.
Variables (items : list T) (g g' : gmap T (list T)).
Hypothesis Hnd : NoDup items.
Hypothesis Hsame : ∀ n d, n ∈ items → d ∈ items → d ∈ deps g n ↔ d ∈ deps g' n.

Lemma edge_in_set n d : edge items g n d → edge items g' n d.
Proof. intros (Hn & Hd & Hdep). split_and!; [done..|]. by apply Hsame. Qed.

Lemma ready_in_set (E : gset T) n : n ∈ items → ready items g E n → ready items g' E n.
Proof. intros Hn Hr d Hd Hin. apply Hr; [|done]. by apply Hsame. Qed.

Lemma least_ready_in_set (E : gset T) n : least_ready items g E n → least_ready items g' E n.
Proof.
  intros (Hn & HnE & Hr & Hmin). split_and!; [done|done|by apply ready_in_set|].
  intros m i j Hi Hj Hm Hrm. apply (Hmin m i j Hi Hj Hm).
  intros d Hd Hin. apply Hrm; [|done]. apply Hsame; [by eapply list_elem_of_lookup_2|done..].
Qed.

Lemma kahn_order_in_set ys : kahn_order items g ys → kahn_order items g' ys.
Proof. intros Hk pre n post Heq. by apply least_ready_in_set, (Hk pre n post). Qed.

Lemma depends_on_cycle_in_set n : depends_on_cycle items g n → depends_on_cycle items g' n.
Proof.
  intros (c & Hnc & Hc). exists c. split.
  - eapply rtc_subrel; [|done]. apply edge_in_set.
  - eapply tc_subrel; [|done]. apply edge_in_set.
Qed.
End in_set_edges.

(** Only the dependencies among the items matter.  Two graphs that give
    every item the same dependencies within the list give the same run:
    dependencies on nodes outside the list, the order and the repetitions
    in a dependency collection, and entries for other nodes are all
    ignored. *)
Theorem topological_sort_in_set_edges items g g' :
  NoDup items →
  (∀ n d, n ∈ items → d ∈ items → d ∈ deps g n ↔ d ∈ deps g' n) →
  topological_sort items g = topological_sort items g'.
Proof.
  intros Hnd Hsame.
  assert (∀ n d, n ∈ items → d ∈ items → d ∈ deps g' n ↔ d ∈ deps g n) as Hsame'.
  { intros n d Hn Hd. symmetry. by apply Hsame. }
  destruct (run_exhausted_or_cycle items g Hnd)
    as (ys & Hk & Hnodup & Hsub & Hrun).
  destruct (run_exhausted_or_cycle items g' Hnd)
    as (ys' & Hk' & Hnodup' & Hsub' & Hrun').
  apply (kahn_order_in_set items g g' Hsame) in Hk.
  assert (length ys = length ys' → ys = ys') as Heq.
  { apply (kahn_order_unique_from items g' [] ys ys'); done. }
  destruct Hrun as [(Hts & Hac & Hall)|(Hts & [c Hc] & Hdep)],
           Hrun' as [(Hts' & Hac' & Hall')|(Hts' & [c' Hc'] & Hdep')].
  - rewrite Hts, Hts'. rewrite Heq; [done|].
    apply Permutation_length, NoDup_Permutation; [done..|]. naive_solver.
  - destruct (Hac c'). eapply tc_subrel; [|done]. by apply edge_in_set.
  - destruct (Hac' c). eapply tc_subrel; [|done]. by apply edge_in_set.
  - rewrite Hts, Hts'. rewrite Heq; [done|].
    apply Permutation_length, NoDup_Permutation; [done..|].
    intros n. split.
    + intros Hn. destruct (decide (n ∈ ys')) as [|Hno]; [done|].
      pose proof (Hsub n Hn) as Hin. apply (Hdep' n Hin) in Hno.
      apply (depends_on_cycle_in_set items g' g Hsame') in Hno.
      by apply (Hdep n Hin) in Hno.
    + intros Hn. destruct (decide (n ∈ ys)) as [|Hno]; [done|].
      pose proof (Hsub' n Hn) as Hin. apply (Hdep n Hin) in Hno.
      apply (depends_on_cycle_in_set items g g' Hsame) in Hno.
      by apply (Hdep' n Hin) in Hno.
Qed.

End topologicalsort.

(** ** Concrete graphs *)

(** [0] depends on [3]; [1] and [2] depend on [0]. *)
Definition diamond_items : list nat := [0; 1; 2; 3].
Definition diamond_graph : gmap nat (list nat) :=
  list_to_map [(0, [3]); (1, [0]); (2, [0])].

(** [0] and [1] depend on each other; [2] depends on [0]. *)
Definition cycle_items : list nat := [0; 1; 2].
Definition cycle_graph : gmap nat (list nat) :=
  list_to_map [(0, [1]); (1, [0]); (2, [0])].

Example diamond_sorted :
  topological_sort diamond_items diamond_graph = Some ([3; 0; 1; 2], Exhausted).
Proof. vm_compute. reflexivity. Qed.

Lemma diamond_acyclic : acyclic diamond_items diamond_graph.
Proof.
  apply (acyclic_by_rank _ _ (λ n, match n with 3 => 0 | 0 => 1 | _ => 2 end)).
  intros n d (Hn & _ & Hd). unfold diamond_items in Hn.
  repeat (apply elem_of_cons in Hn as [->|Hn]); [..|by apply elem_of_nil in Hn];
    vm_compute in Hd;
    repeat (apply elem_of_cons in Hd as [->|Hd]); try (by apply elem_of_nil in Hd); lia.
Qed.

Lemma cycle_graph_cycle : tc (edge cycle_items cycle_graph) 0 0.
Proof.
  apply tc_l with 1; [|apply tc_once]; (split_and!; [compute_done..|]); vm_compute;
    constructor.
Qed.

Lemma topological_sort_order_witness :
  NoDup diamond_items ∧ acyclic diamond_items diamond_graph ∧
  ∃ ys, topological_sort diamond_items diamond_graph = Some (ys, Exhausted) ∧
    (∀ pre n post, ys = pre ++ n :: post →
       (∀ d, d ∈ deps diamond_graph n → d ∈ diamond_items → d ∈ pre) ∧
       (∀ m i j, diamond_items !! i = Some n → diamond_items !! j = Some m → m ∉ pre →
          (∀ d, d ∈ deps diamond_graph m → d ∈ diamond_items → d ∈ pre) → i ≤ j)) ∧
    (∀ zs, zs ≡ₚ diamond_items → kahn_order diamond_items diamond_graph zs → zs = ys).
Proof.
  split; [compute_done|]. split; [exact diamond_acyclic|].
  apply topological_sort_order; [compute_done|exact diamond_acyclic].
Defined.

Lemma topological_sort_permutation_witness :
  NoDup diamond_items ∧ acyclic diamond_items diamond_graph ∧
  ∃ ys, topological_sort diamond_items diamond_graph = Some (ys, Exhausted)
    ∧ ys ≡ₚ diamond_items.
Proof.
  split; [compute_done|]. split; [exact diamond_acyclic|].
  apply topological_sort_permutation; [compute_done|exact diamond_acyclic].
Defined.

Lemma topological_sort_cycle_report_witness :
  NoDup cycle_items ∧ (∃ c, tc (edge cycle_items cycle_graph) c c) ∧
  ∃ ys, topological_sort cycle_items cycle_graph
        = Some (ys, CycleError (filter (λ n, n ∉ ys) cycle_items)) ∧
    ∀ n, n ∈ filter (λ n, n ∉ ys) cycle_items
         ↔ n ∈ cycle_items ∧ depends_on_cycle cycle_items cycle_graph n.
Proof.
  split; [compute_done|]. split; [exists 0; exact cycle_graph_cycle|].
  apply topological_sort_cycle_report; [compute_done|exists 0; exact cycle_graph_cycle].
Defined.

(** C3 as stated fails: the error lists item [2], which lies on no cycle
    and is only blocked behind the cycle of [0] and [1]. *)
Lemma cycle_error_reports_dependent :
  topological_sort cycle_items cycle_graph = Some ([], CycleError [0; 1; 2])
  ∧ ¬ tc (edge cycle_items cycle_graph) 2 2.
Proof.
  split; [vm_compute; reflexivity|].
  intros Hc.
  assert (∀ x y, tc (edge cycle_items cycle_graph) x y → y ≠ 2) as Hin; [|by eapply Hin].
  assert (∀ x y, edge cycle_items cycle_graph x y → y ≠ 2) as Hedge.
  { intros x y (Hx & _ & Hy) ->. unfold cycle_items in Hx.
    repeat (apply elem_of_cons in Hx as [->|Hx]); [..|by apply elem_of_nil in Hx];
      vm_compute in Hy;
      repeat (apply elem_of_cons in Hy as [Hy|Hy]); try (by apply elem_of_nil in Hy); lia. }
  induction 1; eauto.
Qed.


(** [diamond_graph] with dependencies on nodes outside the list, a
    repeated dependency and an entry for a node outside the list. *)
Definition diamond_graph_more : gmap nat (list nat) :=
  list_to_map [(0, [3; 7; 3]); (1, [0]); (2, [0; 9]); (5, [1])].

Lemma topological_sort_ends_witness :
  NoDup cycle_items ∧
  ∃ ys o, topological_sort cycle_items cycle_graph = Some (ys, o)
    ∧ (o = Exhausted ↔ acyclic cycle_items cycle_graph)
    ∧ (o = Exhausted ∨ o = CycleError (filter (λ n, n ∉ ys) cycle_items)).
Proof.
  split; [compute_done|]. apply topological_sort_ends. compute_done.
Defined.

Lemma topological_sort_of_sorted_witness :
  NoDup [3; 0; 1; 2] ∧
  topological_sort [3; 0; 1; 2] diamond_graph = Some ([3; 0; 1; 2], Exhausted).
Proof.
  split; [compute_done|]. apply topological_sort_of_sorted; [compute_done|].
  intros i j n d Hi Hj Hd.
  destruct i as [|[|[|[|?]]]]; simplify_eq/=; vm_compute in Hd;
    repeat (apply elem_of_cons in Hd as [->|Hd]); try (by apply elem_of_nil in Hd);
    destruct j as [|[|[|[|?]]]]; simplify_eq/=; lia.
Defined.

Lemma topological_sort_in_set_edges_witness :
  NoDup diamond_items ∧
  topological_sort diamond_items diamond_graph
  = topological_sort diamond_items diamond_graph_more.
Proof.
  split; [compute_done|]. apply topological_sort_in_set_edges; [compute_done|].
  intros n d Hn Hd. unfold diamond_items in Hn, Hd.
  repeat (apply elem_of_cons in Hn as [->|Hn]); [..|by apply elem_of_nil in Hn];
    repeat (apply elem_of_cons in Hd as [->|Hd]); try (by apply elem_of_nil in Hd);
    compute_done.
Defined.

End topologicalsort.

(** * [utils.py]: the parameter-style translation *)
Module utils.
Section change_param_style.
(** The type of the bound values. *)
Context {V : Type}.

(** The alphabet.  A [str] is the list of its characters, [char] being
    the type of the characters (the code points).  [of_ascii] gives the
    ASCII characters among them; [is_word] is what [\w] matches in a
    pattern compiled from a [str], which is the table of the interpreter's
    [re] module and is not part of this package; [repr] is the text as
    it stands in an exception. *)
Context {char : Type} `{EqDecision char}.
Context (of_ascii : ascii → char) (is_word : char → bool) (repr : list char → string).

Definition colon : char := of_ascii ":"%char.
Definition backslash : char := of_ascii "\"%char.

(** [(?<![:\\])]: [prev] is the character before the position, if any. *)
Definition lookbehind (prev : option char) : bool :=
  match prev with
  | None => true
  | Some c => negb (bool_decide (c = colon)) && negb (bool_decide (c = backslash))
  end.

(** [(?=\W|$)] on the text that follows. *)
Definition lookahead (rest : list char) : bool :=
  match rest with
  | [] => true
  | c :: _ => negb (is_word c)
  end.

(** [k] is the beginning of [s]. *)
Fixpoint starts_with (k s : list char) : bool :=
  match k, s with
  | [], _ => true
  | a :: k, b :: s => bool_decide (a = b) && starts_with k s
  | _ :: _, [] => false
  end.

(** The alternation [(k1|k2|...)] followed by the lookahead: the first
    name, in the order of the mapping, that the text begins with and
    that is followed by a non-word character or the end. *)
Definition match_name (names : list (list char)) (rest : list char)
    : option (list char) :=
  List.find (λ k, starts_with k rest && lookahead (drop (length k) rest)) names.

(** The whole pattern at one position of the text: [s] is the text from
    the position on. *)
Definition match_here (names : list (list char)) (prev : option char) (s : list char)
    : option (list char) :=
  match s with
  | c :: rest =>
      if bool_decide (c = colon) && lookbehind prev then match_name names rest else None
  | [] => None
  end.

(** [pattern.finditer(sql)]: the matches from left to right, none
    overlapping another, each with its position and [match.group(1)].
    [skip] counts the characters still inside the last match. *)
Fixpoint finditer_from (names : list (list char)) (prev : option char) (skip pos : nat)
    (s : list char) : list (nat * list char) :=
  match s with
  | [] => []
  | c :: rest =>
      match skip with
      | S skip => finditer_from names (Some c) skip (S pos) rest
      | 0 =>
          match match_here names prev s with
          | Some k => (pos, k) :: finditer_from names (Some c) (length k) (S pos) rest
          | None => finditer_from names (Some c) 0 (S pos) rest
          end
      end
  end.

Definition finditer (names : list (list char)) (sql : list char)
    : list (nat * list char) :=
  finditer_from names None 0 0 sql.

(** [pattern.sub(lambda match: param_gen(match.group(1)), sql)];
    [count] is the number of calls of [param_gen] so far. *)
Fixpoint sub_from (names : list (list char)) (param_gen : nat → list char → list char)
    (prev : option char) (skip count : nat) (s : list char) : list char :=
  match s with
  | [] => []
  | c :: rest =>
      match skip with
      | S skip => sub_from names param_gen (Some c) skip count rest
      | 0 =>
          match match_here names prev s with
          | Some k =>
              param_gen count k
              ++ sub_from names param_gen (Some c) (length k) (S count) rest
          | None => c :: sub_from names param_gen (Some c) 0 count rest
          end
      end
  end.

Definition sub (names : list (list char)) (param_gen : nat → list char → list char)
    (sql : list char) : list char :=
  sub_from names param_gen None 0 0 sql.

(** A literal of the source. *)
Definition chars (s : string) : list char := of_ascii <$> String.list_ascii_of_string s.

(** The four [param_gen_*] functions, by the number of earlier calls:
    [_param_counter] starts at 1. *)
Definition param_gen_qmark (count : nat) (name : list char) : list char := chars "?".
Definition param_gen_numeric (count : nat) (name : list char) : list char :=
  chars ":" ++ chars (pretty (S count)).
Definition param_gen_format (count : nat) (name : list char) : list char := chars "%s".
Definition param_gen_pyformat (count : nat) (name : list char) : list char :=
  chars "%(" ++ name ++ chars ")s".

(** The second component of the result: a tuple or a dict. *)
Inductive parameters :=
  | Tuple (values : list V)
  | Dict (items : list (list char * V)).

(** [bind_parameters[name]] on a dict given as its items, in insertion
    order. *)
Fixpoint getitem (items : list (list char * V)) (name : list char) : result V :=
  match items with
  | [] => Raise (KeyError (repr name))
  | (k, v) :: items => if decide (k = name) then Ok v else getitem items name
  end.

(** [[bind_parameters[m.group(1)] for m in matches]] *)
Fixpoint getitems (items : list (list char * V)) (names : list (list char))
    : result (list V) :=
  match names with
  | [] => Ok []
  | n :: names =>
      match getitem items n with
      | inl e => Raise e
      | inr v =>
          match getitems items names with
          | inl e => Raise e
          | inr vs => Ok (v :: vs)
          end
      end
  end.

(** The dict [param_gen = {"qmark": ..., ...}] and its lookup. *)
Definition param_gens (target_style : string)
    : option (nat → list char → list char) :=
  if decide (target_style = "qmark") then Some param_gen_qmark
  else if decide (target_style = "numeric") then Some param_gen_numeric
  else if decide (target_style = "format") then Some param_gen_format
  else if decide (target_style = "pyformat") then Some param_gen_pyformat
  else None.

(** [change_param_style(target_style, sql, bind_parameters)];
    [bind_parameters] is [None] or a dict. *)
Definition change_param_style (target_style : string) (sql : list char)
    (bind_parameters : option (list (list char * V)))
    : result (list char * parameters) :=
  if decide (target_style = "named") then Ok (sql, Dict (default [] bind_parameters))
  else
    let positional := bool_decide (target_style ∈ ["qmark"; "numeric"; "format"]) in
    match bind_parameters with
    | None | Some [] => Ok (sql, if positional then Tuple [] else Dict [])
    | Some items =>
        match param_gens target_style with
        | None => Raise (KeyError target_style)
        | Some param_gen =>
            let names := items.*1 in
            let transformed_sql := sub names param_gen sql in
            if positional then
              match getitems items (finditer names sql).*2 with
              | inl e => Raise e
              | inr positional_params => Ok (transformed_sql, Tuple positional_params)
              end
            else Ok (transformed_sql, Dict items)
        end
    end.


(** ** What the scan finds *)

(** A token: the text is [pre ++ ":" ++ name ++ post] for a bound [name],
    [pre] does not end in a colon or a backslash, and [post] does not
    begin with a word character.  [i] is the position of the colon. *)
Definition token_at (names : list (list char)) (sql : list char) (i : nat)
    (name : list char) : Prop :=
  ∃ pre post,
    sql = pre ++ colon :: name ++ post ∧ length pre = i ∧ name ∈ names
    ∧ lookbehind (last pre) = true ∧ lookahead post = true.

(** Matches in increasing order, none beginning before [lo] or inside the
    match before it. *)
Fixpoint separated (lo : nat) (ms : list (nat * list char)) : Prop :=
  match ms with
  | [] => True
  | (i, k) :: ms => lo ≤ i ∧ separated (i + 1 + length k) ms
  end.

(** The text with each match replaced by its placeholder.  [offset] is
    the position of the first character of [s] in the whole text. *)
Fixpoint splice (param_gen : nat → list char → list char) (count offset : nat)
    (s : list char) (ms : list (nat * list char)) : list char :=
  match ms with
  | [] => s
  | (i, k) :: ms =>
      take (i - offset) s ++ param_gen count k
      ++ splice param_gen (S count) (i + 1 + length k) (drop (i - offset + 1 + length k) s) ms
  end.

Lemma starts_with_spec (k s : list char) :
  starts_with k s = true ↔ ∃ post, s = k ++ post.
Proof.
  revert s. induction k as [|a k IH]; intros s; simpl.
  - split; [by exists s|done].
  - destruct s as [|b s]; [split; [done|by intros [? ?]]|].
    rewrite andb_true_iff, bool_decide_eq_true, IH. split.
    + intros [-> [post ->]]. by exists post.
    + intros [post [= -> ->]]. split; [done|by exists post].
Qed.

Lemma match_name_Some (names : list (list char)) (rest k : list char) :
  match_name names rest = Some k →
  k ∈ names ∧ ∃ post, rest = k ++ post ∧ lookahead post = true.
Proof.
  unfold match_name. intros Hf. apply find_some in Hf as [Hin Hk].
  apply andb_true_iff in Hk as [Hs Hl]. apply starts_with_spec in Hs as [post ->].
  split; [by apply list_elem_of_In|]. exists post. split; [done|].
  by rewrite drop_app_length in Hl.
Qed.

Lemma match_name_None (names : list (list char)) (k post : list char) :
  k ∈ names → lookahead post = true → match_name names (k ++ post) ≠ None.
Proof.
  intros Hin Hl Hf. unfold match_name in Hf.
  apply list_elem_of_In in Hin. apply (find_none _ _ Hf k) in Hin as Hk.
  apply andb_false_iff in Hk as [Hk|Hk].
  - assert (starts_with k (k ++ post) = true) by (apply starts_with_spec; by exists post).
    congruence.
  - rewrite drop_app_length in Hk. congruence.
Qed.

Lemma separated_mono (lo lo' : nat) (ms : list (nat * list char)) :
  lo ≤ lo' → separated lo' ms → separated lo ms.
Proof. destruct ms as [|[i k] ms]; simpl; [done|]. intros ? [? ?]. split; [lia|done]. Qed.

Lemma finditer_from_separated (names : list (list char)) (prev : option char)
    (skip pos : nat) (s : list char) :
  separated (pos + skip) (finditer_from names prev skip pos s).
Proof.
  revert prev skip pos. induction s as [|c rest IH]; intros prev skip pos;
    cbn [finditer_from]; [done|].
  destruct skip as [|skip].
  - destruct (match_here names prev (c :: rest)) as [k|].
    + simpl. split; [lia|]. replace (pos + 1 + length k) with (S pos + length k) by lia.
      apply IH.
    + eapply separated_mono; [|apply IH]. lia.
  - replace (pos + S skip) with (S pos + skip) by lia. apply IH.
Qed.

Lemma snoc_app {A} (done : list A) (c : A) (rest : list A) :
  (done ++ [c]) ++ rest = done ++ c :: rest.
Proof. by rewrite <- app_assoc. Qed.

(** Every match is a token, with the first name of the mapping that
    fits. *)
Lemma finditer_from_sound (names : list (list char)) (s done : list char) (skip i : nat)
    (k : list char) :
  (i, k) ∈ finditer_from names (last done) skip (length done) s →
  length done + skip ≤ i ∧ token_at names (done ++ s) i k.
Proof.
  revert done skip. induction s as [|c rest IH]; intros done skip; simpl.
  { by intros ?%elem_of_nil. }
  assert (∀ sk, (i, k) ∈ finditer_from names (Some c) sk (S (length done)) rest →
                S (length done) + sk ≤ i ∧ token_at names (done ++ c :: rest) i k) as Hrest.
  { intros sk Hin. rewrite <- snoc_app. rewrite <- (last_snoc c done) in Hin.
    replace (S (length done)) with (length (done ++ [c])) in * by (rewrite length_app; simpl; lia).
    by apply IH. }
  destruct skip as [|skip].
  - destruct (bool_decide (c = colon) && lookbehind (last done)) eqn:Hc; simpl;
      [|intros Hin; apply Hrest in Hin as [? ?]; split; [lia|done]].
    destruct (match_name names rest) as [key|] eqn:Hm;
      [|intros Hin; apply Hrest in Hin as [? ?]; split; [lia|done]].
    intros [[= -> ->]|Hin]%elem_of_cons; [|apply Hrest in Hin as [? ?]; split; [lia|done]].
    split; [lia|]. apply andb_true_iff in Hc as [->%bool_decide_eq_true Hb].
    apply match_name_Some in Hm as (Hin & post & -> & Hl).
    by exists done, post.
  - intros Hin. apply Hrest in Hin as [? ?]. split; [lia|done].
Qed.

(** Every token is a match or begins inside the match before it. *)
Lemma finditer_from_complete (names : list (list char)) (s done : list char) (skip i : nat)
    (k : list char) :
  token_at names (done ++ s) i k → length done + skip ≤ i →
  (∃ k', (i, k') ∈ finditer_from names (last done) skip (length done) s)
  ∨ (∃ j k', (j, k') ∈ finditer_from names (last done) skip (length done) s
             ∧ j < i ≤ j + length k').
Proof.
  revert done skip. induction s as [|c rest IH]; intros done skip Htok Hle; simpl.
  { exfalso. destruct Htok as (pre & post & Heq & Hlen & _). rewrite app_nil_r in Heq.
    apply (f_equal length) in Heq. rewrite length_app in Heq. simpl in Heq. lia. }
  assert (∀ sk, S (length done) + sk ≤ i →
    (∃ k', (i, k') ∈ finditer_from names (Some c) sk (S (length done)) rest)
    ∨ (∃ j k', (j, k') ∈ finditer_from names (Some c) sk (S (length done)) rest
               ∧ j < i ≤ j + length k')) as Hrest.
  { intros sk Hsk. rewrite <- snoc_app in Htok.
    rewrite <- (last_snoc c done).
    replace (S (length done)) with (length (done ++ [c])) in * by (rewrite length_app; simpl; lia).
    by apply IH. }
  destruct skip as [|skip]; [|apply Hrest; lia].
  destruct (decide (i = length done)) as [->|Hne].
  - left. destruct Htok as (pre & post & Heq & Hlen & Hin & Hb & Hl).
    apply app_inj_1 in Heq as [<- [= -> ->]]; [|done].
    rewrite bool_decide_eq_true_2 by done. rewrite Hb. simpl.
    destruct (match_name names (k ++ post)) as [key|] eqn:Hm;
      [|by apply match_name_None in Hm].
    exists key. left.
  - destruct (match_here names (last done) (c :: rest)) as [key|] eqn:Hm;
      simpl in Hm; rewrite Hm.
    + destruct (decide (i ≤ length done + length key)) as [Hcov|Hcov].
      * right. exists (length done), key. split; [left|lia].
      * destruct (Hrest (length key)) as [[k' Hk']|(j & k' & Hk' & Hj)]; [lia| |].
        -- left. exists k'. by right.
        -- right. exists j, k'. split; [by right|done].
    + apply Hrest. lia.
Qed.

Lemma splice_cons (param_gen : nat → list char → list char) (count pos : nat)
    (c : char) (rest : list char) (ms : list (nat * list char)) :
  separated (S pos) ms →
  splice param_gen count pos (c :: rest) ms = c :: splice param_gen count (S pos) rest ms.
Proof.
  destruct ms as [|[i k] ms]; simpl; [done|]. intros [Hle _].
  replace (i - pos) with (S (i - S pos)) by lia. done.
Qed.

(** [sub] replaces the text of each match of [finditer] and keeps the
    rest. *)
Lemma sub_from_splice (names : list (list char)) (param_gen : nat → list char → list char)
    (s : list char) (prev : option char) (skip pos count : nat) :
  sub_from names param_gen prev skip count s
  = splice param_gen count (pos + skip) (drop skip s)
      (finditer_from names prev skip pos s).
Proof.
  revert prev skip pos count. induction s as [|c rest IH]; intros prev skip pos count; simpl.
  { by rewrite drop_nil. }
  destruct skip as [|skip]; simpl.
  - destruct (bool_decide (c = colon) && lookbehind prev); simpl.
    + destruct (match_name names rest) as [k|]; simpl.
      * rewrite (IH _ _ (S pos)). replace (pos - (pos + 0)) with 0 by lia. simpl.
        do 2 f_equal; lia.
      * rewrite (IH _ _ (S pos)). rewrite !Nat.add_0_r, ?drop_0.
        symmetry. apply splice_cons.
        rewrite <- (Nat.add_0_r (S pos)) at 1. apply finditer_from_separated.
    + rewrite (IH _ _ (S pos)). rewrite !Nat.add_0_r, ?drop_0.
      symmetry. apply splice_cons.
        rewrite <- (Nat.add_0_r (S pos)) at 1. apply finditer_from_separated.
  - rewrite (IH _ _ (S pos)). f_equal. lia.
Qed.

Lemma getitem_Ok (items : list (list char * V)) (name : list char) :
  name ∈ items.*1 → ∃ v, getitem items name = Ok v ∧ (name, v) ∈ items.
Proof.
  induction items as [|[k v] items IH]; simpl; [by intros ?%elem_of_nil|].
  case_decide as Hk.
  - intros _. exists v. subst. split; [done|left].
  - intros [?|Hin]%elem_of_cons; [done|]. destruct (IH Hin) as (v' & ? & ?).
    exists v'. split; [done|by right].
Qed.

Lemma getitems_Ok (items : list (list char * V)) (names : list (list char)) :
  Forall (λ n, n ∈ items.*1) names →
  ∃ vs, getitems items names = Ok vs ∧ Forall2 (λ n v, getitem items n = Ok v) names vs.
Proof.
  induction 1 as [|n names Hn _ (vs & Hvs & Hall)]; simpl.
  - by exists [].
  - destruct (getitem_Ok _ _ Hn) as (v & Hv & _). rewrite Hv, Hvs. simpl.
    exists (v :: vs). split; [done|by constructor].
Qed.

(** ** Names made of word characters *)

(** The colon is no word character. *)
Hypothesis is_word_colon : is_word colon = false.

Definition word_name (k : list char) : Prop := Forall (λ c, is_word c = true) k.

Lemma token_at_shorter_name (names : list (list char)) (sql : list char) (i : nat)
    (k k' : list char) :
  word_name k' → token_at names sql i k → token_at names sql i k' →
  ¬ length k < length k'.
Proof.
  intros Hw (pre & post & -> & Hi & _ & _ & Hl) (pre' & post' & Heq & Hi' & _) Hlt.
  apply app_inj_1 in Heq as [<- [= Heq]]; [|lia].
  assert (k' = k ++ drop (length k) k') as Hk'.
  { rewrite <- (take_drop (length k) k') at 1. f_equal.
    apply (f_equal (take (length k))) in Heq.
    rewrite take_app_length, take_app_le in Heq by lia. done. }
  destruct (drop (length k) k') as [|c r] eqn:Hd.
  { apply (f_equal length) in Hd. rewrite length_drop in Hd. simpl in Hd. lia. }
  rewrite Hk', <- app_assoc in Heq. apply app_inv_head in Heq as ->.
  simpl in Hl. rewrite Hk' in Hw. apply Forall_app in Hw as [_ Hw].
  apply Forall_cons in Hw as [Hc _]. by rewrite Hc in Hl.
Qed.

(** With names of word characters, at most one name makes a token at a
    position. *)
Lemma token_at_unique_name (names : list (list char)) (sql : list char) (i : nat)
    (k k' : list char) :
  word_name k → word_name k' → token_at names sql i k → token_at names sql i k' → k = k'.
Proof.
  intros Hw Hw' Hk Hk'.
  pose proof (token_at_shorter_name _ _ _ _ _ Hw' Hk Hk').
  pose proof (token_at_shorter_name _ _ _ _ _ Hw Hk' Hk).
  destruct Hk as (pre & post & -> & Hi & _), Hk' as (pre' & post' & Heq & Hi' & _).
  apply app_inj_1 in Heq as [_ [= Heq]]; [|lia].
  apply app_inj_1 in Heq as [? _]; [done|lia].
Qed.

(** With names of word characters, no token begins inside another. *)
Lemma token_at_not_inside (names : list (list char)) (sql : list char) (i j : nat)
    (k k' : list char) :
  word_name k' → token_at names sql j k' → token_at names sql i k →
  ¬ (j < i ≤ j + length k').
Proof.
  intros Hw (pre' & post' & -> & Hj & _) (pre & post & Heq & Hi & _) [Hlt Hle].
  apply (f_equal (λ s, s !! i)) in Heq.
  rewrite (lookup_app_r pre), Hi, Nat.sub_diag in Heq by lia. simpl in Heq.
  rewrite lookup_app_r in Heq by lia.
  replace (i - length pre') with (S (i - j - 1)) in Heq by lia. simpl in Heq.
  rewrite lookup_app_l in Heq by lia.
  eapply Forall_lookup_1 in Hw; [|done]. simpl in Hw. congruence.
Qed.

Lemma finditer_tokens (names : list (list char)) (sql : list char) :
  Forall word_name names →
  ∀ i k, (i, k) ∈ finditer names sql ↔ token_at names sql i k.
Proof.
  intros Hw i k. split.
  - intros Hin. by apply (finditer_from_sound names sql [] 0) in Hin as [_ ?].
  - intros Htok.
    assert (∀ j k', token_at names sql j k' → word_name k') as Hword.
    { intros j k' (_ & _ & _ & _ & Hin & _). by eapply Forall_forall in Hw. }
    assert (length ([] : list char) + 0 ≤ i) as Hle by (simpl; lia).
    destruct (finditer_from_complete names sql [] 0 i k Htok Hle)
      as [[k' Hk']|(j & k' & Hk' & Hj)].
    + assert (token_at names sql i k') as Htok'
        by by apply (finditer_from_sound names sql [] 0) in Hk' as [_ ?].
      by rewrite (token_at_unique_name names sql i k k') by eauto.
    + assert (token_at names sql j k') as Htok'
        by by apply (finditer_from_sound names sql [] 0) in Hk' as [_ ?].
      exfalso. eapply (token_at_not_inside names sql i j k k'); eauto.
Qed.

(** C6, amended.  For every alphabet whose colon is no word character,
    every SQL text and every mapping, in each of the styles qmark,
    numeric, format and pyformat, [change_param_style] returns the text
    with the matches [ms] replaced by the style's placeholder.  The
    matches come from left to right and do not overlap; each is a
    [:name] token (a bound name after a colon that no colon or backslash
    precedes and no word character follows); and a token is matched at
    its position or begins inside the name of a match to its left.  Where
    the names are made of word characters, the matches are exactly the
    tokens.  In a positional style the returned tuple holds one bound
    value for each match, in the order of the matches, and in pyformat
    the mapping is returned as it is. *)
Theorem change_param_style_tokens (target_style : string)
    (param_gen : nat → list char → list char) (sql : list char)
    (bind_parameters : option (list (list char * V))) :
  let items := default [] bind_parameters in
  param_gens target_style = Some param_gen →
  ∃ ms params,
    change_param_style target_style sql bind_parameters
      = Ok (splice param_gen 0 0 sql ms, params)
    ∧ separated 0 ms
    ∧ (∀ i k, (i, k) ∈ ms → token_at items.*1 sql i k)
    ∧ (∀ i k, token_at items.*1 sql i k →
         (∃ k', (i, k') ∈ ms) ∨ ∃ j k', (j, k') ∈ ms ∧ j < i ≤ j + length k')
    ∧ (Forall word_name items.*1 → ∀ i k, token_at items.*1 sql i k → (i, k) ∈ ms)
    ∧ if bool_decide (target_style ∈ ["qmark"; "numeric"; "format"])
      then ∃ vs, params = Tuple vs ∧ Forall2 (λ m v, getitem items m.2 = Ok v) ms vs
      else params = Dict items.
Proof.
  intros items Hgen. unfold change_param_style.
  case_decide as Hnamed; [by subst|].
  assert (∀ i k, ¬ token_at ([] : list (list char)) sql i k) as Hnil.
  { by intros i k (_ & _ & _ & _ & ?%elem_of_nil & _). }
  assert (∃ ms params,
    Ok (sql, if bool_decide (target_style ∈ ["qmark"; "numeric"; "format"])
             then Tuple [] else Dict [])
      = Ok (splice param_gen 0 0 sql ms, params)
    ∧ separated 0 ms
    ∧ (∀ i k, (i, k) ∈ ms → token_at ([] : list (list char)) sql i k)
    ∧ (∀ i k, token_at ([] : list (list char)) sql i k →
         (∃ k', (i, k') ∈ ms) ∨ ∃ j k', (j, k') ∈ ms ∧ j < i ≤ j + length k')
    ∧ (Forall word_name ([] : list (list char)) →
       ∀ i k, token_at ([] : list (list char)) sql i k → (i, k) ∈ ms)
    ∧ if bool_decide (target_style ∈ ["qmark"; "numeric"; "format"])
      then ∃ vs : list V, params = Tuple vs
             ∧ Forall2 (λ m v, getitem ([] : list (list char * V)) m.2 = Ok v) ms vs
      else params = Dict ([] : list (list char * V))) as Hnone.
  { exists [], (if bool_decide (target_style ∈ ["qmark"; "numeric"; "format"])
                then Tuple [] else Dict []).
    split_and!; [done|done|by intros i k ?%elem_of_nil|by intros i k ?%Hnil
                |by intros _ i k ?%Hnil|].
    case_bool_decide; [by exists []|done]. }
  destruct bind_parameters as [[|it rest]|]; subst items; cbn [default from_option id] in *;
    [exact Hnone| |exact Hnone].
  rewrite Hgen. set (items := it :: rest) in *. cbv zeta.
  assert (sub items.*1 param_gen sql = splice param_gen 0 0 sql (finditer items.*1 sql))
    as ->.
  { unfold sub, finditer. by rewrite (sub_from_splice _ _ _ _ _ 0), drop_0. }
  assert (∀ i k, (i, k) ∈ finditer items.*1 sql → token_at items.*1 sql i k) as Hsound.
  { intros i k Hin. by apply (finditer_from_sound items.*1 sql [] 0) in Hin as [_ ?]. }
  assert (∀ i k, token_at items.*1 sql i k →
    (∃ k', (i, k') ∈ finditer items.*1 sql)
    ∨ ∃ j k', (j, k') ∈ finditer items.*1 sql ∧ j < i ≤ j + length k') as Hcomplete.
  { intros i k Htok.
    apply (finditer_from_complete items.*1 sql [] 0 i k Htok). simpl. lia. }
  pose proof (finditer_from_separated items.*1 None 0 0 sql) as Hsep.
  case_bool_decide.
  - destruct (getitems_Ok items (finditer items.*1 sql).*2) as (vs & -> & Hvs).
    { apply Forall_forall. intros n [[i k] [-> Hin]]%list_elem_of_fmap. simpl.
      by apply Hsound in Hin as (_ & _ & _ & _ & ? & _). }
    exists (finditer items.*1 sql), (Tuple vs).
    split_and!; [done|done|done|done|by intros Hw i k ?; apply finditer_tokens|].
    exists vs. split; [done|]. by apply Forall2_fmap_l in Hvs.
  - exists (finditer items.*1 sql), (Dict items).
    split_and!; [done|done|done|done|by intros Hw i k ?; apply finditer_tokens|done].
Qed.


(** ** The scan for arbitrary names *)

Lemma match_name_first (names : list (list char)) (rest k : list char) :
  match_name names rest = Some k →
  ∃ ns1 ns2, names = ns1 ++ k :: ns2
    ∧ ∀ k' post, k' ∈ ns1 → rest = k' ++ post → lookahead post = false.
Proof.
  unfold match_name. induction names as [|n names IH]; simpl; [done|].
  destruct (starts_with n rest && lookahead (drop (length n) rest)) eqn:Hn.
  - intros [= ->]. exists [], names. split; [done|]. by intros k' post ?%elem_of_nil.
  - intros (ns1 & ns2 & -> & Hfirst)%IH. exists (n :: ns1), ns2. split; [done|].
    intros k' post [Hk'|Hin]%elem_of_cons Hrest; [subst k'|by eapply Hfirst].
    apply andb_false_iff in Hn as [Hn|Hn].
    + assert (starts_with n rest = true) by (apply starts_with_spec; by exists post).
      congruence.
    + by rewrite Hrest, drop_app_length in Hn.
Qed.

Lemma finditer_from_match (names : list (list char)) (s done : list char) (skip i : nat)
    (k : list char) :
  (i, k) ∈ finditer_from names (last done) skip (length done) s →
  ∃ pre rest, done ++ s = pre ++ colon :: rest ∧ length pre = i
    ∧ match_name names rest = Some k.
Proof.
  revert done skip. induction s as [|c rest IH]; intros done skip; simpl.
  { by intros ?%elem_of_nil. }
  assert (∀ sk, (i, k) ∈ finditer_from names (Some c) sk (S (length done)) rest →
    ∃ pre rest', done ++ c :: rest = pre ++ colon :: rest' ∧ length pre = i
      ∧ match_name names rest' = Some k) as Hrest.
  { intros sk Hin. rewrite <- snoc_app. rewrite <- (last_snoc c done) in Hin.
    replace (S (length done)) with (length (done ++ [c])) in *
      by (rewrite length_app; simpl; lia).
    by eapply IH. }
  destruct skip as [|skip]; [|by apply Hrest].
  destruct (bool_decide (c = colon) && lookbehind (last done)) eqn:Hc; simpl;
    [|by apply Hrest].
  destruct (match_name names rest) as [key|] eqn:Hm; [|by apply Hrest].
  intros [[= -> ->]|Hin]%elem_of_cons; [|by eapply Hrest].
  apply andb_true_iff in Hc as [->%bool_decide_eq_true _]. by exists done, rest.
Qed.

(** The matches of the pattern, whatever the names are.  They come from
    left to right and do not overlap; each is a token, with the first
    name of the mapping that makes one at its position; and a token of
    the text is either matched at its position (possibly under an earlier
    name) or begins inside the name of a match to its left. *)
Theorem finditer_leftmost (names : list (list char)) (sql : list char) :
  separated 0 (finditer names sql)
  ∧ (∀ i k, (i, k) ∈ finditer names sql →
       token_at names sql i k
       ∧ ∃ ns1 ns2, names = ns1 ++ k :: ns2
           ∧ ∀ k', k' ∈ ns1 → ¬ token_at names sql i k')
  ∧ (∀ i k, token_at names sql i k →
       (∃ k', (i, k') ∈ finditer names sql)
       ∨ ∃ j k', (j, k') ∈ finditer names sql ∧ j < i ≤ j + length k').
Proof.
  split_and!.
  - apply (finditer_from_separated _ None 0 0).
  - intros i k Hin. split.
    + by apply (finditer_from_sound names sql [] 0) in Hin as [_ ?].
    + apply (finditer_from_match names sql [] 0) in Hin as (pre & rest & Heq & Hi & Hm).
      apply match_name_first in Hm as (ns1 & ns2 & -> & Hfirst).
      exists ns1, ns2. split; [done|].
      intros k' Hk' (pre' & post' & Heq' & Hi' & _ & _ & Hl).
      simpl in Heq. rewrite Heq in Heq'.
      apply app_inj_1 in Heq' as [_ [= ->]]; [|lia].
      by rewrite (Hfirst k' post' Hk' eq_refl) in Hl.
  - intros i k Htok.
    apply (finditer_from_complete names sql [] 0 i k Htok). simpl. lia.
Qed.

(** A style that is none of the five is only found out when there are
    parameters to bind: without any, the text comes back as it is with an
    empty dict, and with some, the lookup of the style raises [KeyError]. *)
Theorem change_param_style_unknown_style (target_style : string) (sql : list char)
    (bind_parameters : option (list (list char * V))) :
  target_style ≠ "named" → param_gens target_style = None →
  change_param_style target_style sql bind_parameters
  = match bind_parameters with
    | None | Some [] => Ok (sql, Dict [])
    | Some _ => Raise (KeyError target_style)
    end.
Proof.
  intros Hnamed Hgen. unfold change_param_style. rewrite decide_False by done.
  rewrite Hgen.
  assert (bool_decide (target_style ∈ ["qmark"; "numeric"; "format"]) = false) as ->.
  { apply bool_decide_eq_false. unfold param_gens in Hgen.
    repeat case_decide; try done.
    intros Hin. repeat (apply elem_of_cons in Hin as [?|Hin]); try done.
    by apply elem_of_nil in Hin. }
  by destruct bind_parameters as [[|]|].
Qed.

End change_param_style.

(** ** Texts of the characters below U+0100 *)

(** The characters below U+0100 are the values of [ascii], a character
    being its code point.  [\w] on them, in a pattern compiled from a
    [str]: the letters, digits and underscore of ASCII, and the letters
    and numbers of Latin-1 ([ª], [²], [³], [µ], [¹], [º], the three
    fractions, and the letters from [À] on but [×] and [÷]). *)
Definition latin1_word (c : ascii) : bool :=
  let n := nat_of_ascii c in
  ((48 <=? n) && (n <=? 57)) || ((65 <=? n) && (n <=? 90)) || (n =? 95)
  || ((97 <=? n) && (n <=? 122))
  || (n =? 170) || (n =? 178) || (n =? 179) || (n =? 181) || (n =? 185) || (n =? 186)
  || ((188 <=? n) && (n <=? 190))
  || ((192 <=? n) && (n <=? 214)) || ((216 <=? n) && (n <=? 246)) || (248 <=? n).

Definition latin1 : ascii → ascii := λ c, c.
Definition latin1_repr : list ascii → string := String.string_of_list_ascii.

(** ** Examples *)

Definition select_a_b_a : list ascii := chars latin1 "SELECT :a, :b, :a::int, \:b".
Definition a_and_b : list (list ascii * nat) := [(chars latin1 "a", 1); (chars latin1 "b", 2)].

Lemma change_param_style_tokens_witness :
  ∃ ms params,
    change_param_style latin1 latin1_word latin1_repr "numeric" select_a_b_a (Some a_and_b)
      = Ok (splice (param_gen_numeric latin1) 0 0 select_a_b_a ms, params)
    ∧ (∀ i k, (i, k) ∈ ms ↔ token_at latin1 latin1_word a_and_b.*1 select_a_b_a i k)
    ∧ separated 0 ms
    ∧ ∃ vs, params = Tuple vs
        ∧ Forall2 (λ m v, getitem latin1_repr a_and_b m.2 = Ok v) ms vs.
Proof.
  destruct (change_param_style_tokens latin1 latin1_word latin1_repr eq_refl
              "numeric" (param_gen_numeric latin1) select_a_b_a (Some a_and_b) eq_refl)
    as (ms & params & Heq & Hsep & Hsound & _ & Hall & Hvs).
  exists ms, params. split_and!; [exact Heq| |exact Hsep|exact Hvs].
  intros i k. split; [apply Hsound|apply Hall; repeat constructor].
Defined.

(** The same call, evaluated: the cast [::int] and the escaped [\:b] stay. *)
Lemma change_param_style_numeric_example :
  change_param_style latin1 latin1_word latin1_repr "numeric" select_a_b_a (Some a_and_b)
  = Ok (chars latin1 "SELECT :1, :2, :3::int, \:b", Tuple [1; 2; 1]).
Proof. reflexivity. Qed.

(** A letter that is not of ASCII is a word character: in [SELECT :aé],
    with [a] bound, [:a] is followed by [é] (U+00E9) and is no token, so
    that the text is returned as it is, with no value. *)
Lemma change_param_style_letter_after_name :
  let sql := chars latin1 "SELECT :a" ++ [ascii_of_nat 233] in
  change_param_style latin1 latin1_word latin1_repr "qmark" sql (Some [(chars latin1 "a", 1)])
  = Ok (sql, Tuple []).
Proof. reflexivity. Qed.

(** A name with a colon in it: [:b] at position 2 of [:a:b] is a token of
    the bound name [b], after a letter and at the end of the text, and it
    is not rewritten, as it lies inside the match of [a:b]; the tuple
    holds one value. *)
Lemma token_inside_a_match_is_kept :
  change_param_style latin1 latin1_word latin1_repr "qmark" (chars latin1 ":a:b")
      (Some [(chars latin1 "a:b", 1); (chars latin1 "b", 2)])
    = Ok (chars latin1 "?", Tuple [1])
  ∧ token_at latin1 latin1_word [chars latin1 "a:b"; chars latin1 "b"]
      (chars latin1 ":a:b") 2 (chars latin1 "b").
Proof.
  split; [reflexivity|].
  exists (chars latin1 ":a"), []. repeat split; try reflexivity. right; left.
Qed.


Lemma change_param_style_unknown_style_witness :
  change_param_style latin1 latin1_word latin1_repr "dollar" select_a_b_a (Some a_and_b)
    = Raise (KeyError "dollar")
  ∧ change_param_style latin1 latin1_word latin1_repr "dollar" select_a_b_a
      (None : option (list (list ascii * nat)))
    = Ok (select_a_b_a, Dict []).
Proof.
  split.
  - apply (change_param_style_unknown_style latin1 latin1_word latin1_repr
             "dollar" select_a_b_a (Some a_and_b)); [done|reflexivity].
  - apply (change_param_style_unknown_style latin1 latin1_word latin1_repr
             "dollar" select_a_b_a None); [done|reflexivity].
Defined.

End utils.

(** * The database behind the connection

    [backends/base.py] talks to a DB-API connection.  This module is a
    reference model of that connection and of the database behind it, as
    far as the backend uses them: yoyo's bookkeeping tables with the keys
    their [CREATE TABLE] statements declare, the user's own tables, and
    transactions with savepoints.  Every statement takes part in the open
    transaction. *)
Module dbapi.

(** [yoyo_lock]: [locked INT DEFAULT 1, ctime TIMESTAMP, pid INT NOT NULL,
    PRIMARY KEY (locked)]. *)
Record lock_row := LockRow { locked : Z; ctime : nat; pid : Z }.

(** [_yoyo_migration]: [migration_hash VARCHAR(64), migration_id
    VARCHAR(255), applied_at_utc TIMESTAMP, PRIMARY KEY (migration_hash)]. *)
Record migration_row := MigrationRow {
  migration_hash : string; migration_id : string; applied_at_utc : nat }.

(** [_yoyo_log]: [id VARCHAR(36), migration_hash, migration_id, operation,
    username, hostname, comment, created_at_utc, PRIMARY KEY (id)]. *)
Record log_row := LogRow {
  log_id : string;
  log_migration_hash : option string;
  log_migration_id : option string;
  operation : string;
  username : string;
  hostname : string;
  comment : option string;
  created_at_utc : nat }.

#[global] Instance lock_row_eq_dec : EqDecision lock_row.
Proof. solve_decision. Defined.
#[global] Instance migration_row_eq_dec : EqDecision migration_row.
Proof. solve_decision. Defined.
#[global] Instance log_row_eq_dec : EqDecision log_row.
Proof. solve_decision. Defined.

(** The tables; [None] for a bookkeeping table that was not created. *)
Record database := Database {
  lock_table : option (list lock_row);
  migration_table : option (list migration_row);
  log_table : option (list log_row);
  user_tables : gmap string (list (list string)) }.

(** The statements sent through a cursor.  The backend's own statements
    are named after their SQL text; [SQL] is a statement of a migration
    step, with the effect the database gives it (the new user tables, or
    the message of the [DatabaseError] it raises). *)
Inductive statement :=
  | BEGIN
  | SAVEPOINT (id : string)
  | RELEASE_SAVEPOINT (id : string)
  | ROLLBACK_TO_SAVEPOINT (id : string)
  | CREATE_LOCK_TABLE
  | INSERT_LOCK (when : nat) (pid : Z)
  | DELETE_LOCK_WHERE_PID (pid : Z)
  | DELETE_LOCK
  | SELECT_LOCK_PID
  | INSERT_MIGRATION (hash id : string) (when : nat)
  | DELETE_MIGRATION (hash : string)
  | SELECT_APPLIED_HASHES
  | INSERT_LOG (row : log_row)
  | SQL (text : string)
        (effect : gmap string (list (list string)) → string + gmap string (list (list string))).

(** What a cursor holds after [execute]: the rows of a query. *)
Inductive rows :=
  | NoRows
  | PidRows (pids : list Z)
  | HashRows (hashes : list string).

(** A connection: the tables as it sees them, the tables as they were when
    the open transaction began ([None] outside a transaction), and the
    savepoints of the open transaction, newest first. *)
Record connection := Connection {
  data : database;
  transaction_start : option database;
  savepoints : list (string * database) }.

(** [ORDER BY applied_at_utc] *)
Definition applied_before (a b : migration_row) : Prop :=
  applied_at_utc a ≤ applied_at_utc b.

#[global] Instance applied_before_dec a b : Decision (applied_before a b).
Proof. unfold applied_before. apply _. Defined.

Definition no_such_table {A} (name : string) : result A :=
  Raise (DatabaseError ("no such table: " +:+ name)).

(** A statement on the tables. *)
Definition run (s : statement) (d : database) : result (database * rows) :=
  match s with
  | BEGIN | SAVEPOINT _ | RELEASE_SAVEPOINT _ | ROLLBACK_TO_SAVEPOINT _ => Ok (d, NoRows)
  | CREATE_LOCK_TABLE =>
      match lock_table d with
      | Some _ => Raise (DatabaseError "table yoyo_lock already exists")
      | None => Ok (Database (Some []) (migration_table d) (log_table d) (user_tables d), NoRows)
      end
  | INSERT_LOCK when p =>
      match lock_table d with
      | None => no_such_table "yoyo_lock"
      | Some t =>
          if decide (1%Z ∈ locked <$> t)
          then Raise (DatabaseError "UNIQUE constraint failed: yoyo_lock.locked")
          else Ok (Database (Some (t ++ [LockRow 1 when p])) (migration_table d)
                     (log_table d) (user_tables d), NoRows)
      end
  | DELETE_LOCK_WHERE_PID p =>
      match lock_table d with
      | None => no_such_table "yoyo_lock"
      | Some t =>
          Ok (Database (Some (filter (λ r, pid r ≠ p) t)) (migration_table d)
                (log_table d) (user_tables d), NoRows)
      end
  | DELETE_LOCK =>
      match lock_table d with
      | None => no_such_table "yoyo_lock"
      | Some t => Ok (Database (Some []) (migration_table d) (log_table d) (user_tables d), NoRows)
      end
  | SELECT_LOCK_PID =>
      match lock_table d with
      | None => no_such_table "yoyo_lock"
      | Some t => Ok (d, PidRows (pid <$> t))
      end
  | INSERT_MIGRATION h i when =>
      match migration_table d with
      | None => no_such_table "_yoyo_migration"
      | Some t =>
          if decide (h ∈ migration_hash <$> t)
          then Raise (DatabaseError "UNIQUE constraint failed: _yoyo_migration.migration_hash")
          else Ok (Database (lock_table d) (Some (t ++ [MigrationRow h i when]))
                     (log_table d) (user_tables d), NoRows)
      end
  | DELETE_MIGRATION h =>
      match migration_table d with
      | None => no_such_table "_yoyo_migration"
      | Some t =>
          Ok (Database (lock_table d) (Some (filter (λ r, migration_hash r ≠ h) t))
                (log_table d) (user_tables d), NoRows)
      end
  | SELECT_APPLIED_HASHES =>
      match migration_table d with
      | None => no_such_table "_yoyo_migration"
      | Some t =>
          Ok (d, HashRows (migration_hash <$>
                 merge_sort applied_before t))
      end
  | INSERT_LOG r =>
      match log_table d with
      | None => no_such_table "_yoyo_log"
      | Some t =>
          if decide (log_id r ∈ log_id <$> t)
          then Raise (DatabaseError "UNIQUE constraint failed: _yoyo_log.id")
          else Ok (Database (lock_table d) (migration_table d) (Some (t ++ [r]))
                     (user_tables d), NoRows)
      end
  | SQL _ effect =>
      match effect (user_tables d) with
      | inl msg => Raise (DatabaseError msg)
      | inr u => Ok (Database (lock_table d) (migration_table d) (log_table d) u, NoRows)
      end
  end.

(** The savepoint named [id] and the ones set before it. *)
Fixpoint savepoints_from (id : string) (sps : list (string * database))
    : option (list (string * database)) :=
  match sps with
  | [] => None
  | sp :: rest => if decide (sp.1 = id) then Some sps else savepoints_from id rest
  end.

(** [cursor.execute(statement)] on a connection. *)
Definition cursor_execute (s : statement) (c : connection) : connection * result rows :=
  match s with
  | BEGIN =>
      match transaction_start c with
      | Some _ => (c, Raise (DatabaseError "cannot start a transaction within a transaction"))
      | None => (Connection (data c) (Some (data c)) [], Ok NoRows)
      end
  | SAVEPOINT id =>
      (Connection (data c) (Some (default (data c) (transaction_start c)))
         ((id, data c) :: savepoints c), Ok NoRows)
  | RELEASE_SAVEPOINT id =>
      match savepoints_from id (savepoints c) with
      | Some (_ :: rest) => (Connection (data c) (transaction_start c) rest, Ok NoRows)
      | _ => (c, Raise (DatabaseError ("no such savepoint: " +:+ id)))
      end
  | ROLLBACK_TO_SAVEPOINT id =>
      match savepoints_from id (savepoints c) with
      | Some ((i, d) :: rest) =>
          (Connection d (transaction_start c) ((i, d) :: rest), Ok NoRows)
      | _ => (c, Raise (DatabaseError ("no such savepoint: " +:+ id)))
      end
  | _ =>
      match run s (data c) with
      | inl e => (c, Raise e)
      | inr (d, r) => (Connection d (transaction_start c) (savepoints c), Ok r)
      end
  end.

(** [connection.commit()] *)
Definition connection_commit (c : connection) : connection :=
  Connection (data c) None [].

(** [connection.rollback()] *)
Definition connection_rollback (c : connection) : connection :=
  Connection (default (data c) (transaction_start c)) None [].

End dbapi.

(** * [backends/base.py]: the backend object and its transactions *)
Module backends.
Import dbapi.

(** Records sent to [logging.getLogger("yoyo.migrations")]. *)
Inductive log_record :=
  | LogInfo (msg : string)
  | LogException (msg : string).

(** A [DatabaseBackend] object, together with the two pieces of
    process-wide state its methods touch: the counter
    [SavepointTransactionManager.id_generator] ([next_savepoint] is the
    value its next call returns) and what was logged so far. *)
Record DatabaseBackend := Backend {
  connection : dbapi.connection;
  _in_transaction : bool;
  _is_locked : bool;
  _internal_schema_updated : bool;
  has_transactional_ddl : bool;
  next_savepoint : nat;
  logged : list log_record }.

(** A method: it changes the backend and returns or raises. *)
Definition M (A : Type) : Type := DatabaseBackend → DatabaseBackend * result A.

Definition ret {A} (a : A) : M A := λ b, (b, Ok a).
Definition raise {A} (e : exn) : M A := λ b, (b, Raise e).
Definition bind {A B} (m : M A) (k : A → M B) : M B :=
  λ b, match m b with
       | (b', inr a) => k a b'
       | (b', inl e) => (b', Raise e)
       end.

#[global] Instance M_ret : MRet M := @ret.
#[global] Instance M_bind : MBind M := λ A B k m, bind m k.

(** [try: m except backend.DatabaseError: handler] *)
Definition except_DatabaseError {A} (m : M A) (handler : string → M A) : M A :=
  λ b, match m b with
       | (b', inl (DatabaseError msg)) => handler msg b'
       | r => r
       end.

(** [with manager: body], for a manager whose [__exit__] returns a false
    value: an exception of the body is raised again after [__exit__],
    unless [__exit__] raises itself. *)
Definition with_ {X A} (enter : M X) (exit : X → option exn → M unit) (body : M A) : M A :=
  λ b, match enter b with
       | (b1, inl e) => (b1, Raise e)
       | (b1, inr x) =>
           match body b1 with
           | (b2, inl e) =>
               match exit x (Some e) b2 with
               | (b3, inl e') => (b3, Raise e')
               | (b3, inr _) => (b3, Raise e)
               end
           | (b2, inr a) =>
               match exit x None b2 with
               | (b3, inl e') => (b3, Raise e')
               | (b3, inr _) => (b3, Ok a)
               end
           end
       end.

Definition set_connection (c : dbapi.connection) : M unit := λ b,
  (Backend c (_in_transaction b) (_is_locked b) (_internal_schema_updated b)
     (has_transactional_ddl b) (next_savepoint b) (logged b), Ok ()).
Definition set_in_transaction (v : bool) : M unit := λ b,
  (Backend (connection b) v (_is_locked b) (_internal_schema_updated b)
     (has_transactional_ddl b) (next_savepoint b) (logged b), Ok ()).
Definition set_is_locked (v : bool) : M unit := λ b,
  (Backend (connection b) (_in_transaction b) v (_internal_schema_updated b)
     (has_transactional_ddl b) (next_savepoint b) (logged b), Ok ()).
Definition set_internal_schema_updated (v : bool) : M unit := λ b,
  (Backend (connection b) (_in_transaction b) (_is_locked b) v
     (has_transactional_ddl b) (next_savepoint b) (logged b), Ok ()).

(** [logger.info(msg)] and [logger.exception(msg)] *)
Definition log (r : log_record) : M unit := λ b,
  (Backend (connection b) (_in_transaction b) (_is_locked b) (_internal_schema_updated b)
     (has_transactional_ddl b) (next_savepoint b) (logged b ++ [r]), Ok ()).

(** [next(SavepointTransactionManager.id_generator)] *)
Definition next_id : M nat := λ b,
  (Backend (connection b) (_in_transaction b) (_is_locked b) (_internal_schema_updated b)
     (has_transactional_ddl b) (S (next_savepoint b)) (logged b), Ok (next_savepoint b)).

(** [cursor = self.cursor(); cursor.execute(stmt)] *)
Definition cursor_execute (s : statement) : M rows := λ b,
  let (c, r) := dbapi.cursor_execute s (connection b) in
  (Backend c (_in_transaction b) (_is_locked b) (_internal_schema_updated b)
     (has_transactional_ddl b) (next_savepoint b) (logged b), r).

(** [DatabaseBackend.execute(sql, params)].  The text and the parameters
    go through [utils.change_param_style] to the cursor; the statement
    stands for both. *)
Definition execute (s : statement) : M rows := cursor_execute s.

(** [DatabaseBackend.commit] *)
Definition commit : M unit := λ b,
  (set_connection (connection_commit (connection b)) ;; set_in_transaction false) b.

(** [DatabaseBackend.rollback]; [init_connection] does nothing in the base
    class. *)
Definition rollback : M unit := λ b,
  (set_connection (connection_rollback (connection b)) ;; set_in_transaction false) b.

(** [DatabaseBackend.begin] *)
Definition begin : M unit := λ b,
  if _in_transaction b then (b, Raise (AssertionError "not self._in_transaction"))
  else (set_in_transaction true ;; _ ← execute BEGIN; mret ()) b.

(** [DatabaseBackend.savepoint], [savepoint_release], [savepoint_rollback] *)
Definition savepoint (id : string) : M unit := _ ← execute (SAVEPOINT id); mret ().
Definition savepoint_release (id : string) : M unit :=
  _ ← execute (RELEASE_SAVEPOINT id); mret ().
Definition savepoint_rollback (id : string) : M unit :=
  _ ← execute (ROLLBACK_TO_SAVEPOINT id); mret ().

(** The two transaction managers.  A [SavepointTransactionManager] carries
    the [id] its [_do_begin] chose. *)
Inductive manager :=
  | TransactionManager (rollback_on_exit : bool)
  | SavepointTransactionManager (rollback_on_exit : bool).

(** [DatabaseBackend.transaction(rollback_on_exit)] *)
Definition transaction (rollback_on_exit : bool) (b : DatabaseBackend) : manager :=
  if _in_transaction b then SavepointTransactionManager rollback_on_exit
  else TransactionManager rollback_on_exit.

Definition rollback_on_exit (m : manager) : bool :=
  match m with TransactionManager r | SavepointTransactionManager r => r end.

(** [_do_begin]; the result is the manager's [id] attribute. *)
Definition _do_begin (m : manager) : M (option string) :=
  match m with
  | TransactionManager _ => begin ;; mret None
  | SavepointTransactionManager _ =>
      n ← next_id;
      let id := "sp_" +:+ pretty n in
      savepoint id ;; mret (Some id)
  end.

Definition _do_commit (m : manager) : M unit :=
  match m with
  | TransactionManager _ => commit
  | SavepointTransactionManager _ => ret ()
  end.

Definition _do_rollback (m : manager) (id : option string) : M unit :=
  match m with
  | TransactionManager _ => rollback
  | SavepointTransactionManager _ => savepoint_rollback (default "None" id)
  end.

(** [TransactionManager.__exit__] *)
Definition __exit__ (m : manager) (id : option string) (exc : option exn) : M unit :=
  match exc with
  | Some _ => _do_rollback m id
  | None => if rollback_on_exit m then _do_rollback m id else _do_commit m
  end.

(** [with self.transaction(rollback_on_exit): body] *)
Definition with_transaction {A} (roe : bool) (body : M A) : M A := λ b,
  let m := transaction roe b in
  with_ (_do_begin m) (__exit__ m) body b.

(** [with self.disable_transactions(): body] in the base class: the
    generator rolls back, yields, and lets an exception of the body
    through. *)
Definition with_disable_transactions {A} (body : M A) : M A :=
  with_ rollback (λ _ _, ret ()) body.


(** ** Laws of method composition *)

Lemma bind_unfold {A B} (m : M A) (k : A → M B) (b : DatabaseBackend) :
  (m ≫= k) b = match m b with
               | (b', inr a) => k a b'
               | (b', inl e) => (b', Raise e)
               end.
Proof. reflexivity. Qed.

Lemma ret_bind {A B} (a : A) (k : A → M B) (b : DatabaseBackend) :
  (mret a ≫= k) b = k a b.
Proof. reflexivity. Qed.

Lemma bind_ret {A} (m : M A) (b : DatabaseBackend) : (m ≫= mret) b = m b.
Proof. rewrite bind_unfold. by destruct (m b) as [b' [e|a]]. Qed.

Lemma bind_assoc {A B C} (m : M A) (k : A → M B) (k' : B → M C) (b : DatabaseBackend) :
  ((m ≫= k) ≫= k') b = (m ≫= (λ a, k a ≫= k')) b.
Proof. rewrite !bind_unfold. by destruct (m b) as [b' [e|a]]. Qed.

Lemma bind_ext {A B} (m : M A) (k k' : A → M B) (b : DatabaseBackend) :
  (∀ a b', k a b' = k' a b') → (m ≫= k) b = (m ≫= k') b.
Proof. intros Hk. rewrite !bind_unfold. destruct (m b) as [b' [e|a]]; [done|apply Hk]. Qed.

(** ** What methods leave alone *)

(** [m] relates the backend before to the backend after by [P]. *)
Definition keeps {A} (P : relation DatabaseBackend) (m : M A) : Prop :=
  ∀ b b' r, m b = (b', r) → P b b'.

Section keeps.
Context (P : relation DatabaseBackend) `{!PreOrder P}.

Lemma keeps_ret {A} (a : A) : keeps P (mret a).
Proof. intros b b' r [= <- _]. done. Qed.

Lemma keeps_raise {A} (e : exn) : keeps P (raise (A:=A) e).
Proof. intros b b' r [= <- _]. done. Qed.

Lemma keeps_bind {A B} (m : M A) (k : A → M B) :
  keeps P m → (∀ a, keeps P (k a)) → keeps P (m ≫= k).
Proof.
  intros Hm Hk b b' r. rewrite bind_unfold.
  destruct (m b) as [b1 [e|a]] eqn:E.
  - intros [= <- _]. by eapply Hm.
  - intros Hka. etrans; [by eapply Hm|by eapply Hk].
Qed.

Lemma keeps_except {A} (m : M A) (handler : string → M A) :
  keeps P m → (∀ msg, keeps P (handler msg)) → keeps P (except_DatabaseError m handler).
Proof.
  intros Hm Hh b b' r. unfold except_DatabaseError.
  destruct (m b) as [b1 [e|a]] eqn:E.
  - destruct e; try (intros [= <- _]; by eapply Hm).
    intros Hr. etrans; [by eapply Hm|by eapply Hh].
  - intros [= <- _]. by eapply Hm.
Qed.

Lemma keeps_with {X A} (enter : M X) (exit : X → option exn → M unit) (body : M A) :
  keeps P enter → (∀ x e, keeps P (exit x e)) → keeps P body →
  keeps P (with_ enter exit body).
Proof.
  intros He Hx Hb b b' r. unfold with_.
  destruct (enter b) as [b1 [e|x]] eqn:E1; [intros [= <- _]; by eapply He|].
  destruct (body b1) as [b2 [e|a]] eqn:E2.
  - destruct (exit x (Some e) b2) as [b3 [e'|[]]] eqn:E3; intros [= <- _];
      (etrans; [by eapply He|]; etrans; [by eapply Hb|by eapply Hx]).
  - destruct (exit x None b2) as [b3 [e'|[]]] eqn:E3; intros [= <- _];
      (etrans; [by eapply He|]; etrans; [by eapply Hb|by eapply Hx]).
Qed.
End keeps.

(** The attributes no transaction or statement touches. *)
Definition same_flags : relation DatabaseBackend := λ b b',
  has_transactional_ddl b' = has_transactional_ddl b
  ∧ _is_locked b' = _is_locked b
  ∧ _internal_schema_updated b' = _internal_schema_updated b.

#[global] Instance same_flags_preorder : PreOrder same_flags.
Proof.
  split.
  - by intros b.
  - intros b1 b2 b3 (? & ? & ?) (? & ? & ?). unfold same_flags. split_and!; congruence.
Qed.

(** Log records are only ever added. *)
Definition log_grows : relation DatabaseBackend := λ b b', logged b `prefix_of` logged b'.

#[global] Instance log_grows_preorder : PreOrder log_grows.
Proof.
  split.
  - intros b. unfold log_grows. done.
  - intros b1 b2 b3 ? ?. unfold log_grows in *. by etrans.
Qed.

(** Both at once. *)
Definition framed : relation DatabaseBackend := λ b b', same_flags b b' ∧ log_grows b b'.

#[global] Instance framed_preorder : PreOrder framed.
Proof.
  split.
  - intros b. split; reflexivity.
  - intros b1 b2 b3 [? ?] [? ?]. split; by etrans.
Qed.

Lemma framed_intro (b b' : DatabaseBackend) :
  has_transactional_ddl b' = has_transactional_ddl b →
  _is_locked b' = _is_locked b →
  _internal_schema_updated b' = _internal_schema_updated b →
  logged b `prefix_of` logged b' →
  framed b b'.
Proof. by repeat split. Qed.

Lemma framed_ret {A} (a : A) : keeps framed (mret a).
Proof. apply keeps_ret, _. Qed.

Lemma framed_raise {A} (e : exn) : keeps framed (raise (A:=A) e).
Proof. apply keeps_raise, _. Qed.

Lemma framed_bind {A B} (m : M A) (k : A → M B) :
  keeps framed m → (∀ a, keeps framed (k a)) → keeps framed (m ≫= k).
Proof. apply keeps_bind, _. Qed.

Lemma framed_except {A} (m : M A) (handler : string → M A) :
  keeps framed m → (∀ msg, keeps framed (handler msg)) →
  keeps framed (except_DatabaseError m handler).
Proof. apply keeps_except, _. Qed.

Lemma framed_with {X A} (enter : M X) (exit : X → option exn → M unit) (body : M A) :
  keeps framed enter → (∀ x e, keeps framed (exit x e)) → keeps framed body →
  keeps framed (with_ enter exit body).
Proof. apply keeps_with, _. Qed.

Lemma framed_set_connection c : keeps framed (set_connection c).
Proof. intros b b' r [= <- _]. by apply framed_intro. Qed.

Lemma framed_set_in_transaction v : keeps framed (set_in_transaction v).
Proof. intros b b' r [= <- _]. by apply framed_intro. Qed.

Lemma framed_log r : keeps framed (log r).
Proof. intros b b' ? [= <- _]. apply framed_intro; try done. by apply prefix_app_r. Qed.

Lemma framed_next_id : keeps framed next_id.
Proof. intros b b' r [= <- _]. by apply framed_intro. Qed.

Lemma framed_cursor_execute s : keeps framed (cursor_execute s).
Proof.
  intros b b' r. unfold cursor_execute.
  destruct (dbapi.cursor_execute s (connection b)). intros [= <- _]. by apply framed_intro.
Qed.

Create HintDb framed.
#[global] Hint Resolve framed_ret framed_raise framed_bind framed_except framed_with
  framed_set_connection framed_set_in_transaction framed_log framed_next_id
  framed_cursor_execute : framed.

Lemma framed_execute s : keeps framed (execute s).
Proof. apply framed_cursor_execute. Qed.

Lemma framed_commit : keeps framed commit.
Proof. intros b b' r. unfold commit. apply framed_bind; eauto with framed. Qed.

Lemma framed_rollback : keeps framed rollback.
Proof. intros b b' r. unfold rollback. apply framed_bind; eauto with framed. Qed.

Lemma framed_begin : keeps framed begin.
Proof.
  intros b b' r. unfold begin. destruct (_in_transaction b).
  - intros [= <- _]. reflexivity.
  - apply framed_bind; eauto using framed_execute with framed.
Qed.

Lemma framed_savepoint id : keeps framed (savepoint id).
Proof. unfold savepoint. eauto using framed_execute with framed. Qed.

Lemma framed_savepoint_release id : keeps framed (savepoint_release id).
Proof. unfold savepoint_release. eauto using framed_execute with framed. Qed.

Lemma framed_savepoint_rollback id : keeps framed (savepoint_rollback id).
Proof. unfold savepoint_rollback. eauto using framed_execute with framed. Qed.

#[global] Hint Resolve framed_execute framed_commit framed_rollback framed_begin
  framed_savepoint framed_savepoint_release framed_savepoint_rollback : framed.

Lemma framed_do_begin m : keeps framed (_do_begin m).
Proof. destruct m; simpl; eauto 10 with framed. Qed.

Lemma framed_exit m id exc : keeps framed (__exit__ m id exc).
Proof.
  unfold __exit__, _do_rollback, _do_commit, rollback_on_exit.
  destruct exc, m as [[]|[]]; eauto with framed.
Qed.

#[global] Hint Resolve framed_do_begin framed_exit : framed.

Lemma framed_with_transaction {A} roe (body : M A) :
  keeps framed body → keeps framed (with_transaction roe body).
Proof. intros Hb b b' r. unfold with_transaction. apply framed_with; eauto with framed. Qed.

Lemma framed_with_disable_transactions {A} (body : M A) :
  keeps framed body → keeps framed (with_disable_transactions body).
Proof. intros Hb. unfold with_disable_transactions. eauto with framed. Qed.

#[global] Hint Resolve framed_with_transaction framed_with_disable_transactions : framed.


(** ** [quote_identifier] *)

(** The double quote and the NUL character. *)
Definition dquote : ascii := ascii_of_nat 34.
Definition nul : ascii := ascii_of_nat 0.

(** The [s.replace] call of [quote_identifier]: every double quote of
    the text is doubled. *)
Definition double_quotes (s : list ascii) : list ascii :=
  s ≫= λ c, if decide (c = dquote) then [dquote; dquote] else [c].

(** [DatabaseBackend.quote_identifier(s)] of the base class; the text is
    the list of its characters. *)
Definition quote_identifier (s : list ascii) : result (list ascii) :=
  if decide (nul ∈ s) then Raise (AssertionError EmptyString)
  else Ok (dquote :: double_quotes s ++ [dquote]).

Lemma double_quotes_inj (s1 s2 : list ascii) :
  double_quotes s1 = double_quotes s2 → s1 = s2.
Proof.
  unfold double_quotes. revert s2.
  induction s1 as [|c1 s1 IH]; intros [|c2 s2]; simpl; try done.
  - by case_decide.
  - by case_decide.
  - repeat case_decide; simpl; intros Heq; simplify_eq; try done;
      f_equal; by apply IH.
Qed.

(** Quoting loses nothing: it raises only for a text with a NUL
    character, its result begins and ends with a double quote around
    the text with its quotes doubled, and two identifiers with the same
    quoted text are the same. *)
Theorem quote_identifier_inj (s1 s2 q : list ascii) :
  quote_identifier s1 = Ok q → quote_identifier s2 = Ok q → s1 = s2.
Proof.
  unfold quote_identifier. repeat case_decide; try done.
  intros [= <-] [= Heq]. apply app_inj_tail in Heq as [Heq _].
  symmetry. by apply double_quotes_inj.
Qed.


Lemma quote_identifier_inj_witness :
  quote_identifier (String.list_ascii_of_string "yoyo_lock")
  = Ok (dquote :: String.list_ascii_of_string "yoyo_lock" ++ [dquote])
  ∧ String.list_ascii_of_string "yoyo_lock" = String.list_ascii_of_string "yoyo_lock".
Proof.
  split; [reflexivity|].
  apply (quote_identifier_inj _ _
           (dquote :: String.list_ascii_of_string "yoyo_lock" ++ [dquote])); reflexivity.
Defined.

End backends.

(** * [migrations.py] *)
Module migrations.
Import dbapi backends.

(** ** Steps *)

Inductive direction := Apply | Rollback.

#[global] Instance direction_eq_dec : EqDecision direction.
Proof. solve_decision. Defined.

(** The string a direction is in the source. *)
Definition direction_name (d : direction) : string :=
  match d with Apply => "apply" | Rollback => "rollback" end.

(** [{"rollback": "apply", "apply": "rollback"}[direction]] *)
Definition reverse_direction (d : direction) : direction :=
  match d with Apply => Rollback | Rollback => Apply end.

(** The [ignore_errors] argument: [None], ["all"], ["apply"] or ["rollback"]. *)
Inductive ignore_errors := IgnoreAll | IgnoreOnly (d : direction).

(** [self.ignore_errors in (direction, "all")] *)
Definition ignores (i : option ignore_errors) (d : direction) : bool :=
  match i with
  | Some IgnoreAll => true
  | Some (IgnoreOnly d') => bool_decide (d' = d)
  | None => false
  end.

(** The [apply] or [rollback] argument of [step()]: an SQL string, with
    the effect the database gives it, or a Python function of the
    connection. *)
Inductive action :=
  | Sql (text : string)
        (effect : gmap string (list (list string)) → string + gmap string (list (list string)))
  | Callable (f : dbapi.connection → dbapi.connection * option exn).

(** [not action]: [None] and the empty string are false. *)
Definition falsy (a : option action) : bool :=
  match a with
  | None => true
  | Some (Sql text _) => bool_decide (text = "")
  | Some (Callable _) => false
  end.

(** The step classes. *)
Inductive step :=
  | MigrationStep (id : nat) (_apply _rollback : option action)
  | StepGroup (steps : list step)
  | TransactionWrapper (s : step) (ignore : option ignore_errors)
  | Transactionless (s : step) (ignore : option ignore_errors).

(** The [id] attribute: only [MigrationStep.__init__] sets it, the other
    classes inherit [StepBase.id = None]. *)
Definition step_id (s : step) : option nat :=
  match s with MigrationStep id _ _ => Some id | _ => None end.

(** [str(step.id)] *)
Definition id_str (i : option nat) : string :=
  match i with Some n => pretty n | None => "None" end.

(** [repr(step)]; [Transactionless] repeats the text of
    [TransactionWrapper]. *)
Fixpoint repr (s : step) : string :=
  match s with
  | MigrationStep id _ _ => "<MigrationStep #" +:+ pretty id +:+ ">"
  | StepGroup steps =>
      "StepGroup([" +:+
      (fix join (l : list step) : string :=
         match l with
         | [] => ""
         | [x] => repr x
         | x :: l => repr x +:+ ", " +:+ join l
         end) steps +:+ "])"
  | TransactionWrapper s _ => "<TransactionWrapper " +:+ repr s +:+ ">"
  | Transactionless s _ => "<TransactionWrapper " +:+ repr s +:+ ">"
  end.

(** [MigrationStep._execute(cursor, stmt)] and a call of a Python
    function, for the argument [a] of a step.  A statement of a step
    returns no rows, so [_execute] prints nothing. *)
Definition run_action (a : action) : M unit :=
  match a with
  | Sql text effect => _ ← cursor_execute (SQL text effect); mret ()
  | Callable f => λ b,
      let (c, r) := f (connection b) in
      (set_connection c ;; match r with Some e => raise e | None => mret () end) b
  end.

(** [step.apply(backend, force)] and [step.rollback(backend, force)], by
    the class of the step.  Records of level [debug] are left out. *)
Fixpoint run_step (d : direction) (force : bool) (s : step) {struct s} : M unit :=
  match s with
  | MigrationStep id a r =>
      match d with
      | Apply =>
          log (LogInfo (" - applying step " +:+ pretty id)) ;;
          if falsy a then mret ()
          else match a with Some a => run_action a | None => mret () end
      | Rollback =>
          log (LogInfo (" - rolling back step " +:+ pretty id)) ;;
          match r with Some r => run_action r | None => mret () end
      end
  | StepGroup steps =>
      match d with
      | Apply =>
          (fix each (l : list step) : M unit :=
             match l with
             | [] => mret ()
             | item :: l => run_step d force item ;; each l
             end) steps
      | Rollback =>
          (fix each (l : list step) (later : M unit) : M unit :=
             match l with
             | [] => later
             | item :: l => each l (run_step d force item ;; later)
             end) steps (mret ())
      end
  | TransactionWrapper s ignore =>
      except_DatabaseError (with_transaction false (run_step d force s))
        (λ msg, if force || ignores ignore d
                then log (LogException ("Ignored error in " +:+ repr s))
                else raise (DatabaseError msg))
  | Transactionless s ignore =>
      except_DatabaseError (run_step d force s)
        (λ msg, if force || ignores ignore d
                then log (LogException ("Ignored error in " +:+ repr s))
                else raise (DatabaseError msg))
  end.


(** [for item in l: f(item)] *)
Fixpoint for_each {A} (f : A → M unit) (l : list A) : M unit :=
  match l with
  | [] => mret ()
  | item :: l => f item ;; for_each f l
  end.

(** ** Migrations and their loading *)

(** A [Migration] object.  [steps] is [None] until [load] succeeds;
    [_depends] holds, for each declared dependency, the id of the
    migration the registry gave for it, or [None]. *)
Record Migration := Migration_ {
  id : string;
  hash : string;
  path : string;
  source_dir : string;
  steps : option (list step);
  use_transactions : bool;
  _depends : option (gset (option string)) }.

(** [Migration.loaded] *)
Definition loaded (m : Migration) : bool := bool_decide (is_Some (steps m)).

(** What [StepCollector.steps] holds after the migration's source ran: the
    calls of [step()] and [group()] that were not put into a later group,
    in order. *)
Inductive collected :=
  | AddStep (apply rollback : option action) (ignore : option ignore_errors)
  | AddStepGroup (steps : list collected) (ignore : option ignore_errors).

(** One [do_add(use_transactions)] closure: the step, and the next value of
    the collector's [step_id] counter. *)
Fixpoint create_step (use_transactions : bool) (c : collected) (next : nat) {struct c}
    : step * nat :=
  let wrapper := if use_transactions then TransactionWrapper else Transactionless in
  match c with
  | AddStep a r ignore => (wrapper (MigrationStep next a r) ignore, S next)
  | AddStepGroup cs ignore =>
      let '(group, next') :=
        (fix each (l : list collected) (next : nat) : list step * nat :=
           match l with
           | [] => ([], next)
           | c :: l =>
               let '(s, next) := create_step use_transactions c next in
               let '(ss, next) := each l next in
               (s :: ss, next)
           end) cs next in
      (wrapper (StepGroup group) ignore, next')
  end.

(** [StepCollector.create_steps(use_transactions)] *)
Fixpoint create_steps_from (use_transactions : bool) (cs : list collected) (next : nat)
    : list step :=
  match cs with
  | [] => []
  | c :: cs =>
      let '(s, next) := create_step use_transactions c next in
      s :: create_steps_from use_transactions cs next
  end.

Definition create_steps (use_transactions : bool) (cs : list collected) : list step :=
  create_steps_from use_transactions cs 0.

(** The value of the module attribute [__depends__]. *)
Inductive depends_attr :=
  | DependsStr (s : string)
  | DependsIds (ids : list string).

(** The migration's module once its source was read (an SQL file) or
    executed (a Python file): the attributes [load] reads from it, and the
    collector's steps. *)
Record module := Module_ {
  __depends__ : option depends_attr;
  __transactional__ : option bool;
  collector : list collected }.

(** [depends = getattr(self.module, "__depends__", [])], a string made a
    list of one. *)
Definition declared_depends (mdl : module) : list string :=
  match __depends__ mdl with
  | None => []
  | Some (DependsStr s) => [s]
  | Some (DependsIds ids) => ids
  end.

(** [Migration.load], from the point where the source was evaluated:
    [evaluated] is the module, or the exception that reading or executing
    the source raised ([BadMigration] for a Python file that fails to
    import).  [registry] is [Migration.__all_migrations].  The result is
    the migration object after the call, and the exception if one was
    raised. *)
Definition load (registry : gmap string Migration) (evaluated : result module)
    (self : Migration) : Migration * option exn :=
  if loaded self then (self, None)
  else
    match evaluated with
    | inl e => (self, Some e)
    | inr mdl =>
        let depends := declared_depends mdl in
        let resolved : gset (option string) :=
          list_to_set ((λ i, id <$> registry !! i) <$> depends) in
        let use_tx := default true (__transactional__ mdl) in
        if decide (None ∈ resolved) then
          (Migration_ (id self) (hash self) (path self) (source_dir self) None use_tx
             (Some resolved),
           Some (BadMigration ("Could not resolve dependencies in " +:+ path self)))
        else
          (Migration_ (id self) (hash self) (path self) (source_dir self)
             (Some (create_steps use_tx (collector mdl))) use_tx (Some resolved),
           None)
    end.


(** ** The step executor *)

(** The unwinding loop of [process_steps] with its [try]:
    [for step in reversed(executed_steps): getattr(step, reverse)(backend)],
    left at the first exception; a [DatabaseError] is logged, with the
    [id] of the step that was being undone, and not raised again. *)
Fixpoint unwind (d : direction) (undo : list step) : M unit :=
  match undo with
  | [] => mret ()
  | s :: undo =>
      λ b, match run_step (reverse_direction d) false s b with
           | (b', inr _) => unwind d undo b'
           | (b', inl (DatabaseError _)) =>
               log (LogException ("Could not " +:+ direction_name d +:+ " step "
                                    +:+ id_str (step_id s))) b'
           | (b', inl e) => (b', Raise e)
           end
  end.

(** The [for step in steps:] loop of [process_steps]; [executed] is
    [executed_steps]. *)
Fixpoint run_steps (d : direction) (force : bool) (use_transactions : bool)
    (todo executed : list step) : M unit :=
  match todo with
  | [] => mret ()
  | s :: todo =>
      λ b, match run_step d force s b with
           | (b', inr _) => run_steps d force use_transactions todo (executed ++ [s]) b'
           | (b', inl (DatabaseError msg)) =>
               ((if negb (has_transactional_ddl b') || negb use_transactions
                 then unwind d (reverse executed) else mret ()) ;;
                raise (DatabaseError msg)) b'
           | (b', inl e) => (b', Raise e)
           end
  end.

(** [Migration.process_steps(backend, direction, force)] for a loaded
    migration ([self.load()] returns at once). *)
Definition process_steps (self : Migration) (d : direction) (force : bool) : M unit :=
  match steps self with
  | None => raise (AssertionError "steps is not None")
  | Some steps =>
      let steps := match d with Rollback => reverse steps | Apply => steps end in
      if use_transactions self
      then with_transaction false (run_steps d force true steps [])
      else with_disable_transactions (run_steps d force false steps [])
  end.


(** ** [MigrationList] *)

(** A [MigrationList] object: [items], [post_apply] and the set [keys] of
    ids. *)
Record MigrationList := MigrationList_ {
  items : list Migration;
  post_apply : list Migration;
  keys : gset string }.

(** [MigrationList.check_conflicts]: the exception it raises, if any.
    [seen] is the [Counter]. *)
Fixpoint check_conflicts_from (seen : gmap string nat) (l : list Migration) : option exn :=
  match l with
  | [] => None
  | item :: l =>
      let c := S (default 0 (seen !! id item)) in
      if decide (1 < c) then Some (MigrationConflict (id item))
      else check_conflicts_from (<[id item := c]> seen) l
  end.

Definition check_conflicts (self : MigrationList) : option exn :=
  check_conflicts_from ∅ (items self).

(** [MigrationList(items, post_apply)] *)
Definition __init__ (its pa : list Migration) : result MigrationList :=
  let self := MigrationList_ its pa (list_to_set (id <$> its)) in
  match check_conflicts self with
  | Some e => Raise e
  | None => Ok self
  end.

(** An index: an integer or a slice. *)
Inductive index :=
  | Int (i : Z)
  | Slice_ (s : slice).

(** What indexing returns: an item for an integer, a list for a slice. *)
Inductive indexed :=
  | Item (m : Migration)
  | Sublist (l : MigrationList).

(** [MigrationList.__getitem__] *)
Definition __getitem__ (self : MigrationList) (n : index) : result indexed :=
  match n with
  | Slice_ s =>
      match list_getslice (items self) s with
      | inl e => Raise e
      | inr l => match __init__ l [] with inl e => Raise e | inr ml => Ok (Sublist ml) end
      end
  | Int i =>
      match list_getitem (items self) i with
      | inl e => Raise e
      | inr m => Ok (Item m)
      end
  end.

(** [MigrationList.__len__] *)
Definition __len__ (self : MigrationList) : nat := length (items self).

(** The right-hand side of an item assignment: one migration, or an
    iterable of migrations. *)
Inductive assigned :=
  | One (m : Migration)
  | Many (l : list Migration).

(** The first id of [new_ids] that is in [keys] and not in [remove_ids]. *)
Definition conflicting (keys remove_ids : gset string) (new_ids : list string)
    : option string :=
  head (filter (λ i, i ∈ keys ∧ i ∉ remove_ids) new_ids).

(** [MigrationList.__setitem__(n, ob)].  The result is the list after the
    call, and the exception if one was raised.

    For an integer [n], [removing] is a migration and
    [[item.id for item in removing]] iterates over it: a [Migration] has
    no [__iter__], so this raises [TypeError].
    [self.keys.difference_update(removing)] takes away the elements of
    [removing], which are [Migration] objects and never strings, so [keys]
    loses nothing. *)
Definition __setitem__ (self : MigrationList) (n : index) (ob : assigned)
    : MigrationList * option exn :=
  match n with
  | Int i =>
      match list_getitem (items self) i with
      | inl e => (self, Some e)
      | inr removing => (self, Some (TypeError "'Migration' object is not iterable"))
      end
  | Slice_ s =>
      match list_getslice (items self) s with
      | inl e => (self, Some e)
      | inr removing =>
          let remove_ids : gset string := list_to_set (id <$> removing) in
          match ob with
          | One _ => (self, Some (TypeError "'Migration' object is not iterable"))
          | Many new =>
              let new_ids : gset string := list_to_set (id <$> new) in
              match conflicting (keys self) remove_ids (elements new_ids) with
              | Some i => (self, Some (MigrationConflict i))
              | None =>
                  let keys' := keys self ∪ new_ids in
                  match list_setslice (items self) s new with
                  | inl e => (MigrationList_ (items self) (post_apply self) keys', Some e)
                  | inr items' => (MigrationList_ items' (post_apply self) keys', None)
                  end
              end
          end
      end
  end.

(** [MigrationList.__delitem__(i)].  For a slice, [self.items[i]] is a list
    and has no [id]. *)
Definition __delitem__ (self : MigrationList) (i : index) : MigrationList * option exn :=
  match i with
  | Slice_ s =>
      match list_getslice (items self) s with
      | inl e => (self, Some e)
      | inr _ => (self, Some (AttributeError "'list' object has no attribute 'id'"))
      end
  | Int i =>
      match list_getitem (items self) i with
      | inl e => (self, Some e)
      | inr m =>
          if decide (id m ∈ keys self) then
            let keys' := keys self ∖ {[id m]} in
            match list_delitem (items self) i with
            | inl e => (MigrationList_ (items self) (post_apply self) keys', Some e)
            | inr items' => (MigrationList_ items' (post_apply self) keys', None)
            end
          else (self, Some (KeyError (id m)))
      end
  end.

(** [MigrationList.insert(i, x)] *)
Definition insert (self : MigrationList) (i : Z) (x : Migration)
    : MigrationList * option exn :=
  if decide (id x ∈ keys self) then (self, Some (MigrationConflict (id x)))
  else (MigrationList_ (list_insert_at (items self) i x) (post_apply self)
          (keys self ∪ {[id x]}), None).

(** [MutableSequence.append(value)]: [self.insert(len(self), value)] *)
Definition append (self : MigrationList) (x : Migration) : MigrationList * option exn :=
  insert self (Z.of_nat (__len__ self)) x.

(** [MutableSequence.extend(values)], for [values] another sequence than
    [self]: [for v in values: self.append(v)] *)
Fixpoint extend (self : MigrationList) (values : list Migration)
    : MigrationList * option exn :=
  match values with
  | [] => (self, None)
  | v :: values =>
      match append self v with
      | (self', None) => extend self' values
      | r => r
      end
  end.

(** [MigrationList.filter(predicate)] *)
Definition filter_ (self : MigrationList) (predicate : Migration → bool)
    : result MigrationList :=
  __init__ (List.filter predicate (items self)) (post_apply self).

(** [MigrationList.replace(newmigrations)] *)
Definition replace (self : MigrationList) (newmigrations : list Migration)
    : result MigrationList :=
  __init__ newmigrations (post_apply self).


(** ** Loading *)

(** C5: when a declared dependency names an id the registry does not
    know, [load] of a migration that is not loaded yet raises
    [BadMigration]; the migration stays unloaded, so every later [load]
    (from [depends], sorting or [process_steps]) raises it again. *)
Theorem load_unresolved_dependency (registry : gmap string Migration) (mdl : module)
    (self : Migration) (d : string) :
  steps self = None →
  d ∈ declared_depends mdl →
  registry !! d = None →
  ∃ self',
    load registry (Ok mdl) self
      = (self', Some (BadMigration ("Could not resolve dependencies in " +:+ path self)))
    ∧ steps self' = None
    ∧ load registry (Ok mdl) self'
      = (self', Some (BadMigration ("Could not resolve dependencies in " +:+ path self))).
Proof.
  intros Hsteps Hd Hreg.
  assert (None ∈ (list_to_set ((λ i, id <$> registry !! i) <$> declared_depends mdl)
                    : gset (option string))) as Hnone.
  { apply elem_of_list_to_set, list_elem_of_fmap. exists d. by rewrite Hreg. }
  assert (∀ m, steps m = None →
    load registry (Ok mdl) m
    = (Migration_ (id m) (hash m) (path m) (source_dir m) None
         (default true (__transactional__ mdl))
         (Some (list_to_set ((λ i, id <$> registry !! i) <$> declared_depends mdl))),
       Some (BadMigration ("Could not resolve dependencies in " +:+ path m)))) as Hload.
  { intros m Hm. unfold load, loaded, Ok. rewrite Hm.
    rewrite bool_decide_eq_false_2 by (by intros [? ?]).
    cbv beta iota zeta. by rewrite decide_True. }
  eexists. split_and!; [by apply Hload|done|by rewrite Hload].
Qed.

(** ** [MigrationList] *)

Lemma check_conflicts_from_None (seen : gmap string nat) (l : list Migration) :
  (∀ i c, seen !! i = Some c → 1 ≤ c) →
  check_conflicts_from seen l = None ↔
  NoDup (id <$> l) ∧ ∀ x, x ∈ l → seen !! id x = None.
Proof.
  revert seen. induction l as [|x l IH]; intros seen Hseen; simpl.
  - split; [|done]. intros _. split; [constructor|]. by intros ? ?%elem_of_nil.
  - case_decide as Hc.
    + split; [done|]. intros [_ Hx]. rewrite Hx in Hc by left. simpl in Hc. lia.
    + assert (seen !! id x = None) as Hx.
      { destruct (seen !! id x) as [c|] eqn:E; [|done]. apply Hseen in E. simpl in Hc. lia. }
      rewrite IH.
      * rewrite NoDup_cons. split.
        -- intros [Hnd Hl]. split_and!; [|done|].
           ++ intros Hin. apply list_elem_of_fmap in Hin as (y & Hy & Hin).
              specialize (Hl y Hin). rewrite <- Hy, lookup_insert_eq in Hl. done.
           ++ intros y [->|Hy]%elem_of_cons; [done|]. specialize (Hl y Hy).
              apply lookup_insert_None in Hl as [? _]. done.
        -- intros [[Hx' Hnd] Hl]. split; [done|]. intros y Hy.
           apply lookup_insert_None. split; [apply Hl; by right|].
           intros Heq. apply Hx'. apply list_elem_of_fmap. by exists y.
      * intros i c. rewrite Hx. simpl. intros [[_ <-]|[_ ?]]%lookup_insert_Some; eauto.
Qed.

Lemma init_NoDup (its pa : list Migration) :
  NoDup (id <$> its) → __init__ its pa = Ok (MigrationList_ its pa (list_to_set (id <$> its))).
Proof.
  intros Hnd. unfold __init__, check_conflicts. simpl.
  destruct (check_conflicts_from ∅ its) eqn:E; [|done].
  assert (check_conflicts_from ∅ its = None) as E'; [|congruence].
  apply check_conflicts_from_None; [by intros ? ?; rewrite lookup_empty|].
  split; [done|]. intros. apply lookup_empty.
Qed.

Lemma init_Ok (its pa : list Migration) (ml : MigrationList) :
  __init__ its pa = Ok ml →
  NoDup (id <$> its) ∧ ml = MigrationList_ its pa (list_to_set (id <$> its)).
Proof.
  unfold __init__, check_conflicts. simpl.
  destruct (check_conflicts_from ∅ its) eqn:E; [done|]. intros [= <-]. split; [|done].
  apply check_conflicts_from_None in E as [? _]; [done|]. by intros ? ?; rewrite lookup_empty.
Qed.

(** C10: on a list with distinct ids, [filter] and [replace] return a
    list with the same post-apply hooks, and a slice returns a list with
    none. *)
Theorem post_apply_kept_or_dropped (self : MigrationList) :
  NoDup (id <$> items self) →
  (∀ predicate, ∃ ml,
      filter_ self predicate = Ok ml
      ∧ post_apply ml = post_apply self
      ∧ items ml = List.filter predicate (items self))
  ∧ (∀ newmigrations, NoDup (id <$> newmigrations) → ∃ ml,
      replace self newmigrations = Ok ml
      ∧ post_apply ml = post_apply self
      ∧ items ml = newmigrations)
  ∧ (∀ s, slice_step s ≠ Some 0%Z → ∃ ml,
      __getitem__ self (Slice_ s) = Ok (Sublist ml)
      ∧ post_apply ml = []
      ∧ list_getslice (items self) s = Ok (items ml)).
Proof.
  intros Hnd. split_and!.
  - intros predicate. eexists. unfold filter_. rewrite init_NoDup; [done|].
    clear -Hnd. induction (items self) as [|x l IH]; [constructor|].
    simpl in *. apply NoDup_cons in Hnd as [Hx Hnd].
    destruct (predicate x); simpl; [|by apply IH].
    apply NoDup_cons. split; [|by apply IH].
    intros (y & Hy & Hin)%list_elem_of_fmap. apply Hx.
    apply list_elem_of_fmap. exists y. split; [done|].
    apply list_elem_of_In, filter_In in Hin as [Hin _]. by apply list_elem_of_In.
  - intros new Hnew. eexists. unfold replace. by rewrite init_NoDup.
  - intros s Hs. destruct (list_getslice_Ok (items self) s Hs) as [l' Hl'].
    eexists. unfold __getitem__. rewrite Hl'. unfold Ok at 1.
    rewrite init_NoDup by (by eapply list_getslice_NoDup). done.
Qed.

(** Item assignment with an integer index never raises
    [MigrationConflict].  Where the index is in range it
    raises [TypeError], whatever is assigned, and the list is left as it
    was. *)
Lemma setitem_int_never_conflict (self : MigrationList) (i : Z) (ob : assigned) :
  ∃ e, __setitem__ self (Int i) ob = (self, Some e)
    ∧ (∀ c, e ≠ MigrationConflict c)
    ∧ ((- Z.of_nat (length (items self)) ≤ i < Z.of_nat (length (items self)))%Z →
       e = TypeError "'Migration' object is not iterable").
Proof.
  unfold __setitem__, list_getitem.
  repeat case_decide; try lia;
    try (eexists; split_and!; [done|done|intros; lia]).
  all: destruct (items self !! _) eqn:E;
    try (eexists; split_and!; [done|done|done]).
  all: apply lookup_ge_None in E; eexists; split_and!; [done|done|intros; lia].
Qed.

(** ** The step executor *)

(** Induction on steps, with the hypothesis for every member of a group. *)
Lemma step_induction (P : step → Prop) :
  (∀ id a r, P (MigrationStep id a r)) →
  (∀ steps, Forall P steps → P (StepGroup steps)) →
  (∀ s ignore, P s → P (TransactionWrapper s ignore)) →
  (∀ s ignore, P s → P (Transactionless s ignore)) →
  ∀ s, P s.
Proof.
  intros Hm Hg Hw Hl. fix IH 1. intros [id a r|steps|s ignore|s ignore].
  - apply Hm.
  - apply Hg. induction steps as [|x steps IHs]; constructor; [apply IH|apply IHs].
  - apply Hw, IH.
  - apply Hl, IH.
Qed.

Lemma for_each_app {A} (f : A → M unit) (l1 l2 : list A) (b : DatabaseBackend) :
  for_each f (l1 ++ l2) b = (for_each f l1 ;; for_each f l2) b.
Proof.
  revert b. induction l1 as [|x l1 IH]; intros b; [done|]. simpl.
  rewrite bind_assoc. apply bind_ext. intros _ b'. apply IH.
Qed.

(** [StepGroup.apply] and [StepGroup.rollback] as loops. *)
Lemma run_step_group (d : direction) (force : bool) (steps : list step)
    (b : DatabaseBackend) :
  run_step d force (StepGroup steps) b
  = for_each (run_step d force)
      (match d with Apply => steps | Rollback => reverse steps end) b.
Proof.
  destruct d; simpl.
  - revert b. induction steps as [|x l IH]; intros b; [done|]. simpl.
    apply bind_ext. intros _ b'. apply IH.
  - assert (∀ l later b,
      (fix each (l : list step) (later : M unit) : M unit :=
         match l with
         | [] => later
         | item :: l => each l (run_step Rollback force item ;; later)
         end) l later b
      = (for_each (run_step Rollback force) (reverse l) ;; later) b) as Hgen.
    { induction l as [|x l IH]; intros later b'; [done|].
      rewrite IH, reverse_cons. rewrite (bind_unfold (for_each _ (reverse l ++ [x]))).
      rewrite for_each_app. rewrite !bind_unfold.
      destruct (for_each (run_step Rollback force) (reverse l) b') as [b1 [e|[]]]; [done|].
      simpl. rewrite !bind_unfold.
      destruct (run_step Rollback force x b1) as [b2 [e|[]]]; done. }
    rewrite Hgen, bind_unfold.
    by destruct (for_each (run_step Rollback force) (reverse steps) b) as [b1 [e|[]]].
Qed.

Lemma framed_for_each {A} (f : A → M unit) (l : list A) :
  Forall (λ x, keeps framed (f x)) l → keeps framed (for_each f l).
Proof. induction 1; simpl; eauto with framed. Qed.

Lemma framed_run_action (a : action) : keeps framed (run_action a).
Proof.
  destruct a as [text effect|f]; simpl; [eauto with framed|].
  intros b b' r. destruct (f (connection b)) as [c [e|]]; apply framed_bind; eauto with framed.
Qed.

(** Steps leave the backend's flags alone and only add log records. *)
Lemma framed_run_step (d : direction) (force : bool) (s : step) :
  keeps framed (run_step d force s).
Proof.
  induction s as [id a r|steps IH|s ignore IH|s ignore IH] using step_induction.
  - destruct d; simpl.
    + apply framed_bind; [eauto with framed|]. intros _.
      destruct (falsy a); [eauto with framed|].
      destruct a; eauto using framed_run_action with framed.
    + apply framed_bind; [eauto with framed|]. intros _.
      destruct r; eauto using framed_run_action with framed.
  - intros b b' r. rewrite run_step_group. apply framed_for_each.
    destruct d; [done|]. by apply Forall_reverse.
  - simpl. apply framed_except; [eauto with framed|].
    intros msg. destruct (force || ignores ignore d); eauto with framed.
  - simpl. apply framed_except; [done|].
    intros msg. destruct (force || ignores ignore d); eauto with framed.
Qed.

#[global] Hint Resolve framed_run_step : framed.

Lemma framed_unwind (d : direction) (undo : list step) : keeps framed (unwind d undo).
Proof.
  induction undo as [|s undo IH]; simpl; [eauto with framed|].
  intros b b' r.
  destruct (run_step (reverse_direction d) false s b) as [b1 [e|[]]] eqn:E.
  - destruct e; try (intros [= <- _]; by eapply framed_run_step).
    intros Hl. etrans; [by eapply framed_run_step|by eapply framed_log].
  - intros Hu. etrans; [by eapply framed_run_step|by eapply IH].
Qed.

Lemma framed_run_steps d force ut (todo executed : list step) :
  keeps framed (run_steps d force ut todo executed).
Proof.
  revert executed. induction todo as [|s todo IH]; intros executed; simpl;
    [eauto with framed|].
  intros b b' r.
  destruct (run_step d force s b) as [b1 [e|[]]] eqn:E.
  - destruct e; try (intros [= <- _]; by eapply framed_run_step).
    intros Hu. etrans; [by eapply framed_run_step|].
    revert Hu. apply framed_bind; [|eauto with framed].
    destruct (negb (has_transactional_ddl b1) || negb ut);
      eauto using framed_unwind with framed.
  - intros Hu. etrans; [by eapply framed_run_step|by eapply IH].
Qed.

Lemma framed_process_steps self d force : keeps framed (process_steps self d force).
Proof.
  unfold process_steps. destruct (steps self); [|eauto with framed].
  destruct (use_transactions self); eauto using framed_run_steps with framed.
Qed.

(** The rollbacks (for [d = Apply]; the applies for [d = Rollback]) of
    [undo], one after the other until one raises: the backend then, and
    the step and the exception that ended the walk. *)
Fixpoint undo_until_error (d : direction) (undo : list step) (b : DatabaseBackend)
    : DatabaseBackend * option (step * exn) :=
  match undo with
  | [] => (b, None)
  | s :: undo =>
      match run_step (reverse_direction d) false s b with
      | (b', inr _) => undo_until_error d undo b'
      | (b', inl e) => (b', Some (s, e))
      end
  end.

Lemma unwind_undo_until_error (d : direction) (undo : list step) (b : DatabaseBackend) :
  unwind d undo b =
  match undo_until_error d undo b with
  | (b', None) => (b', Ok ())
  | (b', Some (s, DatabaseError _)) =>
      log (LogException ("Could not " +:+ direction_name d +:+ " step "
                           +:+ id_str (step_id s))) b'
  | (b', Some (_, e)) => (b', Raise e)
  end.
Proof.
  revert b. induction undo as [|s undo IH]; intros b; simpl; [done|].
  destruct (run_step (reverse_direction d) false s b) as [b1 [e|[]]]; [|apply IH].
  by destruct e.
Qed.

Lemma undo_until_error_all (d : direction) (undo : list step) (b b' : DatabaseBackend) :
  for_each (run_step (reverse_direction d) false) undo b = (b', Ok ()) →
  undo_until_error d undo b = (b', None).
Proof.
  revert b. induction undo as [|s undo IH]; intros b; simpl; [by intros [= ->]|].
  rewrite bind_unfold.
  destruct (run_step (reverse_direction d) false s b) as [b1 [e|[]]]; [done|apply IH].
Qed.

Lemma run_steps_prefix d force ut (pre rest executed : list step) (b b' : DatabaseBackend) :
  for_each (run_step d force) pre b = (b', Ok ()) →
  run_steps d force ut (pre ++ rest) executed b
  = run_steps d force ut rest (executed ++ pre) b'.
Proof.
  revert executed b. induction pre as [|s pre IH]; intros executed b; simpl.
  - intros [= ->]. by rewrite app_nil_r.
  - rewrite bind_unfold. destruct (run_step d force s b) as [b1 [e|[]]]; [done|].
    intros Hpre. rewrite (IH _ _ Hpre). by rewrite <- app_assoc.
Qed.

Lemma rollback_Ok (b : DatabaseBackend) : ∃ b', rollback b = (b', Ok ()).
Proof. by eexists. Qed.

(** C2, as the code has it.  A migration is applied on a backend that is
    not inside a transaction; the steps [pre] succeed and the next step
    [s] raises a [DatabaseError]; the backend has no transactional DDL or
    the migration disabled transactions.  Then [process_steps] runs the
    rollbacks of [pre] in reverse order until one of them raises
    ([undo_until_error]), runs none of the steps [post], and

    - when no rollback raises, or one raises a [DatabaseError] (which is
      logged and ends the unwinding), raises the original error of [s];
    - when a rollback raises another exception, lets that one through. *)
Theorem process_steps_unwinds (self : Migration) (pre post : list step) (s : step)
    (force : bool) (b b1 b2 b3 : DatabaseBackend) (msg : string) :
  steps self = Some (pre ++ s :: post) →
  _in_transaction b = false →
  has_transactional_ddl b = false ∨ use_transactions self = false →
  (if use_transactions self then begin else rollback) b = (b1, Ok ()) →
  for_each (run_step Apply force) pre b1 = (b2, Ok ()) →
  run_step Apply force s b2 = (b3, Raise (DatabaseError msg)) →
  process_steps self Apply force b =
    let '(b4, stopped) := undo_until_error Apply (reverse pre) b3 in
    let leave b := if use_transactions self then (rollback b).1 else b in
    match stopped with
    | None => (leave b4, Raise (DatabaseError msg))
    | Some (s', DatabaseError _) =>
        (leave (log (LogException ("Could not apply step " +:+ id_str (step_id s'))) b4).1,
         Raise (DatabaseError msg))
    | Some (_, e) => (leave b4, Raise e)
    end.
Proof.
  intros Hsteps Hin Hflag Henter Hpre Hs.
  assert (has_transactional_ddl b3 = has_transactional_ddl b) as Hddl.
  { assert (framed b b1) as [[H1 _] _].
    { destruct (use_transactions self);
        [by eapply framed_begin|by eapply framed_rollback]. }
    assert (framed b1 b2) as [[H2 _] _].
    { eapply framed_for_each; [|done]. apply Forall_forall. intros. apply framed_run_step. }
    assert (framed b2 b3) as [[H3 _] _] by (by eapply framed_run_step).
    congruence. }
  assert (∀ ut, (ut = true → use_transactions self = true) →
                negb (has_transactional_ddl b3) || negb ut = true →
    run_steps Apply force ut (pre ++ s :: post) [] b1 =
    let '(b4, stopped) := undo_until_error Apply (reverse pre) b3 in
    match stopped with
    | None => (b4, Raise (DatabaseError msg))
    | Some (s', DatabaseError _) =>
        ((log (LogException ("Could not apply step " +:+ id_str (step_id s'))) b4).1,
         Raise (DatabaseError msg))
    | Some (_, e) => (b4, Raise e)
    end) as Hloop.
  { intros ut _ Hut. rewrite (run_steps_prefix _ _ _ _ _ _ _ _ Hpre). cbn [run_steps app].
    rewrite Hs. unfold Raise at 1. cbv beta iota.
    rewrite Hut, bind_unfold, unwind_undo_until_error.
    destruct (undo_until_error Apply (reverse pre) b3) as [b4 [[s' e]|]]; [|done].
    by destruct e. }
  unfold process_steps. rewrite Hsteps.
  destruct (use_transactions self) eqn:Hut.
  - unfold with_transaction, transaction. rewrite Hin. unfold with_. simpl _do_begin.
    rewrite bind_unfold, Henter. simpl.
    rewrite Hloop; [|done|].
    2:{ destruct Hflag as [Hf|Hf]; [|done]. by rewrite Hddl, Hf. }
    destruct (undo_until_error Apply (reverse pre) b3) as [b4 [[s' e]|]]; [|done].
    by destruct e.
  - unfold with_disable_transactions, with_. rewrite Henter.
    rewrite Hloop; [|done|by rewrite orb_true_r].
    destruct (undo_until_error Apply (reverse pre) b3) as [b4 [[s' e]|]]; [|done].
    by destruct e.
Qed.


(** ** The ids of a [MigrationList] *)

(** What the constructor establishes: the ids of the items are distinct
    and [keys] is their set. *)
Definition consistent (self : MigrationList) : Prop :=
  NoDup (id <$> items self) ∧ keys self = list_to_set (id <$> items self).

Lemma check_conflicts_from_Some (seen : gmap string nat) (l : list Migration) (e : exn) :
  (∀ i c, seen !! i = Some c → 1 ≤ c) →
  check_conflicts_from seen l = Some e →
  ∃ pre x post, l = pre ++ x :: post ∧ e = MigrationConflict (id x)
    ∧ (id x ∈ id <$> pre ∨ is_Some (seen !! id x))
    ∧ NoDup (id <$> pre) ∧ ∀ y, y ∈ pre → seen !! id y = None.
Proof.
  revert seen. induction l as [|x l IH]; intros seen Hseen; simpl; [done|].
  case_decide as Hc.
  - intros [= <-]. exists [], x, l. split_and!; [done|done| |constructor|].
    + right. destruct (seen !! id x); [by eexists|]. simpl in Hc. lia.
    + by intros y ?%elem_of_nil.
  - assert (seen !! id x = None) as Hx.
    { destruct (seen !! id x) as [c|] eqn:E; [|done]. apply Hseen in E. simpl in Hc. lia. }
    intros Hl. apply IH in Hl as (pre & y & post & -> & -> & Hy & Hnd & Hpre).
    2:{ intros i c. rewrite Hx. simpl. intros [[_ <-]|[_ ?]]%lookup_insert_Some; eauto. }
    assert (∀ z, z ∈ pre → id z ≠ id x ∧ seen !! id z = None) as Hpre'.
    { intros z Hz. specialize (Hpre z Hz). by apply lookup_insert_None in Hpre as [? ?]. }
    exists (x :: pre), y, post. split_and!; [done|done| | |].
    + destruct Hy as [Hy|Hy].
      * left. simpl. by right.
      * destruct (decide (id x = id y)) as [Heq|Hne].
        -- left. simpl. rewrite Heq. left.
        -- right. by rewrite lookup_insert_ne in Hy.
    + simpl. constructor; [|done].
      intros (z & Hz & Hin)%list_elem_of_fmap. by destruct (Hpre' z Hin).
    + intros z [->|Hz]%elem_of_cons; [done|]. by apply Hpre'.
Qed.

(** The constructor accepts exactly the lists with distinct ids, which it
    keeps as they are; otherwise it raises [MigrationConflict] with the
    id of the first item whose id an earlier item has. *)
Theorem init_conflict (its pa : list Migration) :
  match __init__ its pa with
  | inr ml => consistent ml ∧ items ml = its ∧ post_apply ml = pa
  | inl e =>
      ∃ pre x post, its = pre ++ x :: post ∧ e = MigrationConflict (id x)
        ∧ id x ∈ id <$> pre ∧ NoDup (id <$> pre)
  end.
Proof.
  destruct (__init__ its pa) as [e|ml] eqn:E.
  - unfold __init__, check_conflicts in E. simpl in E.
    destruct (check_conflicts_from ∅ its) as [e'|] eqn:E'; [|done].
    injection E as <-.
    apply check_conflicts_from_Some in E' as (pre & x & post & -> & -> & Hx & Hnd & _).
    2:{ by intros ? ?; rewrite lookup_empty. }
    exists pre, x, post. split_and!; [done|done| |done].
    destruct Hx as [?|[? Hx]]; [done|]. by rewrite lookup_empty in Hx.
  - apply init_Ok in E as [Hnd ->]. done.
Qed.

Lemma list_insert_at_perm {A} (l : list A) (i : Z) (x : A) : list_insert_at l i x ≡ₚ x :: l.
Proof.
  unfold list_insert_at. rewrite <- Permutation_middle. by rewrite take_drop.
Qed.

Lemma list_insert_at_end {A} (l : list A) (x : A) :
  list_insert_at l (Z.of_nat (length l)) x = l ++ [x].
Proof.
  unfold list_insert_at. rewrite decide_False by lia.
  rewrite Z.min_id, Nat2Z.id, firstn_all, drop_all. done.
Qed.

Lemma consistent_add (its its' pa : list Migration) (ks : gset string) (x : Migration) :
  consistent (MigrationList_ its pa ks) → id x ∉ ks → its' ≡ₚ x :: its →
  consistent (MigrationList_ its' pa (ks ∪ {[id x]})).
Proof.
  intros [Hnd Hk] Hx Hp. simpl in *. split; simpl.
  - rewrite Hp. simpl. constructor; [|done]. rewrite Hk in Hx.
    by rewrite elem_of_list_to_set in Hx.
  - rewrite Hk, Hp. simpl. set_solver.
Qed.

Lemma insert_held (self : MigrationList) (i : Z) (x : Migration) :
  consistent self → id x ∈ id <$> items self →
  insert self i x = (self, Some (MigrationConflict (id x))).
Proof.
  intros [_ Hk] Hx. unfold insert. rewrite Hk.
  rewrite decide_True; [done|]. by apply elem_of_list_to_set.
Qed.

Lemma insert_fresh (self : MigrationList) (i : Z) (x : Migration) :
  consistent self → id x ∉ id <$> items self →
  ∃ self', insert self i x = (self', None)
    ∧ consistent self' ∧ items self' = list_insert_at (items self) i x
    ∧ post_apply self' = post_apply self.
Proof.
  intros Hc Hx. pose proof Hc as [Hnd Hk]. unfold insert. rewrite Hk.
  rewrite decide_False by (by rewrite elem_of_list_to_set).
  eexists. split_and!; [done| |done|done].
  rewrite <- Hk. destruct self as [its pa ks]. simpl in *.
  apply (consistent_add its); [done| |apply list_insert_at_perm].
  by rewrite Hk, elem_of_list_to_set.
Qed.

(** [insert] on a consistent list: a migration whose id the list holds
    is refused with [MigrationConflict] and the list is left as it was;
    any other is put in, the list stays consistent and its post-apply
    hooks are kept. *)
Theorem insert_conflict (self : MigrationList) (i : Z) (x : Migration) :
  consistent self →
  if decide (id x ∈ id <$> items self)
  then insert self i x = (self, Some (MigrationConflict (id x)))
  else ∃ self', insert self i x = (self', None)
         ∧ consistent self' ∧ items self' = list_insert_at (items self) i x
         ∧ items self' ≡ₚ x :: items self ∧ post_apply self' = post_apply self.
Proof.
  intros Hc. case_decide as Hx; [by apply insert_held|].
  destruct (insert_fresh self i x Hc Hx) as (self' & Hins & Hc' & Hit & Hpa).
  exists self'. split_and!; [done..| |done]. rewrite Hit. apply list_insert_at_perm.
Qed.

(** [extend] appends the values one by one and stops at the first whose
    id the list holds by then: the values before it stay appended when
    [MigrationConflict] is raised.  The list is consistent either way. *)
Theorem extend_until_conflict (self : MigrationList) (values : list Migration) :
  consistent self →
  match extend self values with
  | (self', None) => consistent self' ∧ items self' = items self ++ values
  | (self', Some e) =>
      consistent self'
      ∧ ∃ pre x post, values = pre ++ x :: post ∧ e = MigrationConflict (id x)
          ∧ items self' = items self ++ pre ∧ id x ∈ id <$> items self ++ pre
  end.
Proof.
  revert self. induction values as [|v values IH]; intros self Hc; simpl.
  { by rewrite app_nil_r. }
  unfold append, __len__.
  destruct (decide (id v ∈ id <$> items self)) as [Hv|Hv].
  - rewrite (insert_held self _ v Hc Hv). split; [done|]. exists [], v, values.
    by rewrite !app_nil_r.
  - destruct (insert_fresh self (Z.of_nat (length (items self))) v Hc Hv)
      as (self' & -> & Hc' & Hitems & _).
    rewrite list_insert_at_end in Hitems.
    specialize (IH self' Hc'). destruct (extend self' values) as [self'' [e|]].
    + destruct IH as (Hc'' & pre & x & post & -> & -> & Hit & Hx). split; [done|].
      exists (v :: pre), x, post. rewrite Hit, Hitems, <- !app_assoc in *. done.
    + destruct IH as [Hc'' Hit]. split; [done|]. by rewrite Hit, Hitems, <- app_assoc.
Qed.

Lemma filter_all {A} (P : A → Prop) `{∀ x, Decision (P x)} (l : list A) :
  (∀ x, x ∈ l → P x) → filter P l = l.
Proof.
  induction l as [|x l IH]; intros Hall; [done|].
  rewrite filter_cons_True by (apply Hall; left). f_equal. apply IH.
  intros y Hy. apply Hall. by right.
Qed.

(** [del ml[i]] for an integer [i] in range takes the item and its id
    away and keeps the list consistent; out of range it raises
    [IndexError] and changes nothing. *)
Theorem delitem_consistent (self : MigrationList) (i : Z) :
  consistent self →
  match list_getitem (items self) i with
  | inr m =>
      ∃ self', __delitem__ self (Int i) = (self', None)
        ∧ consistent self' ∧ items self' ≡ₚ filter (λ y, id y ≠ id m) (items self)
        ∧ id m ∉ keys self'
  | inl e => __delitem__ self (Int i) = (self, Some e)
  end.
Proof.
  intros [Hnd Hk]. unfold __delitem__.
  destruct (list_getitem (items self) i) as [e|m] eqn:E; [done|].
  unfold list_getitem in E. unfold list_delitem. cbv zeta in *.
  set (j := if decide (i < 0)%Z then (i + Z.of_nat (length (items self)))%Z else i) in *.
  case_decide as Hj; [|done].
  destruct (items self !! Z.to_nat j) as [m'|] eqn:Hm; [|done]. injection E as ->.
  rewrite decide_True.
  2:{ rewrite Hk, elem_of_list_to_set. apply list_elem_of_fmap. exists m.
      split; [done|]. by eapply list_elem_of_lookup_2. }
  eexists. split; [done|]. simpl.
  pose proof (take_drop_middle _ _ _ Hm) as Hsplit.
  assert (delete (Z.to_nat j) (items self)
          = take (Z.to_nat j) (items self) ++ drop (S (Z.to_nat j)) (items self)) as Hdel.
  { apply delete_take_drop. }
  rewrite <- Hsplit in Hnd. rewrite fmap_app, fmap_cons in Hnd.
  apply NoDup_app in Hnd as (Hnd1 & Hdisj & Hnd2). apply NoDup_cons in Hnd2 as [Hm2 Hnd2].
  assert (id m ∉ id <$> take (Z.to_nat j) (items self)) as Hm1.
  { intros Hin. apply (Hdisj _ Hin). left. }
  assert (filter (λ y, id y ≠ id m) (items self)
          = take (Z.to_nat j) (items self) ++ drop (S (Z.to_nat j)) (items self)) as Hfil.
  { rewrite <- Hsplit at 1. rewrite filter_app, filter_cons_False by (simpl; auto).
    f_equal; apply filter_all; intros y Hy Heq.
    - apply Hm1. rewrite <- Heq. apply list_elem_of_fmap. by exists y.
    - apply Hm2. rewrite <- Heq. apply list_elem_of_fmap. by exists y. }
  rewrite Hdel. split_and!.
  - split; simpl.
    + rewrite fmap_app. apply NoDup_app. split_and!; [done| |done].
      intros y Hy1 Hy2. apply (Hdisj y Hy1). by right.
    + rewrite Hk. rewrite <- Hsplit at 1. rewrite !fmap_app, fmap_cons.
      rewrite !list_to_set_app_L, list_to_set_cons.
      apply set_eq. intros y. rewrite !elem_of_difference, !elem_of_union,
        elem_of_singleton, !elem_of_list_to_set.
      split; [tauto|]. intros [Hy|Hy]; (split; [tauto|]); intros ->; tauto.
  - by rewrite Hfil.
  - rewrite elem_of_difference, elem_of_singleton. tauto.
Qed.

(** ** Slice assignment *)

Lemma slice_indices_contiguous (s : slice) (n : Z) :
  slice_step s = None → (0 ≤ n)%Z →
  ∃ start stop, slice_indices s n = Ok (start, stop, 1%Z)
    ∧ (0 ≤ start ≤ n)%Z ∧ (0 ≤ stop ≤ n)%Z.
Proof.
  intros Hs Hn. unfold slice_indices. rewrite Hs. simpl.
  do 2 eexists. split; [reflexivity|].
  destruct (slice_start s), (slice_stop s); repeat case_decide; lia.
Qed.

Lemma check_conflicts_MigrationConflict (self : MigrationList) (e : exn) :
  check_conflicts self = Some e → ∃ i, e = MigrationConflict i.
Proof.
  unfold check_conflicts. generalize (∅ : gmap string nat).
  induction (items self) as [|x l IH]; intros seen; simpl; [done|].
  case_decide; [|by apply IH]. intros [= <-]. by eexists.
Qed.

Lemma conflicting_None (ks remove_ids : gset string) (new_ids : list string) :
  (∀ i, i ∈ new_ids → i ∈ ks → i ∈ remove_ids) →
  conflicting ks remove_ids new_ids = None.
Proof.
  intros Hnew. unfold conflicting.
  destruct (head _) as [i|] eqn:E; [|done].
  apply head_Some_elem_of, list_elem_of_filter in E as [[Hk Hr] Hi].
  destruct Hr. by apply Hnew.
Qed.

(** Slice assignment does not look for repeated ids among the new items.
    With a slice of step 1 and new items whose ids the list does not
    hold, the assignment goes through whatever the new items are; when
    two of them share an id the list ends up with a repeated id, which
    [check_conflicts] then reports. *)
Theorem setitem_slice_unchecked (self : MigrationList) (s : slice) (new : list Migration) :
  slice_step s = None →
  (∀ x, x ∈ new → id x ∉ keys self) →
  ∃ self' pre post,
    __setitem__ self (Slice_ s) (Many new) = (self', None)
    ∧ items self' = pre ++ new ++ post
    ∧ (¬ NoDup (id <$> new) → ∃ i, check_conflicts self' = Some (MigrationConflict i)).
Proof.
  intros Hs Hfresh. unfold __setitem__, list_getslice, list_setslice.
  destruct (slice_indices_contiguous s (Z.of_nat (length (items self))) Hs)
    as (start & stop & -> & _); [lia|].
  unfold Ok at 1. cbv beta iota. unfold Ok at 1. cbv beta iota.
  rewrite conflicting_None.
  2:{ intros i Hi%elem_of_elements Hk. apply elem_of_list_to_set in Hi.
      apply list_elem_of_fmap in Hi as (x & -> & Hx). by destruct (Hfresh x Hx). }
  unfold Ok. cbv beta iota zeta. rewrite decide_True by done. cbv beta iota zeta.
  do 3 eexists. split_and!; [done|done|].
  intros Hdup. unfold check_conflicts. simpl.
  destruct (check_conflicts_from ∅ _) as [e|] eqn:E.
  - apply (check_conflicts_MigrationConflict
             (MigrationList_ _ (post_apply self) (keys self ∪ list_to_set (id <$> new)))) in E
      as [i ->]. by exists i.
  - apply check_conflicts_from_None in E as [Hnd _]; [|by intros ? ?; rewrite lookup_empty].
    rewrite !fmap_app in Hnd. apply NoDup_app in Hnd as (_ & _ & Hnd).
    apply NoDup_app in Hnd as (Hnd & _ & _). done.
Qed.

(** Slice assignment never takes an id out of [keys]:
    [keys.difference_update] is given the removed migrations, not their
    ids.  On a consistent list, after a slice of step 1 was replaced by
    items that do not bring back the id of a removed migration [m], the
    list no longer holds [m] and still refuses to take it back. *)
Theorem setitem_slice_stale_key (self : MigrationList) (s : slice)
    (removing new : list Migration) (m : Migration) :
  consistent self →
  slice_step s = None →
  list_getslice (items self) s = Ok removing →
  m ∈ removing →
  id m ∉ id <$> new →
  (∀ x, x ∈ new → id x ∈ keys self → id x ∈ id <$> removing) →
  ∃ self',
    __setitem__ self (Slice_ s) (Many new) = (self', None)
    ∧ id m ∉ id <$> items self'
    ∧ ∀ i, insert self' i m = (self', Some (MigrationConflict (id m))).
Proof.
  intros [Hnd Hk] Hs Hget Hm Hnew Hcheck.
  unfold __setitem__. rewrite Hget. unfold Ok at 1. cbv beta iota zeta.
  rewrite conflicting_None.
  2:{ intros i Hi%elem_of_elements Hkeys. apply elem_of_list_to_set in Hi.
      apply list_elem_of_fmap in Hi as (x & -> & Hx).
      apply elem_of_list_to_set. by apply Hcheck. }
  unfold list_getslice, list_setslice in *.
  destruct (slice_indices_contiguous s (Z.of_nat (length (items self))) Hs)
    as (start & stop & Hind & Hstart & Hstop); [lia|].
  rewrite Hind in *. unfold Ok in *. cbv beta iota zeta in *. injection Hget as <-.
  rewrite decide_True by done. cbv beta iota zeta.
  apply list_elem_of_omap in Hm as (z & Hz & Hzm). simpl in Hzm.
  apply py_range_bounds in Hz as [Hz _]; [|done]. specialize (Hz ltac:(lia)).
  eexists. split; [done|]. simpl.
  assert (id m ∈ keys self) as Hmk.
  { rewrite Hk, elem_of_list_to_set. apply list_elem_of_fmap. exists m.
    split; [done|]. by eapply list_elem_of_lookup_2. }
  split.
  - rewrite !fmap_app, !elem_of_app. intros [Hin|[Hin|Hin]]; [|done|].
    + apply list_elem_of_fmap in Hin as (y & Hy & Hin).
      apply list_elem_of_lookup in Hin as [q Hq].
      apply lookup_take_Some in Hq as [Hq Hlt].
      assert (Z.to_nat z = q); [|lia].
      eapply NoDup_lookup; [exact Hnd|..]; rewrite list_lookup_fmap.
      * by rewrite Hzm.
      * by rewrite Hq, Hy.
    + apply list_elem_of_fmap in Hin as (y & Hy & Hin).
      apply list_elem_of_lookup in Hin as [q Hq].
      rewrite lookup_drop in Hq.
      assert (Z.to_nat z = Z.to_nat (start `max` stop) + q); [|lia].
      eapply NoDup_lookup; [exact Hnd|..]; rewrite list_lookup_fmap.
      * by rewrite Hzm.
      * by rewrite Hq, Hy.
  - intros i. unfold insert. simpl. rewrite decide_True; [done|].
    apply elem_of_union. by left.
Qed.


(** ** More on the step executor *)

(** The steps in the order [process_steps] runs them. *)
Definition in_direction (d : direction) (steps : list step) : list step :=
  match d with Apply => steps | Rollback => reverse steps end.

(** How [process_steps] enters and leaves its [with transaction():]. *)
Definition enter (self : Migration) : M unit :=
  if use_transactions self then begin else rollback.

Lemma run_steps_all d force ut (todo executed : list step) (b b' : DatabaseBackend) :
  for_each (run_step d force) todo b = (b', Ok ()) →
  run_steps d force ut todo executed b = (b', Ok ()).
Proof.
  intros Hall. rewrite <- (app_nil_r todo).
  by rewrite (run_steps_prefix _ _ _ _ _ _ _ _ Hall).
Qed.

(** A migration whose steps all succeed: [process_steps] runs them in
    order for [apply] and in reverse order for [rollback], inside one
    transaction that it commits, or after a rollback of the connection
    when the migration disabled transactions. *)
Theorem process_steps_success (self : Migration) (d : direction) (force : bool)
    (steps : list step) (b b1 b2 : DatabaseBackend) :
  migrations.steps self = Some steps →
  _in_transaction b = false →
  enter self b = (b1, Ok ()) →
  for_each (run_step d force) (in_direction d steps) b1 = (b2, Ok ()) →
  process_steps self d force b
  = if use_transactions self then commit b2 else (b2, Ok ()).
Proof.
  intros Hsteps Hin Henter Hall. unfold process_steps, enter in *. rewrite Hsteps.
  assert (match d with Rollback => reverse steps | Apply => steps end = in_direction d steps)
    as -> by (by destruct d).
  destruct (use_transactions self).
  - unfold with_transaction, transaction. rewrite Hin. unfold with_. simpl _do_begin.
    rewrite bind_unfold, Henter. simpl.
    by rewrite (run_steps_all _ _ _ _ _ _ _ Hall).
  - unfold with_disable_transactions, with_. rewrite Henter.
    by rewrite (run_steps_all _ _ _ _ _ _ _ Hall).
Qed.

(** No unwinding where the transaction does the work.  When a step
    fails with a [DatabaseError] on a backend with transactional DDL in a
    migration that uses transactions, or fails with any other exception,
    [process_steps] invokes no rollback action and runs no later step:
    it leaves the transaction, rolling it back, and raises the exception
    of the step. *)
Theorem process_steps_no_unwind (self : Migration) (d : direction) (force : bool)
    (steps pre post : list step) (s : step) (b b1 b2 b3 : DatabaseBackend) (e : exn) :
  migrations.steps self = Some steps →
  in_direction d steps = pre ++ s :: post →
  _in_transaction b = false →
  enter self b = (b1, Ok ()) →
  for_each (run_step d force) pre b1 = (b2, Ok ()) →
  run_step d force s b2 = (b3, Raise e) →
  (∀ msg, e ≠ DatabaseError msg)
  ∨ (has_transactional_ddl b = true ∧ use_transactions self = true) →
  process_steps self d force b
  = (if use_transactions self then (rollback b3).1 else b3, Raise e).
Proof.
  intros Hsteps Hdir Hin Henter Hpre Hs He. unfold enter in Henter.
  assert (has_transactional_ddl b3 = has_transactional_ddl b) as Hddl.
  { assert (framed b b1) as [[H1 _] _].
    { destruct (use_transactions self);
        [by eapply framed_begin|by eapply framed_rollback]. }
    assert (framed b1 b2) as [[H2 _] _].
    { eapply framed_for_each; [|done]. apply Forall_forall. intros. apply framed_run_step. }
    assert (framed b2 b3) as [[H3 _] _] by (by eapply framed_run_step).
    congruence. }
  assert (run_steps d force (use_transactions self) (pre ++ s :: post) [] b1
          = (b3, Raise e)) as Hloop.
  { rewrite (run_steps_prefix _ _ _ _ _ _ _ _ Hpre). cbn [run_steps app].
    rewrite Hs. unfold Raise at 1. cbv beta iota.
    destruct e; try done. destruct He as [He|[Hd Hut]]; [by destruct (He msg)|].
    by rewrite Hddl, Hd, Hut. }
  unfold process_steps. rewrite Hsteps.
  assert (match d with Rollback => reverse steps | Apply => steps end = pre ++ s :: post)
    as -> by (by destruct d).
  destruct (use_transactions self) eqn:Hut.
  - unfold with_transaction, transaction. rewrite Hin. unfold with_. simpl _do_begin.
    rewrite bind_unfold, Henter. simpl. by rewrite Hloop.
  - unfold with_disable_transactions, with_. rewrite Henter. by rewrite Hloop.
Qed.

(** [process_steps] never takes or gives up the lock, never touches
    [_internal_schema_updated] or [has_transactional_ddl], and only adds
    to the log, whatever the steps do and however it ends. *)
Theorem process_steps_frame (self : Migration) (d : direction) (force : bool)
    (b : DatabaseBackend) :
  let b' := (process_steps self d force b).1 in
  _is_locked b' = _is_locked b
  ∧ _internal_schema_updated b' = _internal_schema_updated b
  ∧ has_transactional_ddl b' = has_transactional_ddl b
  ∧ logged b `prefix_of` logged b'.
Proof.
  destruct (process_steps self d force b) as [b' r] eqn:E. simpl.
  apply framed_process_steps in E as [(? & ? & ?) ?]. done.
Qed.

(** ** Forced runs *)

(** The steps a collector creates: a wrapper around a step or a group. *)
Definition wrapped (s : step) : Prop :=
  match s with
  | TransactionWrapper _ _ | Transactionless _ _ => True
  | _ => False
  end.

Lemma create_step_wrapped ut c next : wrapped (create_step ut c next).1.
Proof.
  destruct c as [a r ignore|cs ignore]; simpl; [by destruct ut|].
  destruct ((fix each (l : list collected) (next : nat) : list step * nat := _) cs next).
  by destruct ut.
Qed.

Lemma create_steps_from_wrapped ut cs next : Forall wrapped (create_steps_from ut cs next).
Proof.
  revert next. induction cs as [|c cs IH]; intros next; simpl; [constructor|].
  pose proof (create_step_wrapped ut c next) as Hw.
  destruct (create_step ut c next) as [s next']. constructor; [done|apply IH].
Qed.

Lemma forced_step d (s : step) (b : DatabaseBackend) (msg : string) :
  wrapped s → (run_step d true s b).2 ≠ Raise (DatabaseError msg).
Proof.
  destruct s as [| |s ignore|s ignore]; try done; intros _; simpl;
    unfold except_DatabaseError.
  - destruct (with_transaction false (run_step d true s) b) as [b1 [e|[]]]; [|done].
    by destruct e.
  - destruct (run_step d true s b) as [b1 [e|[]]]; [|done]. by destruct e.
Qed.

Lemma forced_steps d ut (todo executed : list step) (b : DatabaseBackend) :
  Forall wrapped todo →
  run_steps d true ut todo executed b = for_each (run_step d true) todo b
  ∧ ∀ msg, (for_each (run_step d true) todo b).2 ≠ Raise (DatabaseError msg).
Proof.
  intros Hall. revert executed b.
  induction Hall as [|s todo Hs _ IH]; intros executed b; simpl; [done|].
  rewrite bind_unfold. pose proof (forced_step d s b) as Hf.
  destruct (run_step d true s b) as [b1 [e|[]]]; [|apply IH].
  simpl in Hf. split; [|intros msg; by apply Hf].
  destruct e; try done. by destruct (Hf msg Hs).
Qed.

(** With [force], a failing step stops nothing.  For the steps a
    collector created, every [DatabaseError] of a step is caught by its
    wrapper, so [process_steps] runs all the steps, never unwinds, and
    the loop over the steps never ends in a [DatabaseError]. *)
Theorem process_steps_forced (self : Migration) (d : direction) (ut : bool)
    (cs : list collected) (b : DatabaseBackend) :
  steps self = Some (create_steps ut cs) →
  let todo := in_direction d (create_steps ut cs) in
  process_steps self d true b
  = (if use_transactions self
     then with_transaction false (for_each (run_step d true) todo)
     else with_disable_transactions (for_each (run_step d true) todo)) b
  ∧ ∀ b1 msg, (for_each (run_step d true) todo b1).2 ≠ Raise (DatabaseError msg).
Proof.
  intros Hsteps todo.
  assert (Forall wrapped todo) as Hw.
  { unfold todo, in_direction. pose proof (create_steps_from_wrapped ut cs 0) as Hw.
    destruct d; [done|]. by apply Forall_reverse. }
  split; [|intros b1 msg; by apply (forced_steps d true todo [] b1)].
  unfold process_steps. rewrite Hsteps.
  assert (match d with Rollback => reverse (create_steps ut cs) | Apply => create_steps ut cs end
          = todo) as -> by (by destruct d).
  destruct (use_transactions self).
  - unfold with_transaction, with_. destruct (_do_begin _ b) as [b1 [e|x]]; [done|].
    by destruct (forced_steps d true todo [] b1 Hw) as [-> _].
  - unfold with_disable_transactions, with_. destruct (rollback b) as [b1 [e|x]]; [done|].
    by destruct (forced_steps d false todo [] b1 Hw) as [-> _].
Qed.

(** ** Loading once *)

(** A migration is read once: after a [load] that returned, every later
    [load] returns at once and leaves the migration as it is, whatever
    the file and the registry have become. *)
Theorem load_once (registry registry' : gmap string Migration)
    (evaluated evaluated' : result module) (self self' : Migration) :
  load registry evaluated self = (self', None) →
  load registry' evaluated' self' = (self', None).
Proof.
  unfold load at 1. destruct (loaded self) eqn:Hl.
  - intros [= <-]. unfold load. by rewrite Hl.
  - destruct evaluated as [e|mdl]; [done|]. cbv zeta. case_decide; [done|].
    intros [= <-]. unfold load, loaded. cbn [steps].
    by rewrite bool_decide_eq_true_2 by (by eexists).
Qed.

(** ** The ids of the created steps *)

(** The ids of the [MigrationStep]s inside a step, in order. *)
Fixpoint step_ids (s : step) : list nat :=
  match s with
  | MigrationStep id _ _ => [id]
  | StepGroup steps =>
      (fix each (l : list step) : list nat :=
         match l with
         | [] => []
         | x :: l => step_ids x ++ each l
         end) steps
  | TransactionWrapper s _ | Transactionless s _ => step_ids s
  end.

(** The number of [MigrationStep]s that an entry of the collector creates. *)
Fixpoint count_steps (c : collected) : nat :=
  match c with
  | AddStep _ _ _ => 1
  | AddStepGroup cs _ =>
      (fix each (l : list collected) : nat :=
         match l with
         | [] => 0
         | c :: l => count_steps c + each l
         end) cs
  end.

Lemma collected_induction (P : collected → Prop) :
  (∀ a r ignore, P (AddStep a r ignore)) →
  (∀ cs ignore, Forall P cs → P (AddStepGroup cs ignore)) →
  ∀ c, P c.
Proof.
  intros Hs Hg. fix IH 1. intros [a r ignore|cs ignore].
  - apply Hs.
  - apply Hg. induction cs as [|c cs IHcs]; constructor; [apply IH|apply IHcs].
Qed.

Lemma create_step_ids (ut : bool) (c : collected) (next : nat) :
  step_ids (create_step ut c next).1 = seq next (count_steps c)
  ∧ (create_step ut c next).2 = next + count_steps c.
Proof.
  revert next. induction c as [a r ignore|cs ignore IH] using collected_induction;
    intros next.
  - simpl. split; [by destruct ut|lia].
  - simpl.
    assert (∀ next,
      let r := (fix each (l : list collected) (next : nat) : list step * nat :=
                  match l with
                  | [] => ([], next)
                  | c :: l =>
                      let '(s, next) := create_step ut c next in
                      let '(ss, next) := each l next in
                      (s :: ss, next)
                  end) cs next in
      step_ids (StepGroup r.1)
      = seq next ((fix each (l : list collected) : nat :=
                     match l with
                     | [] => 0
                     | c :: l => count_steps c + each l
                     end) cs)
      ∧ r.2 = next + (fix each (l : list collected) : nat :=
                        match l with
                        | [] => 0
                        | c :: l => count_steps c + each l
                        end) cs) as Hgroup.
    { clear next. induction IH as [|c cs Hc _ IHcs]; intros next; [simpl; split; [done|lia]|].
      cbv zeta. cbn [fst snd].
      specialize (Hc next). destruct (create_step ut c next) as [s next1].
      destruct Hc as [Hs Hn]. simpl in Hs, Hn.
      specialize (IHcs next1). cbv zeta in IHcs.
      destruct ((fix each (l : list collected) (next : nat) : list step * nat := _) cs next1)
        as [ss next2].
      destruct IHcs as [Hss Hn2]. simpl in Hss, Hn2. simpl.
      rewrite Hs, Hss, Hn2, Hn, seq_app. split; [done|lia]. }
    specialize (Hgroup next). cbv zeta in Hgroup.
    destruct ((fix each (l : list collected) (next : nat) : list step * nat := _) cs next)
      as [group next'].
    destruct Hgroup as [Hids Hn]. simpl in Hn. split; [|done]. by destruct ut.
Qed.

(** The steps of a migration are numbered from 0 in the order in which
    [create_steps] creates them: the entries of the collector in the
    order of its dict, and the members of a group in the order of the
    group.  So the ids inside the created steps, read from left to right,
    are [0, 1, ..., n - 1].  This is the order of the entries as they stand
    when the steps are created, not the order of the [step()] calls: a
    step that a later [group()] has taken up is numbered with its group. *)
Theorem create_steps_ids (ut : bool) (cs : list collected) :
  concat (step_ids <$> create_steps ut cs)
  = seq 0 (sum_list (count_steps <$> cs)).
Proof.
  unfold create_steps. generalize 0 as next.
  induction cs as [|c cs IH]; intros next; simpl; [done|].
  destruct (create_step_ids ut c next) as [Hs Hn].
  destruct (create_step ut c next) as [s next']. simpl in *.
  by rewrite Hs, IH, Hn, seq_app.
Qed.


(** ** The dependency graph: [ancestors], [descendants] and [heads] *)

Section dependencies.
(** Migration objects are hashed and compared by identity: [Obj] is the
    type of the objects, and [depends m] is the set [m.depends] of a
    migration that loads. *)
Context `{Countable Obj} (depends : Obj → gset Obj).

(** [set.pop()] takes an arbitrary element out of a set.  The element is
    picked by a number: every element of a non-empty set is picked by
    some number. *)
Definition set_pop (choice : nat) (s : gset Obj) : option Obj :=
  elements s !! (choice mod length (elements s)).

(** The [while to_process:] loop of [ancestors], for at most [fuel] pops;
    [choices k] picks the element of the pop number [k]. *)
Fixpoint ancestors_loop (choices : nat → nat) (fuel k : nat) (to_process deps : gset Obj)
    : option (gset Obj) :=
  if decide (to_process = ∅) then Some deps
  else
    match fuel with
    | 0 => None
    | S fuel =>
        match set_pop (choices k) to_process with
        | None => None
        | Some m =>
            let deps := deps ∪ {[m]} in
            let new := depends m ∖ deps in
            ancestors_loop choices fuel (S k) (to_process ∖ {[m]} ∪ new) (deps ∪ new)
        end
    end.

(** [ancestors(migration, population)] *)
Definition ancestors (choices : nat → nat) (fuel : nat) (migration : Obj)
    (population : list Obj) : option (gset Obj) :=
  ancestors_loop choices fuel 0 (depends migration) ∅.

(** One pass of [for m in population - descendants:] over the migrations
    [ms]: the set [descendants] after it, and [found]. *)
Definition descendants_pass (ds : gset Obj) (ms : list Obj) : gset Obj * bool :=
  foldl (λ acc m,
           if decide (depends m ∩ acc.1 ≠ ∅) then (acc.1 ∪ {[m]}, true) else acc)
    (ds, false) ms.

(** The [while True:] loop of [descendants]; [order k s] is the order in
    which the pass number [k] iterates over the set [s]. *)
Fixpoint descendants_loop (order : nat → gset Obj → list Obj) (fuel k : nat)
    (population ds : gset Obj) : option (gset Obj) :=
  match fuel with
  | 0 => None
  | S fuel =>
      let (ds', found) := descendants_pass ds (order k (population ∖ ds)) in
      if found then descendants_loop order fuel (S k) population ds' else Some ds'
  end.

(** [descendants(migration, population)].  Every pass but the last adds
    a migration of the population, so [len(population) + 1] passes are
    enough. *)
Definition descendants (order : nat → gset Obj → list Obj) (migration : Obj)
    (population : list Obj) : option (gset Obj) :=
  let population : gset Obj := list_to_set population in
  ds ← descendants_loop order (S (size population)) 0 population {[migration]};
  Some (ds ∖ {[migration]}).

(** [heads(migration_list)] *)
Definition heads (migration_list : list Obj) : gset Obj :=
  foldl (λ heads m, heads ∖ depends m) (list_to_set migration_list) migration_list.

(** [d] is a dependency of [m]. *)
Definition depends_on : relation Obj := λ m d, d ∈ depends m.

Lemma set_pop_elem (choice : nat) (s : gset Obj) :
  s ≠ ∅ → ∃ m, set_pop choice s = Some m ∧ m ∈ s.
Proof.
  intros Hs. unfold set_pop.
  assert (0 < length (elements s)) as Hlen.
  { destruct (elements s) eqn:E; [|simpl; lia].
    apply elements_empty_inv in E. apply leibniz_equiv in E. done. }
  destruct (lookup_lt_is_Some_2 (elements s) (choice mod length (elements s))) as [m Hm].
  { apply Nat.mod_upper_bound. lia. }
  exists m. split; [done|]. apply elem_of_elements. by eapply list_elem_of_lookup_2.
Qed.

Section ancestors.
Variables (choices : nat → nat) (migration : Obj) (reach : gset Obj).
Hypothesis Hreach : ∀ d, d ∈ reach ↔ tc depends_on migration d.

(** The state of the loop: what was found is reachable, the
    dependencies of the migration were found, and so were those of every
    migration that is not waiting in [to_process]. *)
Definition ancestors_inv (to_process deps : gset Obj) : Prop :=
  to_process ∪ deps ⊆ reach
  ∧ depends migration ⊆ to_process ∪ deps
  ∧ ∀ x, x ∈ deps → x ∉ to_process → depends x ⊆ deps.

Lemma reach_closed (x : Obj) : x ∈ reach → depends x ⊆ reach.
Proof.
  intros Hx d Hd. apply Hreach. eapply tc_r; [by apply Hreach|done].
Qed.

Lemma ancestors_inv_step (to_process deps : gset Obj) (m : Obj) :
  ancestors_inv to_process deps → m ∈ to_process →
  ancestors_inv (to_process ∖ {[m]} ∪ depends m ∖ (deps ∪ {[m]}))
    (deps ∪ {[m]} ∪ depends m ∖ (deps ∪ {[m]})).
Proof.
  intros (Hsub & Hinit & Hdone) Hm.
  assert (m ∈ reach) as Hmr by set_solver.
  pose proof (reach_closed m Hmr) as Hcl.
  split_and!.
  - clear Hinit Hdone. set_solver.
  - intros x Hx. specialize (Hinit x Hx). clear Hdone Hsub Hcl.
    destruct (decide (x = m)); set_solver.
  - intros x Hx Hxt d Hd.
    destruct (decide (x = m)) as [->|Hne].
    + clear Hdone Hinit Hsub Hcl.
      destruct (decide (d = m)); [set_solver|]. destruct (decide (d ∈ deps)); set_solver.
    + assert (x ∈ deps) as Hxd.
      { clear Hdone Hinit Hsub Hcl. set_solver. }
      assert (x ∉ to_process) as Hxt'.
      { clear Hdone Hinit Hsub Hcl. set_solver. }
      pose proof (Hdone x Hxd Hxt' d Hd). clear Hdone Hinit Hsub Hcl. set_solver.
Qed.

Lemma ancestors_inv_done (deps : gset Obj) : ancestors_inv ∅ deps → deps = reach.
Proof.
  intros (Hsub & Hinit & Hdone). apply set_eq. intros x. split.
  - intros Hx. apply Hsub, elem_of_union. by right.
  - intros Hx%Hreach.
    assert (depends migration ⊆ deps) as Hm.
    { intros d Hd. apply Hinit in Hd. apply elem_of_union in Hd as [Hd|Hd]; [|done].
      by apply not_elem_of_empty in Hd. }
    revert Hx Hm. generalize migration. intros a Hx.
    induction Hx as [a x Hax|a y x Hay _ IH]; intros Ha; [by apply Ha|].
    apply IH. apply Hdone; [by apply Ha|apply not_elem_of_empty].
Qed.

Lemma ancestors_loop_reach (fuel k : nat) (to_process deps : gset Obj) :
  ancestors_inv to_process deps →
  size (reach ∖ (deps ∖ to_process)) ≤ fuel →
  ancestors_loop choices fuel k to_process deps = Some reach.
Proof.
  revert k to_process deps. induction fuel as [|fuel IH]; intros k tp deps Hinv Hsz.
  - pose proof Hinv as (Hsub & _ & _).
    assert (reach ∖ (deps ∖ tp) ≡ ∅) as Hz by (apply size_empty_inv; lia).
    assert (tp = ∅) as Htp.
    { apply set_eq. intros x. split; [|by intros ?%not_elem_of_empty]. intros Hx.
      apply Hz. apply elem_of_difference. split; [apply Hsub, elem_of_union; by left|].
      by intros [_ ?]%elem_of_difference. }
    subst tp. simpl. rewrite decide_True by done. f_equal. by apply ancestors_inv_done.
  - simpl. case_decide as Hempty.
    + subst tp. f_equal. by apply ancestors_inv_done.
    + destruct (set_pop_elem (choices k) tp Hempty) as (m & -> & Hm).
      apply IH; [by apply ancestors_inv_step|].
      pose proof Hinv as (Hsub & _ & _).
      assert (m ∈ reach) as Hmr by set_solver.
      assert (reach ∖ (deps ∖ tp)
              = {[m]} ∪ reach ∖ ((deps ∪ {[m]} ∪ depends m ∖ (deps ∪ {[m]}))
                                 ∖ (tp ∖ {[m]} ∪ depends m ∖ (deps ∪ {[m]})))) as Heq.
      { apply set_eq. intros x.
        rewrite !elem_of_union, !elem_of_difference, !elem_of_union, !elem_of_difference,
          !elem_of_union, !elem_of_singleton.
        destruct (decide (x = m)) as [->|Hne]; [tauto|].
        destruct (decide (x ∈ deps)), (decide (x ∈ tp)), (decide (x ∈ depends m)); tauto. }
      rewrite Heq, size_union, size_singleton in Hsz; [lia|].
      intros x. rewrite elem_of_singleton, !elem_of_difference, !elem_of_union,
        !elem_of_difference, !elem_of_union, !elem_of_singleton.
      intros -> [_ Hx]. apply Hx. tauto.
Qed.
End ancestors.

(** [ancestors] returns the migrations that [migration] depends on,
    directly or through other migrations, whatever the order in which
    [set.pop] hands out the waiting ones; [population] plays no part.
    The loop pops every such migration once, so as many pops as there
    are of them suffice. *)
Theorem ancestors_reachable (choices : nat → nat) (fuel : nat) (migration : Obj)
    (population : list Obj) (reach : gset Obj) :
  (∀ d, d ∈ reach ↔ tc depends_on migration d) →
  size reach ≤ fuel →
  ancestors choices fuel migration population = Some reach.
Proof.
  intros Hreach Hfuel. unfold ancestors.
  apply (ancestors_loop_reach choices migration reach Hreach).
  - split_and!.
    + intros d [Hd|Hd]%elem_of_union; [|by apply not_elem_of_empty in Hd].
      by apply Hreach, tc_once.
    + intros d Hd. apply elem_of_union. by left.
    + by intros x Hx%not_elem_of_empty.
  - etrans; [|exact Hfuel]. apply subseteq_size. intros x [Hx _]%elem_of_difference. done.
Qed.

(** ** [descendants] *)

(** [m] is in the population and [d] is a dependency of it. *)
Definition depends_in (population : gset Obj) : relation Obj :=
  λ m d, m ∈ population ∧ d ∈ depends m.

Section descendants.
Variables (order : nat → gset Obj → list Obj) (migration : Obj) (population : gset Obj).
Hypothesis Horder : ∀ k s, order k s ≡ₚ elements s.

(** The set [descendants] during the loop: it holds [migration], and
    otherwise only migrations that depend on it through the population. *)
Definition descendants_inv (ds : gset Obj) : Prop :=
  migration ∈ ds ∧ ∀ x, x ∈ ds → x = migration ∨ tc (depends_in population) x migration.

Lemma descendants_pass_spec (ms : list Obj) (ds : gset Obj) (found0 : bool) :
  descendants_inv ds → (∀ m, m ∈ ms → m ∈ population) →
  let r := foldl (λ acc m,
                    if decide (depends m ∩ acc.1 ≠ ∅) then (acc.1 ∪ {[m]}, true) else acc)
             (ds, found0) ms in
  descendants_inv r.1 ∧ ds ⊆ r.1
  ∧ (r.2 = false → found0 = false ∧ r.1 = ds ∧ ∀ m, m ∈ ms → depends m ∩ ds = ∅)
  ∧ (r.2 = true → found0 = true ∨ ∃ m, m ∈ ms ∧ m ∈ r.1).
Proof.
  revert ds found0. induction ms as [|m ms IH]; intros ds found0 Hinv Hms; simpl.
  { split_and!; [done|done| |by left].
    intros ->. split_and!; [done|done|]. by intros m ?%elem_of_nil. }
  case_decide as Hdep; simpl.
  - assert (descendants_inv (ds ∪ {[m]})) as Hinv'.
    { destruct Hinv as [Hmig Hds]. split; [apply elem_of_union; by left|].
      intros x [Hx| ->%elem_of_singleton]%elem_of_union; [by apply Hds|]. right.
      apply set_choose_L in Hdep as [d [Hd Hdd]%elem_of_intersection].
      assert (depends_in population m d) as Hmd by (split; [apply Hms; left|done]).
      destruct (Hds d Hdd) as [->|Hd']; [by apply tc_once|by eapply tc_l]. }
    destruct (IH (ds ∪ {[m]}) true Hinv') as (Hi & Hsub & Hfalse & Htrue).
    { intros x Hx. apply Hms. by right. }
    split_and!; [done| | |].
    + intros x Hx. apply Hsub, elem_of_union. by left.
    + intros Hr. by destruct (Hfalse Hr) as [? _].
    + intros _. right. exists m. split; [left|]. apply Hsub, elem_of_union. right.
      by apply elem_of_singleton.
  - destruct (IH ds found0 Hinv) as (Hi & Hsub & Hfalse & Htrue).
    { intros x Hx. apply Hms. by right. }
    split_and!; [done|done| |].
    + intros Hr. destruct (Hfalse Hr) as (? & Heq & Hall). split_and!; [done|done|].
      intros x [->|Hx]%elem_of_cons; [done|by apply Hall].
    + intros Hr. destruct (Htrue Hr) as [?|(x & Hx & Hxr)]; [by left|].
      right. exists x. split; [by right|done].
Qed.

Lemma descendants_loop_spec (fuel k : nat) (ds : gset Obj) :
  descendants_inv ds → size (population ∖ ds) < fuel →
  ∃ ds', descendants_loop order fuel k population ds = Some ds'
    ∧ descendants_inv ds'
    ∧ ∀ m, m ∈ population → m ∉ ds' → depends m ∩ ds' = ∅.
Proof.
  revert k ds. induction fuel as [|fuel IH]; intros k ds Hinv Hsz; [lia|].
  simpl. unfold descendants_pass.
  assert (∀ m, m ∈ order k (population ∖ ds) ↔ m ∈ population ∧ m ∉ ds) as Hms.
  { intros m. by rewrite Horder, elem_of_elements, elem_of_difference. }
  pose proof (descendants_pass_spec (order k (population ∖ ds)) ds false Hinv) as Hpass.
  cbv zeta in Hpass.
  destruct (foldl _ (ds, false) (order k (population ∖ ds))) as [ds' found].
  destruct Hpass as (Hinv' & Hsub & Hfalse & Htrue).
  { intros m Hm. by apply Hms. }
  simpl in *. destruct found.
  - destruct (Htrue eq_refl) as [?|(m & Hm & Hmd)]; [done|]. apply Hms in Hm as [Hmp Hmn].
    apply IH; [done|].
    assert (size (population ∖ ds') < size (population ∖ ds)); [|lia].
    apply subset_size. split.
    + intros x [Hx Hxn]%elem_of_difference. apply elem_of_difference. split; [done|].
      intros Hxd. by apply Hxn, Hsub.
    + intros Hsup. assert (m ∈ population ∖ ds') as [_ Hno]%elem_of_difference; [|done].
      apply Hsup. by apply elem_of_difference.
  - destruct (Hfalse eq_refl) as (_ & -> & Hall).
    exists ds. split_and!; [done|done|]. intros m Hm Hmn. apply Hall. by apply Hms.
Qed.
End descendants.

(** [descendants] returns the migrations of the population, other than
    [migration], that depend on it directly or through migrations of the
    population, whatever the order of iteration over the sets; and it
    returns within its bound of passes. *)
Theorem descendants_reaching (order : nat → gset Obj → list Obj) (migration : Obj)
    (population : list Obj) :
  (∀ k s, order k s ≡ₚ elements s) →
  ∃ ds, descendants order migration population = Some ds
    ∧ ∀ m, m ∈ ds ↔
        m ≠ migration ∧ tc (depends_in (list_to_set population)) m migration.
Proof.
  intros Horder. unfold descendants.
  destruct (descendants_loop_spec order migration (list_to_set population) Horder
              (S (size (list_to_set population : gset Obj))) 0 {[migration]})
    as (ds & -> & [Hmig Hds] & Hfix).
  { split; [by apply elem_of_singleton|]. intros x ->%elem_of_singleton. by left. }
  { assert (size ((list_to_set population : gset Obj) ∖ {[migration]})
            ≤ size (list_to_set population : gset Obj)); [|lia].
    apply subseteq_size. intros x [Hx _]%elem_of_difference. done. }
  simpl. eexists. split; [done|]. intros m.
  rewrite elem_of_difference, elem_of_singleton. split.
  - intros [Hm Hne]. split; [done|]. by destruct (Hds m Hm).
  - intros [Hne Htc]. split; [|done].
    assert (∀ x y, tc (depends_in (list_to_set population)) x y → y ∈ ds → x ∈ ds) as Hback.
    { clear m Hne Htc. intros x y. induction 1 as [x y [Hx Hxy]|x y z [Hx Hxy] _ IH];
        intros Hy.
      - destruct (decide (x ∈ ds)) as [|Hno]; [done|].
        pose proof (Hfix x Hx Hno) as Hempty. exfalso.
        eapply (not_elem_of_empty (C:=gset Obj) y). rewrite <- Hempty.
        by apply elem_of_intersection.
      - specialize (IH Hy).
        destruct (decide (x ∈ ds)) as [|Hno]; [done|].
        pose proof (Hfix x Hx Hno) as Hempty. exfalso.
        eapply (not_elem_of_empty (C:=gset Obj) y). rewrite <- Hempty.
        by apply elem_of_intersection. }
    by eapply Hback.
Qed.

(** ** [heads] *)

Lemma elem_of_heads_from (l : list Obj) (hs : gset Obj) (x : Obj) :
  x ∈ foldl (λ heads m, heads ∖ depends m) hs l ↔ x ∈ hs ∧ ∀ m, m ∈ l → x ∉ depends m.
Proof.
  revert hs. induction l as [|m l IH]; intros hs; simpl.
  - split; [|by intros [? _]]. intros Hx. split; [done|]. by intros m ?%elem_of_nil.
  - rewrite IH, elem_of_difference. split.
    + intros [[Hx Hm] Hl]. split; [done|].
      intros m' [->|Hm']%elem_of_cons; [done|by apply Hl].
    + intros [Hx Hall]. split; [split; [done|apply Hall; left]|].
      intros m' Hm'. apply Hall. by right.
Qed.

Lemma tc_flip (R : relation Obj) (x y : Obj) : tc (flip R) x y → tc R y x.
Proof.
  induction 1 as [x y Hxy|x y z Hxy _ IH]; [by apply tc_once|].
  eapply tc_r; [exact IH|exact Hxy].
Qed.

(** In a finite set where every node has a successor, there is a cycle. *)
Lemma walk_cycle (E : relation Obj) (S V : gset Obj) (b : Obj) (fuel : nat) :
  (∀ x, x ∈ S → ∃ y, y ∈ S ∧ E x y) →
  size (S ∖ V) ≤ fuel → b ∈ S → b ∉ V → (∀ v, v ∈ V → tc E v b) →
  ∃ c, tc E c c.
Proof.
  intros Hnext. revert V b. induction fuel as [|fuel IH]; intros V b Hsz Hb HbV Hpath.
  - exfalso. assert (size (S ∖ V) = 0) as Hz by lia.
    apply size_empty_inv in Hz. apply (not_elem_of_empty (C:=gset Obj) b), Hz.
    by apply elem_of_difference.
  - destruct (Hnext b Hb) as (y & Hy & Hby).
    destruct (decide (y = b)) as [->|Hyb]; [exists b; by apply tc_once|].
    destruct (decide (y ∈ V)) as [HyV|HyV].
    { exists b. eapply tc_l; [exact Hby|by apply Hpath]. }
    apply (IH (V ∪ {[b]}) y); [|done| |].
    + assert (size (S ∖ (V ∪ {[b]})) < size (S ∖ V)); [|lia].
      apply subset_size. split.
      * intros x [Hx Hxn]%elem_of_difference. apply elem_of_difference. split; [done|].
        intros HxV. apply Hxn, elem_of_union. by left.
      * intros Hsup. assert (b ∈ S ∖ (V ∪ {[b]})) as [_ Hno]%elem_of_difference.
        { apply Hsup. by apply elem_of_difference. }
        apply Hno, elem_of_union. right. by apply elem_of_singleton.
    + intros [?| ->%elem_of_singleton]%elem_of_union; done.
    + intros v [Hv| ->%elem_of_singleton]%elem_of_union.
      * eapply tc_r; [by apply Hpath|done].
      * by apply tc_once.
Qed.

(** [heads] returns the migrations of the list that no migration of the
    list depends on; and a non-empty list without a dependency cycle has
    such a migration. *)
Theorem heads_no_dependents (migration_list : list Obj) :
  (∀ x, x ∈ heads migration_list ↔
     x ∈ migration_list ∧ ∀ m, m ∈ migration_list → x ∉ depends m)
  ∧ (migration_list ≠ [] →
     (∀ n, ¬ tc (λ m d, m ∈ migration_list ∧ d ∈ migration_list ∧ d ∈ depends m) n n) →
     ∃ h, h ∈ heads migration_list).
Proof.
  assert (∀ x, x ∈ heads migration_list ↔
            x ∈ migration_list ∧ ∀ m, m ∈ migration_list → x ∉ depends m) as Hspec.
  { intros x. unfold heads. by rewrite elem_of_heads_from, elem_of_list_to_set. }
  split; [done|]. intros Hne Hacyclic.
  destruct migration_list as [|b l] eqn:El; [done|]. rewrite <- El in *.
  destruct (decide (heads migration_list = ∅)) as [Hnone|Hsome];
    [|by apply set_choose_L in Hsome]. exfalso.
  set (E := flip (λ m d, m ∈ migration_list ∧ d ∈ migration_list ∧ d ∈ depends m)).
  destruct (walk_cycle E (list_to_set migration_list) ∅ b
              (size (list_to_set migration_list : gset Obj))) as [c Hc].
  - intros x Hx%elem_of_list_to_set.
    destruct (decide (Exists (λ m, x ∈ depends m) migration_list)) as [Hex|Hno].
    + apply Exists_exists in Hex as (m & Hm & Hxm).
      exists m. split; [by apply elem_of_list_to_set|]. by split_and!.
    + exfalso. apply (not_elem_of_empty (C:=gset Obj) x). rewrite <- Hnone. apply Hspec.
      split; [done|]. intros m Hm Hxm. apply Hno, Exists_exists. by exists m.
  - apply subseteq_size. intros x [Hx _]%elem_of_difference. done.
  - apply elem_of_list_to_set. rewrite El. left.
  - apply not_elem_of_empty.
  - by intros v ?%not_elem_of_empty.
  - by apply tc_flip, Hacyclic in Hc.
Qed.

(** ** [topological_sort] of [migrations.py] *)

(** A migration object is true: the class defines neither [__bool__] nor
    [__len__]. *)
#[local] Instance object_truthy : Truthy Obj := λ _, true.

(** [{m: (m.depends & all_migrations) for m in migration_list}] *)
Definition dependency_graph (migration_list : list Obj) : gmap Obj (list Obj) :=
  let all_migrations : gset Obj := list_to_set migration_list in
  foldl (λ g m, <[m := elements (depends m ∩ all_migrations)]> g) ∅ migration_list.

(** [topological_sort(migrations)].  [topological_sort_impl] is a
    generator function: the call inside the [try] only makes the
    generator and raises nothing, so the [except CycleError] clause never
    runs and the generator is returned as it is.  The result here is what
    iterating over it gives: the migrations yielded, and how the
    iteration ends. *)
Definition topological_sort (migrations : list Obj)
    : option (list Obj * topologicalsort.outcome) :=
  let migration_list := migrations in
  topologicalsort.topological_sort migration_list (dependency_graph migration_list).

Lemma dependency_graph_deps (migration_list : list Obj) (m d : Obj) :
  m ∈ migration_list →
  d ∈ topologicalsort.deps (dependency_graph migration_list) m
  ↔ d ∈ depends m ∧ d ∈ migration_list.
Proof.
  intros Hm. unfold dependency_graph, topologicalsort.deps.
  assert (∀ (l : list Obj) (g : gmap Obj (list Obj)) (f : Obj → list Obj),
            m ∈ l → foldl (λ g m, <[m := f m]> g) g l !! m = Some (f m)) as Hfold.
  { intros l g f. revert g. induction l as [|x l IH] using rev_ind; intros g Hin.
    - by apply elem_of_nil in Hin.
    - rewrite foldl_app. simpl. destruct (decide (x = m)) as [->|Hne].
      + by rewrite lookup_insert_eq.
      + rewrite lookup_insert_ne by done. apply IH.
        apply elem_of_app in Hin as [?|Hin]; [done|].
        by apply list_elem_of_singleton in Hin. }
  rewrite (Hfold migration_list ∅
             (λ m, elements (depends m ∩ list_to_set migration_list)) Hm). simpl.
  by rewrite elem_of_elements, elem_of_intersection, elem_of_list_to_set.
Qed.

(** Sorting migrations.  For distinct migrations the iteration ends, and
    every migration it yields comes after those of its dependencies that
    are in the list.  It ends normally, having yielded every migration
    once, exactly when the dependencies within the list have no cycle;
    otherwise it ends in [CycleError], never in [BadMigration]. *)
Theorem sorted_after_dependencies (migrations : list Obj) :
  NoDup migrations →
  ∃ ys o, topological_sort migrations = Some (ys, o)
    ∧ (∀ pre m post, ys = pre ++ m :: post →
         ∀ d, d ∈ depends m → d ∈ migrations → d ∈ pre)
    ∧ (o = topologicalsort.Exhausted → ys ≡ₚ migrations)
    ∧ (o = topologicalsort.Exhausted ↔
       ∀ n, ¬ tc (λ m d, m ∈ migrations ∧ d ∈ migrations ∧ d ∈ depends m) n n)
    ∧ (o = topologicalsort.Exhausted ∨ ∃ nodes, o = topologicalsort.CycleError nodes).
Proof.
  intros Hnd. unfold topological_sort.
  set (g := dependency_graph migrations).
  assert (∀ m d, topologicalsort.edge migrations g m d
                 ↔ m ∈ migrations ∧ d ∈ migrations ∧ d ∈ depends m) as Hedge.
  { intros m d. unfold topologicalsort.edge. split.
    - intros (Hm & Hd & Hdep). apply dependency_graph_deps in Hdep as [? _]; done.
    - intros (Hm & Hd & Hdep). split_and!; [done..|]. by apply dependency_graph_deps. }
  destruct (topologicalsort.run_exhausted_or_cycle migrations g Hnd)
    as (ys & Hk & Hnodup & Hsub & Hrun).
  assert (∀ pre m post, ys = pre ++ m :: post →
            ∀ d, d ∈ depends m → d ∈ migrations → d ∈ pre) as Hafter.
  { intros pre m post Heq d Hd Hin.
    destruct (Hk pre m post Heq) as (Hm & _ & Hready & _).
    apply (elem_of_list_to_set (C:=gset Obj)). apply Hready; [|done].
    by apply dependency_graph_deps. }
  destruct Hrun as [(-> & Hac & Hall)|(-> & [c Hc] & _)].
  - exists ys, topologicalsort.Exhausted. split_and!; [done|done| | |by left].
    + intros _. apply NoDup_Permutation; [done..|]. intros x. split; [apply Hsub|apply Hall].
    + split; [|done]. intros _ n Hn. apply (Hac n).
      eapply topologicalsort.tc_subrel; [|exact Hn]. intros x y Hxy. by apply Hedge.
  - eexists ys, _. split_and!; [done|done|done| |right; by eexists].
    split; [done|]. intros Hac. destruct (Hac c).
    eapply topologicalsort.tc_subrel; [|exact Hc]. intros x y Hxy. by apply Hedge.
Qed.
End dependencies.


(** ** Concrete migrations *)

(** A migration object as [Migration.__init__] leaves it. *)
Definition new_migration (i : string) : Migration :=
  Migration_ i ("sha256(" +:+ i +:+ ")") ("migrations/" +:+ i +:+ ".py") "migrations"
    None true None.

Definition create_table (name : string) : action :=
  Sql ("CREATE TABLE " +:+ name)
    (λ u, match u !! name with
          | Some _ => inl ("table " +:+ name +:+ " already exists")
          | None => inr (<[name := []]> u)
          end).

Definition drop_table (name : string) : action :=
  Sql ("DROP TABLE " +:+ name)
    (λ u, match u !! name with
          | Some _ => inr (delete name u)
          | None => inl ("no such table: " +:+ name)
          end).

(** A statement the database refuses. *)
Definition refused (text msg : string) : action := Sql text (λ _, inl msg).

(** A migration file with [__transactional__ = False] and three steps:
    the rollback of the second and the apply of the third are refused. *)
Definition three_steps : module :=
  Module_ None (Some false)
    [ AddStep (Some (create_table "a")) (Some (drop_table "a")) None;
      AddStep (Some (create_table "b")) (Some (refused "DROP TABLE b" "b is in use")) None;
      AddStep (Some (refused "CREATE TABEL c" "syntax error")) (Some (drop_table "c")) None ].

Definition three_steps_migration : Migration :=
  (load ∅ (Ok three_steps) (new_migration "0001")).1.

(** A fresh connection to a database without tables, on a backend without
    transactional DDL. *)
Definition empty_backend : DatabaseBackend :=
  Backend (Connection (Database None None None ∅) None []) false false false false 1 [].

Example three_steps_loaded :
  steps three_steps_migration
  = Some [ Transactionless (MigrationStep 0 (Some (create_table "a")) (Some (drop_table "a"))) None;
           Transactionless (MigrationStep 1 (Some (create_table "b"))
                              (Some (refused "DROP TABLE b" "b is in use"))) None;
           Transactionless (MigrationStep 2 (Some (refused "CREATE TABEL c" "syntax error"))
                              (Some (drop_table "c"))) None ].
Proof. reflexivity. Qed.

(** C2 as stated fails: step 0 was executed, and its rollback is never
    invoked, because the rollback of step 1 raised first; table [a]
    stays. *)
Lemma unwind_stops_at_first_error :
  (process_steps three_steps_migration Apply false empty_backend).2
    = Raise (DatabaseError "syntax error")
  ∧ logged (process_steps three_steps_migration Apply false empty_backend).1
    = [ LogInfo " - applying step 0"; LogInfo " - applying step 1";
        LogInfo " - applying step 2"; LogInfo " - rolling back step 1";
        LogException "Could not apply step None" ]
  ∧ dom (user_tables (data (connection
           (process_steps three_steps_migration Apply false empty_backend).1)))
    = {["a"; "b"]}.
Proof. vm_compute. done. Qed.

Lemma process_steps_unwinds_witness :
  process_steps three_steps_migration Apply false empty_backend
  = (Backend (Connection (Database None None None {["a" := []; "b" := []]}) None [])
       false false false false 1
       [ LogInfo " - applying step 0"; LogInfo " - applying step 1";
         LogInfo " - applying step 2"; LogInfo " - rolling back step 1";
         LogException "Could not apply step None" ],
     Raise (DatabaseError "syntax error")).
Proof.
  pose (pre := [ Transactionless (MigrationStep 0 (Some (create_table "a"))
                                    (Some (drop_table "a"))) None;
                 Transactionless (MigrationStep 1 (Some (create_table "b"))
                                    (Some (refused "DROP TABLE b" "b is in use"))) None ]).
  pose (s := Transactionless (MigrationStep 2 (Some (refused "CREATE TABEL c" "syntax error"))
                                (Some (drop_table "c"))) None).
  pose (b1 := (rollback empty_backend).1).
  pose (b2 := (for_each (run_step Apply false) pre b1).1).
  pose (b3 := (run_step Apply false s b2).1).
  rewrite (process_steps_unwinds three_steps_migration pre [] s false empty_backend
             b1 b2 b3 "syntax error");
    [|reflexivity|reflexivity|right; reflexivity|reflexivity
     |vm_compute; reflexivity|vm_compute; reflexivity].
  vm_compute. reflexivity.
Defined.

Definition registry_0001 : gmap string Migration := {["0001" := new_migration "0001"]}.

Lemma load_unresolved_dependency_witness :
  ∃ self',
    load registry_0001 (Ok (Module_ (Some (DependsIds ["0001"; "0000"])) None []))
      (new_migration "0002")
      = (self', Some (BadMigration "Could not resolve dependencies in migrations/0002.py"))
    ∧ steps self' = None
    ∧ load registry_0001 (Ok (Module_ (Some (DependsIds ["0001"; "0000"])) None [])) self'
      = (self', Some (BadMigration "Could not resolve dependencies in migrations/0002.py")).
Proof.
  apply (load_unresolved_dependency registry_0001 _ (new_migration "0002") "0000").
  - reflexivity.
  - simpl. set_solver.
  - reflexivity.
Defined.

(** A list of two migrations with one post-apply hook. *)
Definition two_migrations : MigrationList :=
  MigrationList_ [new_migration "0001"; new_migration "0002"]
    [new_migration "post-apply"] {["0001"; "0002"]}.

Lemma post_apply_kept_or_dropped_witness :
  NoDup (id <$> items two_migrations)
  ∧ (∀ predicate, ∃ ml,
      filter_ two_migrations predicate = Ok ml
      ∧ post_apply ml = post_apply two_migrations
      ∧ items ml = List.filter predicate (items two_migrations))
  ∧ (∀ newmigrations, NoDup (id <$> newmigrations) → ∃ ml,
      replace two_migrations newmigrations = Ok ml
      ∧ post_apply ml = post_apply two_migrations
      ∧ items ml = newmigrations)
  ∧ (∀ s, slice_step s ≠ Some 0%Z → ∃ ml,
      __getitem__ two_migrations (Slice_ s) = Ok (Sublist ml)
      ∧ post_apply ml = []
      ∧ list_getslice (items two_migrations) s = Ok (items ml)).
Proof.
  assert (NoDup (id <$> items two_migrations)) as Hnd by compute_done.
  split; [exact Hnd|]. exact (post_apply_kept_or_dropped two_migrations Hnd).
Defined.

(** C4, the failing input: assigning a migration whose id the list holds
    elsewhere raises [TypeError], not [MigrationConflict]. *)
Example setitem_duplicate_id :
  __setitem__ two_migrations (Int 0) (One (new_migration "0002"))
  = (two_migrations, Some (TypeError "'Migration' object is not iterable")).
Proof. reflexivity. Qed.

Example slice_drops_post_apply :
  __getitem__ two_migrations (Slice_ (Slice (Some 0%Z) (Some 1%Z) None))
  = Ok (Sublist (MigrationList_ [new_migration "0001"] [] {["0001"]})).
Proof. vm_compute. reflexivity. Qed.


(** ** [MigrationList] on concrete lists *)

Lemma two_migrations_consistent : consistent two_migrations.
Proof. split; compute_done. Qed.

Lemma init_conflict_example :
  __init__ [new_migration "0001"; new_migration "0002"; new_migration "0001"] []
  = Raise (MigrationConflict "0001").
Proof. reflexivity. Qed.

Lemma insert_conflict_witness :
  insert two_migrations 0 (new_migration "0002")
  = (two_migrations, Some (MigrationConflict "0002")).
Proof.
  pose proof (insert_conflict two_migrations 0 (new_migration "0002")
                two_migrations_consistent) as Hins.
  rewrite decide_True in Hins by compute_done. exact Hins.
Defined.

Lemma extend_until_conflict_witness :
  match extend two_migrations [new_migration "0003"; new_migration "0001";
                               new_migration "0004"] with
  | (self', None) =>
      consistent self'
      ∧ items self' = items two_migrations
                      ++ [new_migration "0003"; new_migration "0001"; new_migration "0004"]
  | (self', Some e) =>
      consistent self'
      ∧ ∃ pre x post,
          [new_migration "0003"; new_migration "0001"; new_migration "0004"]
          = pre ++ x :: post
          ∧ e = MigrationConflict (id x)
          ∧ items self' = items two_migrations ++ pre
          ∧ id x ∈ id <$> items two_migrations ++ pre
  end.
Proof. apply extend_until_conflict, two_migrations_consistent. Defined.

Example extend_keeps_earlier_values :
  extend two_migrations [new_migration "0003"; new_migration "0001"; new_migration "0004"]
  = (MigrationList_ [new_migration "0001"; new_migration "0002"; new_migration "0003"]
       [new_migration "post-apply"] {["0001"; "0002"; "0003"]},
     Some (MigrationConflict "0001")).
Proof. vm_compute. reflexivity. Qed.

Lemma delitem_consistent_witness :
  ∃ self', __delitem__ two_migrations (Int (-1)) = (self', None)
    ∧ consistent self'
    ∧ items self' ≡ₚ filter (λ y, id y ≠ "0002") (items two_migrations)
    ∧ "0002" ∉ keys self'.
Proof.
  exact (delitem_consistent two_migrations (-1) two_migrations_consistent).
Defined.

Lemma setitem_slice_unchecked_witness :
  ∃ self' pre post,
    __setitem__ two_migrations (Slice_ (Slice (Some 1%Z) None None))
      (Many [new_migration "0003"; new_migration "0003"]) = (self', None)
    ∧ items self' = pre ++ [new_migration "0003"; new_migration "0003"] ++ post
    ∧ (¬ NoDup (id <$> [new_migration "0003"; new_migration "0003"]) →
       ∃ i, check_conflicts self' = Some (MigrationConflict i)).
Proof.
  apply setitem_slice_unchecked; [reflexivity|].
  intros x Hx. repeat (apply elem_of_cons in Hx as [->|Hx]); [..|by apply elem_of_nil in Hx];
    compute_done.
Defined.

Example setitem_slice_repeated_id :
  (__setitem__ two_migrations (Slice_ (Slice (Some 1%Z) None None))
     (Many [new_migration "0003"; new_migration "0003"])).1
  = MigrationList_ [new_migration "0001"; new_migration "0003"; new_migration "0003"]
      [new_migration "post-apply"] {["0001"; "0002"; "0003"]}.
Proof. vm_compute. reflexivity. Qed.

Lemma setitem_slice_stale_key_witness :
  ∃ self',
    __setitem__ two_migrations (Slice_ (Slice (Some 0%Z) (Some 1%Z) None))
      (Many [new_migration "0003"]) = (self', None)
    ∧ id (new_migration "0001") ∉ id <$> items self'
    ∧ ∀ i, insert self' i (new_migration "0001")
           = (self', Some (MigrationConflict (id (new_migration "0001")))).
Proof.
  apply (setitem_slice_stale_key two_migrations _ [new_migration "0001"]).
  - exact two_migrations_consistent.
  - reflexivity.
  - vm_compute. reflexivity.
  - left.
  - compute_done.
  - intros x Hx.
    repeat (apply elem_of_cons in Hx as [->|Hx]); [..|by apply elem_of_nil in Hx].
    intros Hk. exfalso. revert Hk. compute_done.
Defined.


(** ** The executor on concrete migrations *)

(** A transactional migration of two steps, and one whose second step
    the database refuses. *)
Definition two_tables : module :=
  Module_ None None
    [ AddStep (Some (create_table "a")) (Some (drop_table "a")) None;
      AddStep (Some (create_table "b")) (Some (drop_table "b")) None ].

Definition two_tables_migration : Migration :=
  (load ∅ (Ok two_tables) (new_migration "0002")).1.

Definition one_table_then_error : module :=
  Module_ None None
    [ AddStep (Some (create_table "a")) (Some (drop_table "a")) None;
      AddStep (Some (refused "CREATE TABEL c" "syntax error")) None None ].

Definition one_table_then_error_migration : Migration :=
  (load ∅ (Ok one_table_then_error) (new_migration "0003")).1.

(** A fresh connection on a backend with transactional DDL. *)
Definition transactional_backend : DatabaseBackend :=
  Backend (Connection (Database None None None ∅) None []) false false false true 1 [].

Lemma process_steps_success_witness :
  process_steps two_tables_migration Apply false transactional_backend
  = (Backend (Connection (Database None None None {["a" := []; "b" := []]}) None [])
       false false false true 3
       [LogInfo " - applying step 0"; LogInfo " - applying step 1"],
     Ok ()).
Proof.
  pose (steps := [ TransactionWrapper (MigrationStep 0 (Some (create_table "a"))
                                         (Some (drop_table "a"))) None;
                   TransactionWrapper (MigrationStep 1 (Some (create_table "b"))
                                         (Some (drop_table "b"))) None ]).
  pose (b1 := (begin transactional_backend).1).
  pose (b2 := (for_each (run_step Apply false) steps b1).1).
  rewrite (process_steps_success two_tables_migration Apply false steps
             transactional_backend b1 b2);
    [|reflexivity|reflexivity|reflexivity|vm_compute; reflexivity].
  vm_compute. reflexivity.
Defined.

Lemma process_steps_no_unwind_witness :
  process_steps one_table_then_error_migration Apply false transactional_backend
  = (Backend (Connection (Database None None None ∅) None [])
       false false false true 3
       [LogInfo " - applying step 0"; LogInfo " - applying step 1"],
     Raise (DatabaseError "syntax error")).
Proof.
  pose (s0 := TransactionWrapper (MigrationStep 0 (Some (create_table "a"))
                                    (Some (drop_table "a"))) None).
  pose (s1 := TransactionWrapper (MigrationStep 1 (Some (refused "CREATE TABEL c" "syntax error"))
                                    None) None).
  pose (b1 := (begin transactional_backend).1).
  pose (b2 := (run_step Apply false s0 b1).1).
  pose (b3 := (run_step Apply false s1 b2).1).
  rewrite (process_steps_no_unwind one_table_then_error_migration Apply false
             [s0; s1] [s0] [] s1 transactional_backend b1 b2 b3
             (DatabaseError "syntax error"));
    [|reflexivity|reflexivity|reflexivity|reflexivity
     |vm_compute; reflexivity|vm_compute; reflexivity|right; split; reflexivity].
  vm_compute. reflexivity.
Defined.

Lemma process_steps_forced_witness :
  process_steps three_steps_migration Apply true empty_backend
  = with_disable_transactions
      (for_each (run_step Apply true) (create_steps false (collector three_steps)))
      empty_backend
  ∧ ∀ b1 msg,
      (for_each (run_step Apply true) (create_steps false (collector three_steps)) b1).2
      ≠ Raise (DatabaseError msg).
Proof.
  exact (process_steps_forced three_steps_migration Apply false (collector three_steps)
           empty_backend eq_refl).
Defined.

(** The forced run of the three steps: the error of the third is logged
    and the call returns. *)
Example forced_run_logs_the_error :
  process_steps three_steps_migration Apply true empty_backend
  = (Backend (Connection (Database None None None {["a" := []; "b" := []]}) None [])
       false false false false 1
       [ LogInfo " - applying step 0"; LogInfo " - applying step 1";
         LogInfo " - applying step 2";
         LogException "Ignored error in <MigrationStep #2>" ],
     Ok ()).
Proof. vm_compute. reflexivity. Qed.

Lemma load_once_witness :
  load registry_0001 (Raise (PythonError "FileNotFoundError" "migrations/0001.py"))
    three_steps_migration
  = (three_steps_migration, None).
Proof.
  apply (load_once ∅ _ (Ok three_steps) _ (new_migration "0001")). reflexivity.
Defined.


(** ** The graph functions on a concrete graph *)

(** Four migrations, named by numbers: [3] depends on [2] and [1], [2] on
    [1], and [1] on [0]. *)
Definition chain_depends (m : nat) : gset nat :=
  match m with
  | 3 => {[2; 1]}
  | 2 => {[1]}
  | 1 => {[0]}
  | _ => ∅
  end.

Lemma chain_depends_lt (m d : nat) : d ∈ chain_depends m → d < m.
Proof.
  destruct m as [|[|[|[|?]]]]; simpl; intros Hd;
    repeat (apply elem_of_union in Hd as [Hd|Hd]);
    try apply elem_of_singleton in Hd; try (by apply not_elem_of_empty in Hd); lia.
Qed.

Lemma chain_reach (d : nat) : d ∈ ({[0; 1; 2]} : gset nat) ↔ tc (depends_on chain_depends) 3 d.
Proof.
  split.
  - intros Hd. repeat (apply elem_of_union in Hd as [Hd|Hd]);
      apply elem_of_singleton in Hd; subst d.
    + apply tc_l with 1; [|apply tc_once]; unfold depends_on; compute_done.
    + apply tc_once. unfold depends_on. compute_done.
    + apply tc_once. unfold depends_on. compute_done.
  - intros Htc.
    assert (∀ x y, tc (depends_on chain_depends) x y → y < x) as Hlt.
    { induction 1 as [x y Hxy|x y z Hxy _ IH]; [by apply chain_depends_lt|].
      apply chain_depends_lt in Hxy. lia. }
    apply Hlt in Htc. destruct d as [|[|[|?]]]; [compute_done..|lia].
Qed.

Lemma ancestors_reachable_witness :
  ancestors chain_depends (λ k, k) 3 3 [] = Some {[0; 1; 2]}.
Proof.
  apply ancestors_reachable; [exact chain_reach|]. vm_compute. lia.
Defined.

Lemma descendants_reaching_witness :
  ∃ ds, descendants chain_depends (λ _ s, elements s) 1 [0; 1; 2; 3] = Some ds
    ∧ ∀ m, m ∈ ds ↔
        m ≠ 1 ∧ tc (depends_in chain_depends (list_to_set [0; 1; 2; 3])) m 1.
Proof. apply descendants_reaching. reflexivity. Defined.

Example descendants_of_1 :
  descendants chain_depends (λ _ s, elements s) 1 [0; 1; 2; 3] = Some {[2; 3]}.
Proof. vm_compute. reflexivity. Qed.

Example heads_of_chain : heads chain_depends [0; 1; 2; 3] = {[3]}.
Proof. vm_compute. reflexivity. Qed.

Lemma sorted_after_dependencies_witness :
  ∃ ys o, topological_sort chain_depends [3; 0; 2; 1] = Some (ys, o)
    ∧ (∀ pre m post, ys = pre ++ m :: post →
         ∀ d, d ∈ chain_depends m → d ∈ [3; 0; 2; 1] → d ∈ pre)
    ∧ (o = topologicalsort.Exhausted → ys ≡ₚ [3; 0; 2; 1])
    ∧ (o = topologicalsort.Exhausted ↔
       ∀ n, ¬ tc (λ m d, m ∈ [3; 0; 2; 1] ∧ d ∈ [3; 0; 2; 1] ∧ d ∈ chain_depends m) n n)
    ∧ (o = topologicalsort.Exhausted ∨ ∃ nodes, o = topologicalsort.CycleError nodes).
Proof. apply sorted_after_dependencies. compute_done. Defined.

Example sorted_chain :
  topological_sort chain_depends [3; 0; 2; 1]
  = Some ([0; 1; 2; 3], topologicalsort.Exhausted).
Proof. vm_compute. reflexivity. Qed.

End migrations.

(** * [backends/base.py]: locking and bookkeeping *)
Module bookkeeping.
Import dbapi backends migrations.

(** A method that may poll for the lock: [None] when it is still polling
    after the clock readings it was given. *)
Definition MO (A : Type) : Type := DatabaseBackend → option (DatabaseBackend * result A).

Definition lift {A} (m : M A) : MO A := λ b, Some (m b).

Definition bindO {A B} (m : MO A) (k : A → MO B) : MO B :=
  λ b, match m b with
       | Some (b', inr a) => k a b'
       | Some (b', inl e) => Some (b', Raise e)
       | None => None
       end.

#[global] Instance MO_ret : MRet MO := λ A a, lift (mret a).
#[global] Instance MO_bind : MBind MO := λ A B k m, bindO m k.

(** What a call reads from the process, the clock and the machine:
    [os.getpid()]; [time.time()] when [_insert_lock_row] starts; for each
    attempt to insert the lock row, the [datetime.now] it inserts and the
    [time.time()] read after it failed; [datetime.now] for a
    [_yoyo_migration] row; and [uuid.uuid1()], [getpass.getuser()],
    [socket.getfqdn()] and [datetime.now] for a log row. *)
Record environment := Environment {
  getpid : Z;
  started : Z;
  attempts : list (nat * Z);
  applied_now : nat;
  uuid1 : string;
  getuser : string;
  getfqdn : string;
  log_now : nat }.

(** [DatabaseBackend._insert_lock_row(pid, timeout, poll_interval)]; times
    are whole numbers of a unit of the caller's choice. *)
Fixpoint _insert_lock_row (pid timeout started : Z) (attempts : list (nat * Z)) : MO unit :=
  match attempts with
  | [] => λ _, None
  | (when, t) :: attempts =>
      λ b, match with_transaction false (execute (INSERT_LOCK when pid)) b with
           | (b', inr _) => Some (b', Ok ())
           | (b', inl (DatabaseError _)) =>
               if decide (timeout ≠ 0 ∧ started + timeout < t)%Z then
                 Some ((cursor ← execute SELECT_LOCK_PID;
                        match cursor with
                        | PidRows (holder :: _) =>
                            raise (LockTimeout
                              ("Process " +:+ pretty holder +:+
                               " has locked this database " +:+
                               "(run yoyo break-lock to remove this lock)"))
                        | _ =>
                            raise (LockTimeout
                              "Database locked (run yoyo break-lock to remove this lock)")
                        end) b')
               else _insert_lock_row pid timeout started attempts b'
           | (b', inl e) => Some (b', Raise e)
           end
  end.

(** [DatabaseBackend._delete_lock_row(pid)] *)
Definition _delete_lock_row (pid : Z) : M unit :=
  with_transaction false (_ ← execute (DELETE_LOCK_WHERE_PID pid); mret ()).

(** [DatabaseBackend.break_lock()] *)
Definition break_lock : M unit :=
  with_transaction false (_ ← execute DELETE_LOCK; mret ()).

(** [with self.lock(timeout): body].  The generator sets [_is_locked]
    back only when the body returns; [_delete_lock_row] runs in its
    [finally] either way. *)
Definition with_lock {A} (env : environment) (timeout : Z) (body : MO A) : MO A :=
  λ b, if _is_locked b then body b
       else
         match _insert_lock_row (getpid env) timeout (started env) (attempts env) b with
         | None => None
         | Some (b1, inl e) => Some (b1, Raise e)
         | Some (b1, inr _) =>
             match body ((set_is_locked true b1).1) with
             | None => None
             | Some (b2, inl e) =>
                 match _delete_lock_row (getpid env) b2 with
                 | (b3, inl e') => Some (b3, Raise e')
                 | (b3, inr _) => Some (b3, Raise e)
                 end
             | Some (b2, inr a) =>
                 match _delete_lock_row (getpid env) ((set_is_locked false b2).1) with
                 | (b3, inl e') => Some (b3, Raise e')
                 | (b3, inr _) => Some (b3, Ok a)
                 end
             end
         end.

(** [DatabaseBackend.create_lock_table()] *)
Definition create_lock_table : M unit :=
  except_DatabaseError (with_transaction false (_ ← execute CREATE_LOCK_TABLE; mret ()))
    (λ _, mret ()).

Section internal_schema.
(** The module [yoyo.internalmigrations] is not among the source files;
    its two functions used here are parameters. *)
Context (needs_upgrading : M bool) (upgrade : M unit).

(** [DatabaseBackend.ensure_internal_schema_updated()]; [self.lock()] has
    the default timeout of 10, here in the unit of the clock readings. *)
Definition ensure_internal_schema_updated (env : environment) (ten : Z) : MO unit :=
  λ b, if _internal_schema_updated b then Some (b, Ok ())
       else
         (needs ← lift needs_upgrading;
          if needs : bool then
            in_tx ← lift (λ b, (b, Ok (_in_transaction b)));
            if in_tx : bool then lift (raise (AssertionError "not self._in_transaction"))
            else
              with_lock env ten
                (lift (upgrade ;;
                       (λ b, set_connection (connection_commit (connection b)) b) ;;
                       set_internal_schema_updated true))
          else mret ()) b.

(** [DatabaseBackend.get_log_data(migration, operation)] *)
Definition get_log_data (env : environment) (migration : option Migration)
    (operation : string) : result log_row :=
  if decide (operation ∈ ["apply"; "rollback"; "mark"; "unmark"]) then
    Ok (LogRow (uuid1 env) (hash <$> migration) (id <$> migration) operation
          (getuser env) (getfqdn env) None (log_now env))
  else Raise (AssertionError "operation in {'apply', 'rollback', 'mark', 'unmark'}").

(** [DatabaseBackend.log_migration(migration, operation)] *)
Definition log_migration (env : environment) (migration : Migration) (operation : string)
    : M unit :=
  match get_log_data env (Some migration) operation with
  | inl e => raise e
  | inr row => _ ← execute (INSERT_LOG row); mret ()
  end.

(** [DatabaseBackend.mark_one(migration, log)] *)
Definition mark_one (env : environment) (ten : Z) (migration : Migration) (log_it : bool)
    : MO unit :=
  ensure_internal_schema_updated env ten ;;
  lift (log (LogInfo ("Marking " +:+ id migration +:+ " applied")) ;;
        _ ← execute (INSERT_MIGRATION (hash migration) (id migration) (applied_now env));
        if log_it then log_migration env migration "mark" else mret ()).

(** [DatabaseBackend.unmark_one(migration, log)] *)
Definition unmark_one (env : environment) (ten : Z) (migration : Migration) (log_it : bool)
    : MO unit :=
  ensure_internal_schema_updated env ten ;;
  lift (_ ← execute (DELETE_MIGRATION (hash migration));
        if log_it then log_migration env migration "unmark" else mret ()).

(** [DatabaseBackend.get_applied_migration_hashes()] *)
Definition get_applied_migration_hashes (env : environment) (ten : Z) : MO (list string) :=
  ensure_internal_schema_updated env ten ;;
  lift (cursor ← execute SELECT_APPLIED_HASHES;
        mret (match cursor with HashRows hs => hs | _ => [] end)).

(** [DatabaseBackend.is_applied(migration)] *)
Definition is_applied (env : environment) (ten : Z) (migration : Migration) : MO bool :=
  applied ← get_applied_migration_hashes env ten;
  mret (bool_decide (hash migration ∈ applied)).

(** The bookkeeping tables that a database has: whether [yoyo_lock],
    [_yoyo_migration] and [_yoyo_log] exist. *)
Definition schema (d : database) : bool * bool * bool :=
  (bool_decide (is_Some (lock_table d)), bool_decide (is_Some (migration_table d)),
   bool_decide (is_Some (log_table d))).

(** The internal schema is current at [b]: this object has upgraded it
    itself, so that [ensure_internal_schema_updated] returns at once; or,
    as on every later run, [needs_upgrading] is asked each time and
    answers [False], leaving the tables as they are.  Its answer is the
    schema's, whatever the rows: it is the same on every backend whose
    database has the tables that [b]'s has. *)
Definition schema_current (b : DatabaseBackend) : Prop :=
  _internal_schema_updated b = true
  ∨ ∀ b', schema (data (connection b')) = schema (data (connection b)) →
      ∃ b'', needs_upgrading b' = (b'', Ok false)
             ∧ data (connection b'') = data (connection b').

(** [b'] is [b] after a check of the internal schema that found it
    current: the tables are the same, and so is all the rest where the
    check is skipped. *)
Definition checked (b b' : DatabaseBackend) : Prop :=
  data (connection b') = data (connection b)
  ∧ (_internal_schema_updated b = true → b' = b).


(** ** The bookkeeping tables after a call *)

(** C7: where the lock table exists, [_delete_lock_row(pid)] returns and
    leaves exactly the rows of another process id, in their order;
    [break_lock] leaves none. *)
Theorem delete_lock_row_only_own (b : DatabaseBackend) (p : Z) (t : list lock_row) :
  lock_table (data (connection b)) = Some t →
  (_in_transaction b = false → transaction_start (connection b) = None) →
  ∃ b1 b2,
    _delete_lock_row p b = (b1, Ok ())
    ∧ lock_table (data (connection b1)) = Some (filter (λ r, pid r ≠ p) t)
    ∧ break_lock b = (b2, Ok ())
    ∧ lock_table (data (connection b2)) = Some [].
Proof.
  destruct b as [[[lt mt lg ut] ts sps] intx lk sch ddl nsp lgd]. simpl.
  intros -> Hidle. destruct intx.
  - do 2 eexists. split_and!; reflexivity.
  - rewrite Hidle by done. do 2 eexists. split_and!; reflexivity.
Qed.

Lemma filter_other_hash (h i : string) (w : nat) (t : list migration_row) :
  h ∉ migration_hash <$> t →
  filter (λ r, migration_hash r ≠ h) (t ++ [MigrationRow h i w]) = t.
Proof.
  intros Hh. rewrite filter_app, filter_cons_False, filter_nil, app_nil_r by (simpl; auto).
  induction t as [|r t IH]; [done|]. simpl in Hh. apply not_elem_of_cons in Hh as [Hr Ht].
  rewrite filter_cons_True by done. f_equal. by apply IH.
Qed.

(** Where the internal schema is current, the check returns, leaves the
    tables as they are, and the schema is current afterwards. *)
Lemma ensure_current (env : environment) (ten : Z) (b : DatabaseBackend) :
  schema_current b →
  ∃ b', ensure_internal_schema_updated env ten b = Some (b', Ok ())
        ∧ checked b b' ∧ schema_current b'.
Proof.
  intros Hs. unfold ensure_internal_schema_updated.
  destruct (_internal_schema_updated b) eqn:Hflag.
  { exists b. by repeat split. }
  destruct Hs as [Hs|Hs]; [congruence|].
  destruct (Hs b eq_refl) as (b' & Hn & Hd).
  exists b'. unfold mbind, MO_bind, bindO, lift. rewrite Hn.
  split; [done|]. split; [split; [done|congruence]|].
  right. intros b'' Hb''. apply Hs. by rewrite Hb'', Hd.
Qed.

(** A change of the rows keeps the schema current. *)
Lemma schema_current_rows (b b' : DatabaseBackend) :
  schema_current b →
  _internal_schema_updated b' = _internal_schema_updated b →
  schema (data (connection b')) = schema (data (connection b)) →
  schema_current b'.
Proof.
  intros [Hs|Hs] Hflag Hsch; [left; congruence|].
  right. intros b'' Hb''. apply Hs. congruence.
Qed.

(** [mark_one] after the check: the message, the row of
    [_yoyo_migration], and the row of the log. *)
Lemma mark_one_checked (env : environment) (ten : Z) (m : Migration) (log_it : bool)
    (b b0 : DatabaseBackend) :
  ensure_internal_schema_updated env ten b = Some (b0, Ok ()) →
  mark_one env ten m log_it b
  = Some ((log (LogInfo ("Marking " +:+ id m +:+ " applied")) ;;
           _ ← execute (INSERT_MIGRATION (hash m) (id m) (applied_now env));
           if log_it then log_migration env m "mark" else mret ()) b0).
Proof. intros He. unfold mark_one, mbind at 1, MO_bind, bindO. by rewrite He. Qed.

Lemma unmark_one_checked (env : environment) (ten : Z) (m : Migration) (log_it : bool)
    (b b0 : DatabaseBackend) :
  ensure_internal_schema_updated env ten b = Some (b0, Ok ()) →
  unmark_one env ten m log_it b
  = Some ((_ ← execute (DELETE_MIGRATION (hash m));
           if log_it then log_migration env m "unmark" else mret ()) b0).
Proof. intros He. unfold unmark_one, mbind at 1, MO_bind, bindO. by rewrite He. Qed.

(** C8, as the code has it.  Where the internal schema is current and the
    two tables exist, with fresh log ids: for a migration whose hash is
    not in the applied-migration table, [mark_one] followed by
    [unmark_one] leaves that table as it was and adds a ['mark'] and an
    ['unmark'] row to the log; for a migration whose hash is in the table,
    [mark_one] raises on the primary key, leaving both tables as they
    were, and the [unmark_one] that follows takes the rows of that hash
    away and adds its ['unmark'] row to the log. *)
Theorem mark_unmark_restores (env1 env2 : environment) (ten : Z) (m : Migration)
    (b : DatabaseBackend) (t : list migration_row) (l : list log_row) :
  schema_current b →
  migration_table (data (connection b)) = Some t →
  log_table (data (connection b)) = Some l →
  uuid1 env2 ∉ log_id <$> l →
  (hash m ∉ migration_hash <$> t →
   uuid1 env1 ∉ log_id <$> l →
   uuid1 env1 ≠ uuid1 env2 →
   ∃ b1 b2,
     mark_one env1 ten m true b = Some (b1, Ok ())
     ∧ unmark_one env2 ten m true b1 = Some (b2, Ok ())
     ∧ migration_table (data (connection b2)) = Some t
     ∧ log_table (data (connection b2))
       = Some (l ++ [ LogRow (uuid1 env1) (Some (hash m)) (Some (id m)) "mark"
                        (getuser env1) (getfqdn env1) None (log_now env1);
                      LogRow (uuid1 env2) (Some (hash m)) (Some (id m)) "unmark"
                        (getuser env2) (getfqdn env2) None (log_now env2) ]))
  ∧ (hash m ∈ migration_hash <$> t →
     ∃ b1 b2,
       mark_one env1 ten m true b
         = Some (b1, Raise (DatabaseError
                    "UNIQUE constraint failed: _yoyo_migration.migration_hash"))
       ∧ migration_table (data (connection b1)) = Some t
       ∧ log_table (data (connection b1)) = Some l
       ∧ unmark_one env2 ten m true b1 = Some (b2, Ok ())
       ∧ migration_table (data (connection b2))
         = Some (filter (λ r, migration_hash r ≠ hash m) t)
       ∧ log_table (data (connection b2))
         = Some (l ++ [ LogRow (uuid1 env2) (Some (hash m)) (Some (id m)) "unmark"
                          (getuser env2) (getfqdn env2) None (log_now env2) ])).
Proof.
  intros Hs Ht Hl Hu2.
  destruct (ensure_current env1 ten b Hs) as (b0 & He0 & [Hd0 _] & Hs0).
  rewrite (mark_one_checked _ _ _ _ _ _ He0).
  destruct b0 as [[[lt mt lg ut] ts sps] intx lk sch ddl nsp lgd].
  rewrite <- Hd0 in Ht, Hl. simpl in Ht, Hl. subst mt lg. clear b Hs He0 Hd0.
  unfold log_migration, get_log_data. rewrite !decide_True by set_solver.
  unfold mbind, M_bind, bind, execute, cursor_execute, log. simpl.
  split.
  - intros Hh Hu1 Hne. rewrite decide_False by done. simpl. rewrite decide_False by done.
    simpl. unfold mret, M_ret, ret.
    match goal with |- ∃ _ _, Some (?b1, _) = _ ∧ _ =>
      exists b1;
      assert (schema_current b1) as Hs1
        by (eapply schema_current_rows; [exact Hs0|reflexivity|reflexivity]);
      destruct (ensure_current env2 ten b1 Hs1) as (b2 & He2 & [Hd2 _] & _)
    end.
    rewrite (unmark_one_checked _ _ _ _ _ _ He2).
    destruct b2 as [[d2 ts2 sps2] intx2 lk2 sch2 ddl2 nsp2 lgd2].
    simpl in Hd2. subst d2.
    unfold log_migration, get_log_data. rewrite !decide_True by set_solver.
    unfold mbind, M_bind, bind, execute, cursor_execute. simpl.
    rewrite decide_False.
    2:{ rewrite fmap_app. simpl. rewrite elem_of_app, list_elem_of_singleton. naive_solver. }
    simpl. eexists. split_and!; [reflexivity|reflexivity| |by rewrite <- app_assoc].
    by rewrite filter_other_hash.
  - intros Hh. rewrite decide_True by done. simpl.
    match goal with |- ∃ _ _, Some (?b1, _) = _ ∧ _ =>
      exists b1;
      assert (schema_current b1) as Hs1
        by (eapply schema_current_rows; [exact Hs0|reflexivity|reflexivity]);
      destruct (ensure_current env2 ten b1 Hs1) as (b2 & He2 & [Hd2 _] & _)
    end.
    rewrite (unmark_one_checked _ _ _ _ _ _ He2).
    destruct b2 as [[d2 ts2 sps2] intx2 lk2 sch2 ddl2 nsp2 lgd2].
    simpl in Hd2. subst d2.
    unfold log_migration, get_log_data. rewrite !decide_True by set_solver.
    unfold mbind, M_bind, bind, execute, cursor_execute. simpl.
    rewrite decide_False by done. simpl.
    eexists. split_and!; reflexivity.
Qed.


(** ** The lock *)

(** A backend between transactions, on a connection that agrees. *)
Definition idle (b : DatabaseBackend) : Prop :=
  _in_transaction b = false
  ∧ transaction_start (connection b) = None
  ∧ savepoints (connection b) = [].

Definition timeout_message (holder : Z) : string :=
  "Process " +:+ pretty holder +:+ " has locked this database "
  +:+ "(run yoyo break-lock to remove this lock)".

Lemma insert_lock_held (b : DatabaseBackend) (when : nat) (p : Z)
    (holder : lock_row) (t : list lock_row) :
  idle b → lock_table (data (connection b)) = Some (holder :: t) → locked holder = 1%Z →
  with_transaction false (execute (INSERT_LOCK when p)) b
  = (b, Raise (DatabaseError "UNIQUE constraint failed: yoyo_lock.locked")).
Proof.
  destruct b as [[[lt mt lg ut] ts sps] intx lk sch ddl nsp lgd].
  destruct holder as [l c p']. intros (Hin & Hts & Hsps) Hlt Hl. simpl in *. subst.
  unfold with_transaction, transaction, with_. simpl.
  rewrite ?decide_True by left. reflexivity.
Qed.

Lemma select_lock_pid (b : DatabaseBackend) (t : list lock_row) :
  lock_table (data (connection b)) = Some t →
  execute SELECT_LOCK_PID b = (b, Ok (PidRows (pid <$> t))).
Proof.
  destruct b as [[[lt mt lg ut] ts sps] intx lk sch ddl nsp lgd]. simpl.
  by intros ->.
Qed.

Lemma insert_lock_row_held (p timeout started : Z) (attempts : list (nat * Z))
    (b : DatabaseBackend) (holder : lock_row) (t : list lock_row) :
  idle b → lock_table (data (connection b)) = Some (holder :: t) → locked holder = 1%Z →
  _insert_lock_row p timeout started attempts b
  = match filter (λ a, timeout ≠ 0 ∧ started + timeout < a.2)%Z attempts with
    | [] => None
    | _ :: _ => Some (b, Raise (LockTimeout (timeout_message (pid holder))))
    end.
Proof.
  intros Hidle Ht Hl. induction attempts as [|[when now] attempts IH]; [done|].
  simpl. rewrite (insert_lock_held b when p holder t) by done. unfold Raise at 1.
  cbv beta iota.
  destruct (decide (timeout ≠ 0 ∧ started + timeout < now)%Z) as [Hd|Hd].
  - rewrite filter_cons_True by (simpl; tauto).
    rewrite bind_unfold, (select_lock_pid b (holder :: t)) by done. done.
  - rewrite filter_cons_False by (simpl; tauto). apply IH.
Qed.

(** While another row holds the lock, [lock()] does not run its body.
    With a timeout, it raises [LockTimeout], naming the process id in the
    row, at the first failed attempt after which the clock has passed the
    deadline, and leaves the backend as it was; the row may be the
    caller's own.  With a timeout of 0 it never gives up: it is still
    polling after any number of attempts. *)
Theorem lock_held (env : environment) (timeout : Z) {A} (body : MO A)
    (b : DatabaseBackend) (holder : lock_row) (t : list lock_row) :
  _is_locked b = false →
  idle b → lock_table (data (connection b)) = Some (holder :: t) → locked holder = 1%Z →
  with_lock env timeout body b
  = if decide (timeout ≠ 0 ∧ Exists (λ a, started env + timeout < a.2) (attempts env))%Z
    then Some (b, Raise (LockTimeout (timeout_message (pid holder))))
    else None.
Proof.
  intros Hl Hidle Ht Hh. unfold with_lock. rewrite Hl.
  rewrite (insert_lock_row_held _ _ _ _ b holder t) by done.
  destruct (filter _ (attempts env)) as [|a l] eqn:E.
  - rewrite decide_False; [done|]. intros [Hz Hex].
    apply Exists_exists in Hex as (a & Ha & Hlate).
    assert (a ∈ filter (λ a, timeout ≠ 0 ∧ started env + timeout < a.2)%Z (attempts env))
      as Hin by (by apply list_elem_of_filter).
    rewrite E in Hin. by apply elem_of_nil in Hin.
  - rewrite decide_True; [done|].
    assert (a ∈ filter (λ a, timeout ≠ 0 ∧ started env + timeout < a.2)%Z (attempts env))
      as Hin by (rewrite E; left).
    apply list_elem_of_filter in Hin as [[Hz Hlate] Hin]. split; [done|].
    apply Exists_exists. by exists a.
Qed.

Lemma framed_delete_lock_row (p : Z) : keeps framed (_delete_lock_row p).
Proof. unfold _delete_lock_row. eauto 10 with framed. Qed.

(** A body that raises leaves the backend marked as locked.  The lock
    row is deleted in the [finally], but [_is_locked] is only set back
    after a body that returns; so every later [lock()] on this backend
    runs its body at once, without taking the lock. *)
Theorem lock_flag_after_error (env : environment) (timeout : Z) {A} (body : MO A)
    (b b1 b2 : DatabaseBackend) (e : exn) :
  _is_locked b = false →
  _insert_lock_row (getpid env) timeout (started env) (attempts env) b = Some (b1, Ok ()) →
  body (set_is_locked true b1).1 = Some (b2, Raise e) →
  _is_locked b2 = true →
  ∃ b3 e',
    with_lock env timeout body b = Some (b3, Raise e')
    ∧ _is_locked b3 = true
    ∧ ∀ env' timeout' B (body' : MO B), with_lock env' timeout' body' b3 = body' b3.
Proof.
  intros Hl Hins Hbody Hl2. unfold with_lock at 1. rewrite Hl, Hins. unfold Ok at 1.
  cbv beta iota. rewrite Hbody. unfold Raise at 1. cbv beta iota.
  destruct (_delete_lock_row (getpid env) b2) as [b3 r] eqn:Hdel.
  assert (_is_locked b3 = true) as Hl3.
  { apply framed_delete_lock_row in Hdel as [(_ & Hk & _) _]. congruence. }
  destruct r as [e'|[]]; do 2 eexists; (split_and!; [done|done|]);
    intros env' timeout' B body'; unfold with_lock; by rewrite Hl3.
Qed.

(** The lock taken and given back.  On an idle backend whose lock table
    is empty, [lock()] puts in a row with the caller's process id at the
    first attempt and runs the body with [_is_locked] set; after a body
    that returns, [_is_locked] is unset and the rows with the caller's
    process id are gone. *)
Theorem lock_round_trip (env : environment) (timeout : Z) {A} (body : MO A)
    (b b2 : DatabaseBackend) (when : nat) (now : Z) (rest : list (nat * Z))
    (a : A) (t : list lock_row) :
  _is_locked b = false →
  idle b → lock_table (data (connection b)) = Some [] →
  attempts env = (when, now) :: rest →
  ∃ b1,
    _insert_lock_row (getpid env) timeout (started env) (attempts env) b = Some (b1, Ok ())
    ∧ lock_table (data (connection b1)) = Some [LockRow 1 when (getpid env)]
    ∧ idle b1
    ∧ (body (set_is_locked true b1).1 = Some (b2, Ok a) →
       idle b2 → lock_table (data (connection b2)) = Some t →
       ∃ b3, with_lock env timeout body b = Some (b3, Ok a)
         ∧ _is_locked b3 = false
         ∧ lock_table (data (connection b3))
           = Some (filter (λ r, pid r ≠ getpid env) t)).
Proof.
  destruct b as [[[lt mt lg ut] ts sps] intx lk sch ddl nsp lgd].
  intros Hl (Hin & Hts & Hsps) Hlt Hatt. simpl in *. subst.
  rewrite Hatt. eexists. split_and!; [reflexivity|reflexivity|done|].
  intros Hbody (Hin2 & Hts2 & Hsps2) Hlt2.
  unfold with_lock. simpl _is_locked. cbv iota. rewrite Hatt.
  cbn [_insert_lock_row]. unfold with_transaction, transaction, with_. simpl.
  simpl in Hbody. rewrite Hbody.
  destruct b2 as [[[lt2 mt2 lg2 ut2] ts2 sps2] intx2 lk2 sch2 ddl2 nsp2 lgd2].
  simpl in *. subst. eexists. split_and!; reflexivity.
Qed.

(** [create_lock_table] never raises a [DatabaseError] and never empties
    the table: where the table exists its rows are kept, and where it does
    not it is created empty.  The other tables are not touched. *)
Theorem create_lock_table_keeps_rows (b : DatabaseBackend) :
  (_in_transaction b = false → transaction_start (connection b) = None) →
  ∃ b', create_lock_table b = (b', Ok ())
    ∧ lock_table (data (connection b'))
      = Some (default [] (lock_table (data (connection b))))
    ∧ migration_table (data (connection b')) = migration_table (data (connection b))
    ∧ log_table (data (connection b')) = log_table (data (connection b))
    ∧ user_tables (data (connection b')) = user_tables (data (connection b)).
Proof.
  destruct b as [[[lt mt lg ut] ts sps] intx lk sch ddl nsp lgd]. simpl.
  intros Hidle. unfold create_lock_table, except_DatabaseError, with_transaction,
    transaction, with_.
  destruct intx; simpl.
  - destruct lt; simpl; [|eexists; split_and!; reflexivity].
    unfold savepoint_rollback, execute, cursor_execute. rewrite bind_unfold. simpl.
    rewrite decide_True by done. eexists; split_and!; reflexivity.
  - rewrite Hidle by done. destruct lt; simpl; eexists; split_and!; reflexivity.
Qed.

(** ** What [is_applied] answers *)

Lemma is_applied_reads (env : environment) (ten : Z) (m : Migration)
    (b : DatabaseBackend) (t : list migration_row) :
  schema_current b →
  migration_table (data (connection b)) = Some t →
  ∃ b', is_applied env ten m b = Some (b', Ok (bool_decide (hash m ∈ migration_hash <$> t)))
        ∧ checked b b'.
Proof.
  intros Hs Ht. destruct (ensure_current env ten b Hs) as (b0 & He0 & Hc0 & _).
  exists b0. split; [|done]. destruct Hc0 as [Hd0 _].
  unfold is_applied, get_applied_migration_hashes, mbind, MO_bind, bindO. rewrite He0.
  destruct b0 as [[[lt mt lg ut] ts sps] intx lk sch ddl nsp lgd].
  rewrite <- Hd0 in Ht. simpl in Ht. subst mt.
  unfold lift, M_bind, bind, execute, cursor_execute. simpl.
  unfold mret, MO_ret, lift, mret, M_ret, ret.
  erewrite bool_decide_ext; [reflexivity|].
  by rewrite merge_sort_Permutation.
Qed.

(** [is_applied] follows the marks.  Where the internal schema is
    current, [is_applied] leaves the tables as they are (and the whole
    backend, where the check of the schema is skipped) and tells whether
    the hash of the migration is in the table; it answers true after a
    [mark_one] that returned, and false after every [unmark_one] that
    returned, which takes away the rows of that hash and no other. *)
Theorem is_applied_follows_marks (env env' : environment) (ten : Z) (m : Migration)
    (log_it : bool) (b b1 : DatabaseBackend) (t : list migration_row) :
  schema_current b →
  migration_table (data (connection b)) = Some t →
  (∃ b', is_applied env' ten m b
           = Some (b', Ok (bool_decide (hash m ∈ migration_hash <$> t)))
         ∧ checked b b')
  ∧ (mark_one env ten m log_it b = Some (b1, Ok ()) →
     ∃ b', is_applied env' ten m b1 = Some (b', Ok true) ∧ checked b1 b')
  ∧ (unmark_one env ten m log_it b = Some (b1, Ok ()) →
     (∃ b', is_applied env' ten m b1 = Some (b', Ok false) ∧ checked b1 b')
     ∧ migration_table (data (connection b1))
       = Some (filter (λ r, migration_hash r ≠ hash m) t)).
Proof.
  intros Hs Ht. split; [by apply is_applied_reads|].
  destruct (ensure_current env ten b Hs) as (b0 & He0 & [Hd0 _] & Hs0).
  rewrite (mark_one_checked _ _ _ _ _ _ He0), (unmark_one_checked _ _ _ _ _ _ He0).
  destruct b0 as [[[lt mt lg ut] ts sps] intx lk sch ddl nsp lgd].
  rewrite <- Hd0 in Ht. simpl in Ht. subst mt. clear b Hs He0 Hd0.
  assert (∀ b' t', _internal_schema_updated b' = sch →
    schema (data (connection b')) = (bool_decide (is_Some lt), true, bool_decide (is_Some lg)) →
    migration_table (data (connection b')) = Some t' →
    ∃ b'', is_applied env' ten m b'
             = Some (b'', Ok (bool_decide (hash m ∈ migration_hash <$> t')))
           ∧ checked b' b'') as Hreads.
  { intros b' t' Hflag Hsch Ht'. apply is_applied_reads; [|done].
    eapply schema_current_rows; [exact Hs0|done|done]. }
  unfold log_migration, get_log_data.
  unfold mbind, M_bind, bind, execute, cursor_execute, log. simpl.
  split.
  - destruct (decide (hash m ∈ migration_hash <$> t)) as [|Hin]; [done|]. simpl.
    assert (bool_decide (hash m ∈ migration_hash <$>
              t ++ [MigrationRow (hash m) (id m) (applied_now env)]) = true) as Happlied.
    { apply bool_decide_eq_true_2. rewrite fmap_app. apply elem_of_app. right. left. }
    destruct log_it; simpl.
    + destruct lg as [l|]; simpl; [|done].
      destruct (decide (uuid1 env ∈ log_id <$> l)); simpl; [done|]. intros [= <-].
      rewrite <- Happlied. by apply Hreads.
    + intros [= <-]. rewrite <- Happlied. by apply Hreads.
  - assert (bool_decide (hash m ∈ migration_hash <$>
              filter (λ r, migration_hash r ≠ hash m) t) = false) as Hgone.
    { apply bool_decide_eq_false_2.
      intros (r & Hr & Hin)%list_elem_of_fmap.
      apply list_elem_of_filter in Hin as [Hne _]. done. }
    destruct log_it; simpl.
    + destruct lg as [l|]; simpl; [|done].
      destruct (decide (uuid1 env ∈ log_id <$> l)); simpl; [done|]. intros [= <-].
      split; [|done]. rewrite <- Hgone. by apply Hreads.
    + intros [= <-]. split; [|done]. rewrite <- Hgone. by apply Hreads.
Qed.

End internal_schema.

(** ** Concrete bookkeeping states *)

(** A backend whose internal schema is up to date, with the lock held by
    process 7 and migration [0001] marked as applied. *)
Definition busy_backend : DatabaseBackend :=
  Backend
    (Connection
       (Database (Some [LockRow 1 100 7])
          (Some [MigrationRow "sha256(0001)" "0001" 90])
          (Some []) ∅)
       None [])
    false false true true 1 [].

(** The same on a later run: the schema is current, and the flag of the
    new object is still [False]. *)
Definition later_backend : DatabaseBackend :=
  Backend
    (Connection
       (Database (Some [LockRow 1 100 7])
          (Some [MigrationRow "sha256(0001)" "0001" 90])
          (Some []) ∅)
       None [])
    false false false true 1 [].

Definition env_a : environment := Environment 8 0 [] 101 "uuid-a" "alice" "host" 102.
Definition env_b : environment := Environment 8 0 [] 103 "uuid-b" "alice" "host" 104.

Lemma delete_lock_row_only_own_witness :
  ∃ b1 b2,
    _delete_lock_row 8 busy_backend = (b1, Ok ())
    ∧ lock_table (data (connection b1)) = Some (filter (λ r, pid r ≠ 8%Z) [LockRow 1 100 7])
    ∧ break_lock busy_backend = (b2, Ok ())
    ∧ lock_table (data (connection b2)) = Some [].
Proof. apply delete_lock_row_only_own; reflexivity. Defined.

Example release_keeps_foreign_lock :
  lock_table (data (connection (_delete_lock_row 8 busy_backend).1))
  = Some [LockRow 1 100 7].
Proof. reflexivity. Qed.

Lemma mark_unmark_restores_witness :
  (∃ b1 b2,
    mark_one (mret false) (mret ()) env_a 10 (new_migration "0002") true later_backend
      = Some (b1, Ok ())
    ∧ unmark_one (mret false) (mret ()) env_b 10 (new_migration "0002") true b1
      = Some (b2, Ok ())
    ∧ migration_table (data (connection b2)) = Some [MigrationRow "sha256(0001)" "0001" 90]
    ∧ log_table (data (connection b2))
      = Some ([] ++ [ LogRow "uuid-a" (Some "sha256(0002)") (Some "0002") "mark"
                        "alice" "host" None 102;
                      LogRow "uuid-b" (Some "sha256(0002)") (Some "0002") "unmark"
                        "alice" "host" None 104 ]))
  ∧ (∃ b1 b2,
      mark_one (mret false) (mret ()) env_a 10 (new_migration "0001") true later_backend
        = Some (b1, Raise (DatabaseError
                   "UNIQUE constraint failed: _yoyo_migration.migration_hash"))
      ∧ migration_table (data (connection b1))
        = Some [MigrationRow "sha256(0001)" "0001" 90]
      ∧ log_table (data (connection b1)) = Some []
      ∧ unmark_one (mret false) (mret ()) env_b 10 (new_migration "0001") true b1
        = Some (b2, Ok ())
      ∧ migration_table (data (connection b2))
        = Some (filter (λ r, migration_hash r ≠ "sha256(0001)")
                  [MigrationRow "sha256(0001)" "0001" 90])
      ∧ log_table (data (connection b2))
        = Some ([] ++ [ LogRow "uuid-b" (Some "sha256(0001)") (Some "0001") "unmark"
                          "alice" "host" None 104 ])).
Proof.
  assert (schema_current (mret false) later_backend) as Hs.
  { right. intros b' _. by exists b'. }
  split.
  - apply (mark_unmark_restores (mret false) (mret ()) env_a env_b 10 (new_migration "0002")
             later_backend [MigrationRow "sha256(0001)" "0001" 90] [] Hs eq_refl eq_refl);
      compute_done.
  - apply (mark_unmark_restores (mret false) (mret ()) env_a env_b 10 (new_migration "0001")
             later_backend [MigrationRow "sha256(0001)" "0001" 90] [] Hs eq_refl eq_refl);
      compute_done.
Defined.

(** C8 as stated fails for a migration that is already marked:
    [mark_one] raises on the primary key and logs nothing, and the
    [unmark_one] that follows deletes the row that was there before. *)
Lemma mark_unmark_of_applied_migration :
  (∃ b1 b2,
    mark_one (mret false) (mret ()) env_a 10 (new_migration "0001") true later_backend
      = Some (b1, Raise (DatabaseError
                 "UNIQUE constraint failed: _yoyo_migration.migration_hash"))
    ∧ log_table (data (connection b1)) = Some []
    ∧ unmark_one (mret false) (mret ()) env_b 10 (new_migration "0001") true b1
      = Some (b2, Ok ())
    ∧ migration_table (data (connection b2)) = Some []
    ∧ log_table (data (connection b2))
      = Some [ LogRow "uuid-b" (Some "sha256(0001)") (Some "0001") "unmark"
                 "alice" "host" None 104 ])
  ∧ migration_table (data (connection later_backend))
    = Some [MigrationRow "sha256(0001)" "0001" 90].
Proof. split; [|reflexivity]. do 2 eexists. split_and!; reflexivity. Qed.


(** ** The lock on concrete backends *)

(** Process 8 asks for the lock at time 0 and reads the clock at 5 and
    at 11 after its two attempts. *)
Definition env_waiting : environment :=
  Environment 8 0 [(100, 5%Z); (101, 11%Z)] 101 "uuid-a" "alice" "host" 102.

(** An idle backend whose lock table is empty. *)
Definition free_backend : DatabaseBackend :=
  Backend (Connection (Database (Some []) (Some []) (Some []) ∅) None [])
    false false true true 1 [].

Definition locked_backend : DatabaseBackend :=
  Backend (Connection (Database (Some [LockRow 1 100 8]) (Some []) (Some []) ∅) None [])
    false true true true 1 [].

(** A body that raises. *)
Definition failing_body : MO unit := lift (raise (ValueError "no such migration")).

Lemma lock_held_witness :
  with_lock env_waiting 10 (lift (mret ())) busy_backend
  = Some (busy_backend, Raise (LockTimeout (timeout_message 7))).
Proof.
  rewrite (lock_held env_waiting 10 (lift (mret ())) busy_backend (LockRow 1 100 7) []);
    [|reflexivity|by repeat split|reflexivity|reflexivity].
  rewrite decide_True; [done|]. split; [done|]. right. left. simpl. lia.
Defined.

Example lock_held_without_timeout :
  with_lock env_waiting 0 (lift (mret ())) busy_backend = None.
Proof. reflexivity. Qed.

Lemma lock_flag_after_error_witness :
  ∃ b3 e',
    with_lock env_waiting 10 failing_body free_backend
      = Some (b3, Raise e')
    ∧ _is_locked b3 = true
    ∧ ∀ env' timeout' B (body' : MO B), with_lock env' timeout' body' b3 = body' b3.
Proof.
  apply (lock_flag_after_error env_waiting 10 failing_body free_backend
           (Backend (Connection (Database (Some [LockRow 1 100 8]) (Some []) (Some []) ∅)
                       None []) false false true true 1 [])
           locked_backend (ValueError "no such migration")); reflexivity.
Defined.

Lemma lock_round_trip_witness :
  ∃ b1,
    _insert_lock_row 8 10 0 (attempts env_waiting) free_backend = Some (b1, Ok ())
    ∧ lock_table (data (connection b1)) = Some [LockRow 1 100 8]
    ∧ idle b1
    ∧ (lift (mret ()) (set_is_locked true b1).1 = Some (locked_backend, Ok ()) →
       idle locked_backend →
       lock_table (data (connection locked_backend)) = Some [LockRow 1 100 8] →
       ∃ b3, with_lock env_waiting 10 (lift (mret ())) free_backend = Some (b3, Ok ())
         ∧ _is_locked b3 = false
         ∧ lock_table (data (connection b3))
           = Some (filter (λ r, pid r ≠ 8%Z) [LockRow 1 100 8])).
Proof.
  apply (lock_round_trip env_waiting 10 (lift (mret ())) free_backend locked_backend
           100 5 [(101, 11%Z)] () [LockRow 1 100 8]);
    [reflexivity|by repeat split|reflexivity|reflexivity].
Defined.

Lemma create_lock_table_keeps_rows_witness :
  ∃ b', create_lock_table busy_backend = (b', Ok ())
    ∧ lock_table (data (connection b')) = Some [LockRow 1 100 7]
    ∧ migration_table (data (connection b')) = Some [MigrationRow "sha256(0001)" "0001" 90]
    ∧ log_table (data (connection b')) = Some []
    ∧ user_tables (data (connection b')) = ∅.
Proof. apply (create_lock_table_keeps_rows busy_backend). reflexivity. Defined.

Lemma is_applied_follows_marks_witness :
  (∃ b', is_applied (mret false) (mret ()) env_b 10 (new_migration "0001") later_backend
           = Some (b', Ok true)
         ∧ checked later_backend b')
  ∧ (∃ b', is_applied (mret false) (mret ()) env_b 10 (new_migration "0002") later_backend
             = Some (b', Ok false)
           ∧ checked later_backend b').
Proof.
  assert (schema_current (mret false) later_backend) as Hs.
  { right. intros b' _. by exists b'. }
  split.
  - exact (proj1 (is_applied_follows_marks (mret false) (mret ()) env_a env_b 10
             (new_migration "0001") true later_backend later_backend
             [MigrationRow "sha256(0001)" "0001" 90] Hs eq_refl)).
  - exact (proj1 (is_applied_follows_marks (mret false) (mret ()) env_a env_b 10
             (new_migration "0002") true later_backend later_backend
             [MigrationRow "sha256(0001)" "0001" 90] Hs eq_refl)).
Defined.

End bookkeeping.

